(** * Blue Archive resource processor: [blue_archive/get_resources_v2.py]

    A shallow embedding of [get_default_lang_data], [get_legacy_image_mappings],
    [BlueArchiveResourceProcessor.get_chars], [get_stamps] and
    [get_filters], and the properties of the catalog builder proved over
    it.

    Conventions of the embedding.
    - A Python [str] is a list of Unicode code points ([list N]); indexing,
      slicing, [split], [join], [strip] and [index] work on code points as
      in Python.  Literals are written [lit "..."] (ASCII only).
    - A Python exception is a value of [exn]; fallible code lives in the
      error monad [result], with stdpp's notation [x ← r; k].  A lookup
      [d[k]] of a key that is absent raises [KeyError], on a plain [dict]
      and on an OmegaConf [DictConfig] (version 2.1 and later) alike.
    - The names and short names of a translation and the names of a
      localized group record are read through OmegaConf: reading "???"
      raises [MissingMandatoryValue], and reading a value that holds "${"
      starts an interpolation, which is not modelled and ends the
      modelled run (see [conf_value]).  The ids of the records are taken
      to be strings that OmegaConf gives back as they stand.
    - [Character.names] is the name mapping of the entry of the table,
      not a copy of it: lines 92-93 assign to that mapping, and every
      character built on it follows.  [name_holders] keeps, for each id,
      the positions in [result] of the characters that share the mapping
      of its entry.
    - Dictionaries whose iteration order the program never observes
      (name mappings, [avatar_files], [image_config]) are [gmap]s; the
      translation table, whose [values()] are sorted stably before being
      written, is an insertion-ordered association list ([ODict.t]).
    - What the program imports but does not define ([all_langs],
      [name_to_id], Unicode case mappings, the asset root) is collected in
      the record [externals]; the disk is part of the inputs.
    - Files are read before the call and written by it: [get_chars] maps
      [inputs] to an [outcome] that tells which files were written, with
      what, and what was returned or raised.  YAML and JSON are taken to
      carry the records as they are.
    - Left out: the two [print] calls of the merge, and what [pathlib]
      does to a path when it joins it (the path of an image is the asset
      root, a slash, the reference and ".png"). *)

From Stdlib Require Import NArith Ascii String List Sorted Permutation Lia.
From stdpp Require Import base option list gmap.

Import ListNotations.
Local Open Scope N_scope.
Local Open Scope list_scope.

(** ** Python strings *)

Abbreviation str := (list N).

Definition lit (s : string) : list N :=
  List.map N_of_ascii (list_ascii_of_string s).

Module PyStr.

(** [s.split(sep)] for a separator of one code point: the pieces between
    consecutive separators, empty pieces kept, never an empty list. *)
Fixpoint split (sep : N) (s : str) : list str :=
  match s with
  | [] => [[]]
  | c :: s' =>
      if N.eqb c sep then [] :: split sep s'
      else match split sep s' with
           | [] => [[c]]
           | w :: ws => (c :: w) :: ws
           end
  end.

(** [sep.join(l)] *)
Fixpoint join (sep : str) (l : list str) : str :=
  match l with
  | [] => []
  | [w] => w
  | w :: ws => w ++ sep ++ join sep ws
  end.

(** [l[-1]] on a list that [split] returned (it is never empty). *)
Definition last_piece (l : list str) : str := List.last l [].

(** Code points for which [str.isspace] holds. *)
Definition isspace (c : N) : bool :=
  ((9 <=? c) && (c <=? 13)) || ((28 <=? c) && (c <=? 32))
  || (c =? 0x85) || (c =? 0xa0) || (c =? 0x1680)
  || ((0x2000 <=? c) && (c <=? 0x200a))
  || (c =? 0x2028) || (c =? 0x2029) || (c =? 0x202f)
  || (c =? 0x205f) || (c =? 0x3000).

Fixpoint lstrip (s : str) : str :=
  match s with
  | c :: s' => if isspace c then lstrip s' else s
  | [] => []
  end.

Definition rstrip (s : str) : str := rev (lstrip (rev s)).

(** [s.strip()] *)
Definition strip (s : str) : str := rstrip (lstrip s).

Fixpoint startswith (p s : str) : bool :=
  match p, s with
  | [], _ => true
  | a :: p', b :: s' => N.eqb a b && startswith p' s'
  | _ :: _, [] => false
  end.

(** [s.endswith(p)] *)
Definition endswith (p s : str) : bool := startswith (rev p) (rev s).

(** [s.index(sub)]: the lowest offset at which [sub] occurs, [None] where
    Python raises [ValueError]. *)
Fixpoint index (sub s : str) : option nat :=
  if startswith sub s then Some 0%nat
  else match s with
       | [] => None
       | _ :: s' => option_map S (index sub s')
       end.

(** [c.upper()] on an ASCII code point. *)
Definition ascii_upper (c : N) : N :=
  if (97 <=? c) && (c <=? 122) then c - 32 else c.

(** [c.lower()] on an ASCII code point. *)
Definition ascii_lower (c : N) : N :=
  if (65 <=? c) && (c <=? 90) then c + 32 else c.

(** Lexicographic order on code points: Python's [<=] on [str]. *)
Fixpoint leb (a b : str) : bool :=
  match a, b with
  | [], _ => true
  | _ :: _, [] => false
  | x :: a', y :: b' => (x <? y) || ((x =? y) && leb a' b')
  end.

Definition eqb (a b : str) : bool := bool_decide (a = b).

End PyStr.

(** ** Exceptions and the error monad *)

(** The three [assert] statements of [get_chars]. *)
Inductive assertion : Type :=
| NameNotEmpty                 (* assert len(name) > 0 *)
| NameNotDuplicate (name : str) (* assert name not in avatar_files *)
| FileExists (path : str).      (* assert img_file.exists() *)

Inductive exn : Type :=
| IndexError
| KeyError (key : str)
| ValueError
| AssertionError (a : assertion)
| MissingMandatoryValue   (* omegaconf.errors.MissingMandatoryValue *)
| Interpolation.          (* a value with "${" was read, see [conf_value] *)

Inductive result (A : Type) : Type :=
| Ok (a : A)
| Raise (e : exn).
Arguments Ok {A} a.
Arguments Raise {A} e.

#[global] Instance result_bind : MBind result := fun A B k r =>
  match r with
  | Ok a => k a
  | Raise e => Raise e
  end.

#[global] Instance result_ret : MRet result := fun A a => Ok a.

(** [assert b] *)
Definition assert (b : bool) (a : assertion) : result unit :=
  if b then Ok tt else Raise (AssertionError a).

(** [for x in l: body], threading the loop state and stopping at the first
    exception. *)
Fixpoint for_each {A S} (body : S -> A -> result S) (l : list A) (s : S)
  : result S :=
  match l with
  | [] => Ok s
  | x :: l' => s' ← body s x; for_each body l' s'
  end.

(** [[f(x) for x in l]] where [f] may raise. *)
Fixpoint map_result {A B} (f : A -> result B) (l : list A) : result (list B) :=
  match l with
  | [] => Ok []
  | x :: l' => y ← f x; ys ← map_result f l'; Ok (y :: ys)
  end.

(** [d[k]] on a mapping: [KeyError] when the key is absent. *)
Definition getitem {V} (d : gmap str V) (k : str) : result V :=
  match d !! k with
  | Some v => Ok v
  | None => Raise (KeyError k)
  end.

(** ** Reading a configuration

    The translations, the derived translation and the localized group
    records are OmegaConf nodes.  Reading a string value of a node is not
    reading a [dict]: the value "???" is OmegaConf's mark of a missing
    mandatory value and reading it raises [MissingMandatoryValue]; a value
    that holds "${" is an interpolation, which OmegaConf resolves against
    the configuration the node stands in.  That resolution is not modelled:
    a read of such a value ends the modelled run with [Interpolation].
    [OmegaConf.to_container], a membership test on what it returns, and
    the serialization of the store take the values as they stand. *)

Definition MISSING : str := Eval cbv in lit "???".
Definition INTERPOLATION : str := Eval cbv in lit "${".

Definition conf_value (v : str) : result str :=
  if bool_decide (v = MISSING) then Raise MissingMandatoryValue
  else match PyStr.index INTERPOLATION v with
       | Some _ => Raise Interpolation
       | None => Ok v
       end.

(** [cfg[k]] on a [DictConfig] of strings. *)
Definition conf_getitem (d : gmap str str) (k : str) : result str :=
  v ← getitem d k; conf_value v.

(** [cfg[k]] where the value may be null. *)
Definition conf_getitem_opt (d : gmap str (option str)) (k : str)
  : result (option str) :=
  v ← getitem d k;
  match v with
  | None => Ok None
  | Some v => v' ← conf_value v; Ok (Some v')
  end.

(** [dict(cfg)] reads every value of [cfg], in the order of its keys.
    That order is not part of the model, so when the mapping has a value
    with "${" the outcome is [Interpolation], whatever else it has. *)
Definition conf_dict (d : gmap str str) : result (gmap str str) :=
  if bool_decide (map_Forall (fun _ v => PyStr.index INTERPOLATION v = None) d)
  then
    if bool_decide (map_Forall (fun _ v => v <> MISSING) d) then Ok d
    else Raise MissingMandatoryValue
  else Raise Interpolation.

(** ** Data model *)

(** Modelled from the spec: [blue_archive.common.CharData] is not part of
    the sources; a raw character record with the fields that
    [get_default_lang_data] and [get_chars] read, all of them strings. *)
Record CharData : Type := {
  cd_id : str;
  family_name : str;
  personal_name : str;
  family_name_ruby : str;
  personal_name_ruby : str;
  family_name_kr : str;
  personal_name_kr : str;
  image_files : list str;
}.

(** Modelled from the spec: [blue_archive.common.CharLangData] is not part
    of the sources; a translation has an id, a mapping from language code
    to display name and an optional mapping from language code to short
    name. *)
Record CharLangData : Type := {
  cl_id : str;
  cl_name : gmap str str;
  cl_short_name : option (gmap str str);
}.

(** Modelled from the spec: [blue_archive.common.GroupData] is not part of
    the sources; a club or a school has an id and a list of member ids. *)
Record GroupData : Type := {
  gd_id : str;
  members : list str;
}.

(** What the module imports and the repository snapshot does not define. *)
Record externals : Type := {
  all_langs : list str;          (* blue_archive.common.all_langs *)
  name_to_id : str -> str;       (* blue_archive.common.name_to_id *)
  nonascii_upper : N -> str;     (* str.upper() of one code point >= 128 *)
  str_lower : str -> str;        (* str.lower() *)
  res_root : str;                (* ResourceProcessor.res_root / "assets" *)
}.

Definition SPACE : N := 32.
Definition SLASH : N := 47.
Definition UNDERSCORE : N := 95.
Definition NPC : str := Eval cbv in lit "npc".
Definition LANG_JA : str := Eval cbv in lit "ja".
Definition LANG_EN : str := Eval cbv in lit "en".
Definition LANG_KO : str := Eval cbv in lit "ko".
Definition LANG_ZH_CN : str := Eval cbv in lit "zh-cn".
Definition LANG_ZH_TW : str := Eval cbv in lit "zh-tw".

Section Derivation.
Context (E : externals).

(** [c.upper()] for a string of one code point. *)
Definition upper1 (c : N) : str :=
  if c <? 128 then [PyStr.ascii_upper c] else nonascii_upper E c.

(** [s[0].upper() + s[1:]]; [s[0]] raises on the empty string. *)
Definition capitalize (s : str) : result str :=
  match s with
  | [] => Raise IndexError
  | c :: rest => Ok (upper1 c ++ rest)
  end.

(** The segments of the id that survive [if s != "npc"]. *)
Definition id_words (id : str) : list str :=
  List.filter (fun s => negb (PyStr.eqb s NPC)) (PyStr.split UNDERSCORE id).

Definition default_names (ja en ko : str) : gmap str str :=
  <[LANG_JA := ja]> (<[LANG_EN := en]> (<[LANG_KO := ko]>
    (<[LANG_ZH_CN := []]> (<[LANG_ZH_TW := []]> ∅)))).

Definition get_default_lang_data (data : CharData) : result CharLangData :=
  '(jp_name, en_name, kr_name) ←
    (if (0 <? length (family_name data))%nat then
       let jp_name := family_name data ++ [SPACE] ++ personal_name data in
       let en_name :=
         if (0 <? length (personal_name_ruby data))%nat then
           name_to_id E (family_name_ruby data) ++ [SPACE]
             ++ name_to_id E (personal_name_ruby data)
         else
           name_to_id E (family_name_ruby data) ++ [SPACE] ++ cd_id data in
       let kr_name :=
         PyStr.strip (family_name_kr data ++ [SPACE] ++ personal_name_kr data) in
       Ok (jp_name, en_name, kr_name)
     else
       caps ← map_result capitalize (id_words (cd_id data));
       Ok (personal_name data, PyStr.join [SPACE] caps, []));
  Ok {| cl_id := cd_id data;
        cl_name := default_names jp_name en_name kr_name;
        cl_short_name := None |}.

End Derivation.

(** ** Sorting

    [sorted(l, key=f)] is stable; the stable sorted arrangement of a list
    is unique, and insertion from the right computes it: an element is put
    in front of the first element whose key is not smaller. *)

Fixpoint insert_by {A} (key : A -> str) (x : A) (l : list A) : list A :=
  match l with
  | [] => [x]
  | y :: l' =>
      if PyStr.leb (key x) (key y) then x :: y :: l'
      else y :: insert_by key x l'
  end.

Definition sorted_by {A} (key : A -> str) (l : list A) : list A :=
  List.fold_right (insert_by key) [] l.

(** [sorted(l)] on a list of strings. *)
Definition sorted (l : list str) : list str := sorted_by (fun s => s) l.

(** ** The translation table

    [translations = {t.id: t for t in ...}] is a Python [dict]: assignment
    to a present key replaces the value where it stands, assignment to a
    new key appends.  [values()] comes in that order. *)

Module ODict.

Definition t (V : Type) : Type := list (str * V).

Fixpoint get {V} (k : str) (d : t V) : option V :=
  match d with
  | [] => None
  | (k', v) :: d' => if decide (k = k') then Some v else get k d'
  end.

Fixpoint set {V} (k : str) (v : V) (d : t V) : t V :=
  match d with
  | [] => [(k, v)]
  | (k', v') :: d' =>
      if decide (k = k') then (k, v) :: d' else (k', v') :: set k v d'
  end.

Definition keys {V} (d : t V) : list str := List.map fst d.
Definition values {V} (d : t V) : list V := List.map snd d.

End ODict.

(** [{t.id: t for t in translations}] *)
Definition translations_of (l : list CharLangData) : ODict.t CharLangData :=
  List.fold_left (fun d t => ODict.set (cl_id t) t d) l [].

(** ** Catalog records *)

(** Modelled from the spec: [utils.models.Character] is not part of the
    sources; the constructor takes id, name mapping, short-name mapping,
    relation list and group ids, and the object carries an image list that
    starts empty. *)
Record Character : Type := {
  ch_id : str;
  ch_names : gmap str str;
  ch_short_names : gmap str str;
  ch_relations : list str;
  ch_groups : list str;
  ch_images : list str;
}.

(** Everything [get_chars] reads. *)
Record inputs : Type := {
  char_data : list CharData;                 (* data/char_data.json *)
  club_data : list GroupData;                (* manual/clubs.yaml *)
  school_data : list GroupData;              (* manual/schools.yaml *)
  char_yaml : list CharLangData;             (* lang/char.yaml *)
  excluded_portraits_txt : list str;         (* manual/excluded_portraits.txt, by line *)
  img_mappings_json : list (str * str);      (* legacy/img_mappings.json, items in order *)
  disk : str -> bool;                        (* Path.exists *)
}.

Definition PORTRAIT_ : str := Eval cbv in lit "Portrait_".
Definition COLLECTION : str := Eval cbv in lit "_Collection".
Definition DOT_PNG : str := Eval cbv in lit ".png".
Definition H_CROP : str := Eval cbv in lit "h_crop".
Definition TOP : str := Eval cbv in lit "top".
(** The protected Japanese name of line 90, U+521D U+97F3 U+30DF U+30AF. *)
Definition SENTINEL_JA : str := [0x521d; 0x97f3; 0x30df; 0x30af].

(** [get_legacy_image_mappings]: a dict comprehension, so a later item with
    the same final path segment replaces an earlier one. *)
Definition get_legacy_image_mappings (items : list (str * str)) : gmap str str :=
  List.fold_left
    (fun m kv =>
       if (0 <? length kv.2)%nat
       then <[PyStr.last_piece (PyStr.split SLASH kv.2) := kv.1]> m
       else m)
    items ∅.

(** [set([l.strip() for l in f.readlines()])] *)
Definition excluded_set (lines : list str) : gset str :=
  list_to_set (List.map PyStr.strip lines).

(** ** [get_chars] *)

Section GetChars.
Context (E : externals).

(** Lines 92-93, [for lang in ["ja", "en"]: trans.name[lang] =
    default_trans.name[lang]], as they act on the mapping [name]. *)
Definition overwrite_names (default_trans : CharLangData)
  (name : gmap str str) : result (gmap str str) :=
  for_each
    (fun name lang =>
       v ← conf_getitem (cl_name default_trans) lang; Ok (<[lang := v]> name))
    [LANG_JA; LANG_EN] name.

(** Lines 88-94: the Japanese and English names follow the derived ones
    when the stored Japanese name differs from the derived one and is not
    the protected name.  The boolean tells whether that happened.  Both
    operands of line 90 read [trans.name["ja"]]; the second read gives
    what the first one gave. *)
Definition refresh_names (default_trans trans : CharLangData)
  : result (CharLangData * bool) :=
  default_ja_name ← conf_getitem (cl_name default_trans) LANG_JA;
  ja ← conf_getitem (cl_name trans) LANG_JA;
  if negb (PyStr.eqb ja default_ja_name) && negb (PyStr.eqb ja SENTINEL_JA) then
    name ← overwrite_names default_trans (cl_name trans);
    Ok ({| cl_id := cl_id trans; cl_name := name;
           cl_short_name := cl_short_name trans |}, true)
  else Ok (trans, false).

(** Lines 95-100: every language of [all_langs] that the name mapping
    lacks is taken from the derived translation.  The test of line 97 is
    on the plain [dict] of line 96, which has a key whatever its value. *)
Definition backfill_step (default_trans : CharLangData)
  (st : gmap str str * bool) (lang : str) : result (gmap str str * bool) :=
  match st.1 !! lang with
  | Some _ => Ok st
  | None =>
      v ← conf_getitem (cl_name default_trans) lang;
      Ok (<[lang := v]> st.1, true)
  end.

Definition backfill_names (default_trans trans : CharLangData)
  : result (CharLangData * bool) :=
  '(name, changed) ←
    for_each (backfill_step default_trans) (all_langs E) (cl_name trans, false);
  Ok ({| cl_id := cl_id trans; cl_name := name;
         cl_short_name := cl_short_name trans |}, changed).

(** What one pass over lines 81-100 did to the table. *)
Inductive merge_event : Type :=
| Adopted      (* no entry yet: the derived translation is stored *)
| Merged (refreshed backfilled : bool).

Definition event_dirty (ev : merge_event) : bool :=
  match ev with
  | Adopted => true
  | Merged refreshed backfilled => refreshed || backfilled
  end.

(** Lines 81-100.  [trans] aliases the entry of the table, so what is done
    to it is stored under [cid]. *)
Definition merge_translation (translations : ODict.t CharLangData)
  (cid : str) (default_trans : CharLangData)
  : result (ODict.t CharLangData * CharLangData * merge_event) :=
  match ODict.get cid translations with
  | None =>
      Ok (ODict.set cid default_trans translations, default_trans, Adopted)
  | Some trans =>
      '(trans, refreshed) ← refresh_names default_trans trans;
      '(trans, backfilled) ← backfill_names default_trans trans;
      Ok (ODict.set cid trans translations, trans, Merged refreshed backfilled)
  end.

(** Lines 104-105. *)
Definition short_name_step (name : gmap str str)
  (short_name : gmap str str) (lang : str) : result (gmap str str) :=
  let derive :=
    v ← conf_getitem name lang;
    Ok (<[lang := PyStr.last_piece (PyStr.split SPACE v)]> short_name) in
  match short_name !! lang with
  | None => derive
  | Some s => if (length s =? 0)%nat then derive else Ok short_name
  end.

(** Lines 102-105.  [cl_short_name] is [None] when the entry has no short
    names or has null for them; [dict(trans.short_name)] reads them all. *)
Definition resolve_short_names (trans : CharLangData) : result (gmap str str) :=
  short_name ← match cl_short_name trans with
               | Some short_name => conf_dict short_name
               | None => Ok ∅
               end;
  for_each (short_name_step (cl_name trans)) (all_langs E) short_name.

(** [[gp.id for gp in groups if cid in gp.members]] *)
Definition groups_of (cid : str) (groups : list GroupData) : list str :=
  List.map gd_id (List.filter (fun gp => bool_decide (cid ∈ members gp)) groups).

(** [res_root / f"{img}.png"] *)
Definition img_file (img : str) : str :=
  res_root E ++ [SLASH] ++ img ++ DOT_PNG.

(** Lines 121-124: the canonical name of a basename. *)
Definition canonical_name (image_mappings : gmap str str) (name : str)
  : result str :=
  match image_mappings !! name with
  | Some mapped => Ok mapped
  | None =>
      match PyStr.index PORTRAIT_ name with
      | Some i => Ok (drop (i + length PORTRAIT_) name)
      | None => Raise ValueError
      end
  end.

(** What the loop over [data.image_files] carries: [char.images],
    [avatar_files] and [image_config]. *)
Record image_state : Type := {
  is_images : list str;
  is_avatar_files : gmap str str;
  is_image_config : gmap str (gmap str str);
}.

(** Lines 117-136, one image reference. *)
Definition image_step (excluded_portraits : gset str)
  (image_mappings : gmap str str) (exists_ : str -> bool)
  (st : image_state) (img : str) : result image_state :=
  let name := PyStr.last_piece (PyStr.split SLASH img) in
  if bool_decide (name ∈ excluded_portraits) then Ok st
  else
    name' ← canonical_name image_mappings name;
    _ ← assert (0 <? length name')%nat NameNotEmpty;
    _ ← assert (negb (bool_decide (is_Some (is_avatar_files st !! name'))))
          (NameNotDuplicate name');
    _ ← assert (exists_ (img_file img)) (FileExists (img_file img));
    Ok {| is_images := is_images st ++ [name'];
          is_avatar_files := <[name' := img_file img]> (is_avatar_files st);
          is_image_config :=
            if PyStr.endswith COLLECTION name
            then <[img_file img := {[H_CROP := TOP]}]> (is_image_config st)
            else is_image_config st |}.

(** The variables of lines 69-75 that the loop over [char_data] updates.

    Python holds objects by reference, and two references matter here.
    The lists [chars_without_school] and [chars_without_club] hold the
    characters of [result] themselves: they are lists of positions in
    [result_chars].  And [char.names] of line 109 is the mapping
    [translations[cid].name] itself, not a copy of it: [name_holders]
    tells, for an id, the positions of the characters whose [names] is
    that mapping, so that an assignment of line 93 for a later record of
    the same id shows in them. *)
Record loop_state : Type := {
  translations : ODict.t CharLangData;
  result_chars : list Character;
  name_holders : gmap str (list nat);
  avatar_files : gmap str str;
  image_config : gmap str (gmap str str);
  updated_translations : bool;
  chars_without_school : list nat;
  chars_without_club : list nat;
}.

Definition with_names (char : Character) (name : gmap str str) : Character :=
  {| ch_id := ch_id char;
     ch_names := name;
     ch_short_names := ch_short_names char;
     ch_relations := ch_relations char;
     ch_groups := ch_groups char;
     ch_images := ch_images char |}.

(** Lines 92-93 as they show in the characters of [chars], which start at
    position [i]: those at one of the positions [holders] have the mapping
    that is assigned to. *)
Fixpoint refresh_holders (default_trans : CharLangData) (holders : list nat)
  (i : nat) (chars : list Character) : result (list Character) :=
  match chars with
  | [] => Ok []
  | char :: rest =>
      char' ← (if bool_decide (i ∈ holders)
               then name ← overwrite_names default_trans (ch_names char);
                    Ok (with_names char name)
               else Ok char);
      rest' ← refresh_holders default_trans holders (S i) rest;
      Ok (char' :: rest')
  end.

(** Lines 92-93 ran. *)
Definition refreshed (ev : merge_event) : bool :=
  match ev with
  | Adopted => false
  | Merged r _ => r
  end.

(** [translations[cid].name] is another object than before the pass: the
    mapping of the derived translation (line 84) or the one that line 99
    made. *)
Definition replaced (ev : merge_event) : bool :=
  match ev with
  | Adopted => true
  | Merged _ backfilled => backfilled
  end.

(** The characters at the given positions of [result]. *)
Fixpoint chars_at (positions : list nat) (chars : list Character)
  : list Character :=
  match positions with
  | [] => []
  | i :: rest =>
      match chars !! i with
      | Some char => char :: chars_at rest chars
      | None => chars_at rest chars
      end
  end.

Section Loop.
Context (inp : inputs).

Definition excluded_portraits : gset str :=
  excluded_set (excluded_portraits_txt inp).
Definition image_mappings : gmap str str :=
  get_legacy_image_mappings (img_mappings_json inp).

(** Lines 78-143, the body of [for data in char_data].  [earlier] are the
    characters built so far as they stand after lines 81-100; [char] is
    the character of this pass, at [position] in [result]. *)
Definition char_step (s : loop_state) (data : CharData) : result loop_state :=
  let cid := cd_id data in
  default_trans ← get_default_lang_data E data;
  '(translations', trans, ev) ←
    merge_translation (translations s) cid default_trans;
  let holders := default [] (name_holders s !! cid) in
  earlier ← (if refreshed ev
             then refresh_holders default_trans holders 0 (result_chars s)
             else Ok (result_chars s));
  short_name ← resolve_short_names trans;
  imgs ← for_each (image_step excluded_portraits image_mappings (disk inp))
            (image_files data)
            {| is_images := [];
               is_avatar_files := avatar_files s;
               is_image_config := image_config s |};
  let char :=
    {| ch_id := cid;
       ch_names := cl_name trans;
       ch_short_names := short_name;
       ch_relations := [];
       ch_groups := sorted (groups_of cid (club_data inp ++ school_data inp));
       ch_images := sorted (is_images imgs) |} in
  let position := length (result_chars s) in
  Ok {| translations := translations';
        result_chars := earlier ++ [char];
        name_holders :=
          <[cid := (if replaced ev then [] else holders) ++ [position]]>
            (name_holders s);
        avatar_files := is_avatar_files imgs;
        image_config := is_image_config imgs;
        updated_translations := updated_translations s || event_dirty ev;
        chars_without_school :=
          if (length (groups_of cid (school_data inp)) =? 0)%nat
          then chars_without_school s ++ [position]
          else chars_without_school s;
        chars_without_club :=
          if (length (groups_of cid (club_data inp)) =? 0)%nat
          then chars_without_club s ++ [position]
          else chars_without_club s |}.

Definition initial_state : loop_state :=
  {| translations := translations_of (char_yaml inp);
     result_chars := [];
     name_holders := ∅;
     avatar_files := ∅;
     image_config := ∅;
     updated_translations := false;
     chars_without_school := [];
     chars_without_club := [] |}.

Definition get_chars_loop : result loop_state :=
  for_each char_step (char_data inp) initial_state.

(** Lines 152 and 155, one entry of a report:
    [f"{char.id}\n  {char.names['ja']}\n  {char.images[0]}\n\n"].
    [char.names] is a configuration node. *)
Definition NL : N := 10.

Definition report_entry (char : Character) : result str :=
  ja ← conf_getitem (ch_names char) LANG_JA;
  first_image ← match ch_images char with
                | [] => Raise IndexError
                | img :: _ => Ok img
                end;
  Ok (ch_id char ++ [NL; SPACE; SPACE] ++ ja ++ [NL; SPACE; SPACE]
        ++ first_image ++ [NL; NL]).

(** [for char in chars: f.write(...)] inside [with open(path, "w")]: the
    text that reached the file, and the exception that ended the loop, if
    one did. *)
Fixpoint write_report (chars : list Character) : str * option exn :=
  match chars with
  | [] => ([], None)
  | char :: rest =>
      match report_entry char with
      | Raise e => ([], Some e)
      | Ok text => let '(more, e) := write_report rest in (text ++ more, e)
      end
  end.

(** The files [get_chars] may write ([None]: not opened for writing) and
    what the call returns or raises. *)
Record outcome : Type := {
  char_yaml_written : option (list CharLangData);   (* lang/char.yaml *)
  noschool_written : option str;         (* manual/noschool.generated.txt *)
  noclub_written : option str;           (* manual/noclub.generated.txt *)
  returned : result (list Character * gmap str str * gmap str (gmap str str));
}.

(** Lines 145-148: what is written to [lang/char.yaml]. *)
Definition store_contents (translations : ODict.t CharLangData)
  : list CharLangData :=
  sorted_by (fun x => str_lower E (cl_id x)) (ODict.values translations).

(** Lines 145-157. *)
Definition finish (s : loop_state) : outcome :=
  let store :=
    if updated_translations s then Some (store_contents (translations s))
    else None in
  match write_report (chars_at (chars_without_school s) (result_chars s)) with
  | (text, Some e) =>
      {| char_yaml_written := store; noschool_written := Some text;
         noclub_written := None; returned := Raise e |}
  | (text, None) =>
      match write_report (chars_at (chars_without_club s) (result_chars s)) with
      | (text', Some e) =>
          {| char_yaml_written := store; noschool_written := Some text;
             noclub_written := Some text'; returned := Raise e |}
      | (text', None) =>
          {| char_yaml_written := store; noschool_written := Some text;
             noclub_written := Some text';
             returned := Ok (result_chars s, avatar_files s, image_config s) |}
      end
  end.

Definition get_chars : outcome :=
  match get_chars_loop with
  | Raise e =>
      {| char_yaml_written := None; noschool_written := None;
         noclub_written := None; returned := Raise e |}
  | Ok s => finish s
  end.

End Loop.
End GetChars.

(** ** [get_filters] *)

(** Modelled from the spec: [blue_archive.common.GroupLangData] is not part
    of the sources; a localized group record has an id and a mapping from
    language code to a name that may be null ([None]). *)
Record GroupLangData : Type := {
  gl_id : str;
  gl_name : gmap str (option str);
}.

(** Modelled from the spec: [utils.models.FilterGroup] is not part of the
    sources; category key, display label, group ids, the name mappings
    parallel to them and the selection flags. *)
Record FilterGroup : Type := {
  fg_key : str;
  fg_label : str;
  fg_ids : list str;
  fg_names : list (gmap str str);
  fg_flags : list bool;
}.

Record filter_inputs : Type := {
  group_types : gmap str str;             (* lang/group_types.yaml *)
  lang_groups : str -> list GroupLangData; (* lang/{key}.yaml *)
}.

Definition SCHOOLS : str := Eval cbv in lit "schools".
Definition CLUBS : str := Eval cbv in lit "clubs".

Section GetFilters.
Context (E : externals).

(** [v or ""] *)
Definition or_empty (v : option str) : str :=
  match v with
  | Some (c :: s) => c :: s
  | Some [] => []
  | None => []
  end.

(** Lines 172-173: [{k: gp.name[k] or "" for k in all_langs}].  The
    [dict] of line 172 is a configuration node again once it is assigned
    to [gp.name], so that line 173 reads through OmegaConf. *)
Definition normalize_name (name : gmap str (option str)) : result (gmap str str) :=
  for_each (fun d k => v ← conf_getitem_opt name k; Ok (<[k := or_empty v]> d))
    (all_langs E) ∅.

(** Lines 169-180, the body of [for key in ["schools", "clubs"]]. *)
Definition filter_step (fi : filter_inputs) (res : list FilterGroup)
  (key : str) : result (list FilterGroup) :=
  let groups := sorted_by gl_id (lang_groups fi key) in
  names ← map_result (fun gp => normalize_name (gl_name gp)) groups;
  label ← getitem (group_types fi) key;
  Ok (res ++ [{| fg_key := key;
                    fg_label := label;
                    fg_ids := List.map gl_id groups;
                    fg_names := names;
                    fg_flags := List.repeat false (length groups) |}]).

Definition get_filters (fi : filter_inputs) : result (list FilterGroup) :=
  for_each (filter_step fi) [SCHOOLS; CLUBS] [].

End GetFilters.

(** ** Vocabulary of the statements *)

(** A segment with its first code point put in upper case. *)
Definition capitalized (E : externals) (s : str) : str :=
  match s with
  | [] => []
  | c :: rest => upper1 E c ++ rest
  end.

(** The English name derived from an id when there is no family name. *)
Definition derived_en_name (E : externals) (id : str) : str :=
  PyStr.join [SPACE] (List.map (capitalized E) (id_words id)).

(** The words of a name: its pieces between spaces. *)
Definition words (s : str) : list str := PyStr.split SPACE s.

Definition NPC_CAP : str := Eval cbv in lit "Npc".

(** What the proofs need of the Unicode upper-case table beyond ASCII: the
    upper case of a code point is not empty, does not begin with [N] and
    holds no space. *)
Definition upper_table_ok (E : externals) : Prop :=
  forall c, 128 <= c ->
    match nonascii_upper E c with
    | [] => False
    | d :: t => d <> 78 /\ ~ In SPACE (d :: t)
    end.

(** The order in which [sorted(l, key=f)] leaves its elements. *)
Definition key_le {A} (key : A -> str) (x y : A) : Prop :=
  PyStr.leb (key x) (key y) = true.

(** ** Concrete surroundings for the examples *)

Definition FIVE_LANGS : list str :=
  [LANG_JA; LANG_EN; LANG_KO; LANG_ZH_CN; LANG_ZH_TW].

(** Externals that agree with Python on ASCII text: [name_to_id] is taken
    to lower-case its argument, which is enough to tell its result from its
    argument. *)
Definition ascii_externals : externals :=
  {| all_langs := FIVE_LANGS;
     name_to_id := List.map PyStr.ascii_lower;
     nonascii_upper := fun c => [c];
     str_lower := List.map PyStr.ascii_lower;
     res_root := lit "assets" |}.

Definition char_of (id family personal family_ruby personal_ruby : string)
  (images : list string) : CharData :=
  {| cd_id := lit id;
     family_name := lit family;
     personal_name := lit personal;
     family_name_ruby := lit family_ruby;
     personal_name_ruby := lit personal_ruby;
     family_name_kr := [];
     personal_name_kr := [];
     image_files := List.map lit images |}.

Definition shop_keeper : CharData :=
  char_of "npc_shop_keeper" "" "Keeper" "" "" [].

Definition npc_capital : CharData := char_of "Npc_x" "" "X" "" "" [].

Definition empty_segment : CharData := char_of "a__b" "" "X" "" "" [].

Definition with_rubies : CharData :=
  char_of "aru" "Rikuhachima" "Aru" "RIKUHACHIMA" "ARU" [].

Definition without_personal_ruby : CharData :=
  char_of "aru_swimsuit" "Rikuhachima" "Aru" "RIKUHACHIMA" "" [].



Definition group_of (id : string) (name : list (str * option str))
  : GroupLangData :=
  {| gl_id := lit id; gl_name := list_to_map name |}.

Definition all_five (ja en : string) : list (str * option str) :=
  [(LANG_JA, Some (lit ja)); (LANG_EN, Some (lit en)); (LANG_KO, None);
   (LANG_ZH_CN, Some []); (LANG_ZH_TW, None)].

Definition demo_filter_inputs : filter_inputs :=
  {| group_types :=
       list_to_map [(SCHOOLS, lit "School"); (CLUBS, lit "Club")];
     lang_groups := fun key =>
       if decide (key = SCHOOLS) then
         [group_of "trinity" (all_five "Toriniti" "Trinity");
          group_of "abydos" (all_five "Abidosu" "Abydos")]
       else if decide (key = CLUBS) then
         [group_of "gamedev" (all_five "Geemu" "Game Development")]
       else [] |}.



(** The language has no explicit short name, or an empty one. *)
Definition lacks_short_name (short_name : gmap str str) (lang : str) : Prop :=
  short_name !! lang = None \/ short_name !! lang = Some [].

(** The last piece of a display name between spaces (line 105). *)
Definition last_space_piece (v : str) : str :=
  PyStr.last_piece (PyStr.split SPACE v).

(** The short name of a language after lines 102-105: the explicit one
    when it is there and not empty, else the one derived from the display
    name. *)
Definition resolved_short_name (name short_name : gmap str str) (lang : str)
  : option str :=
  match short_name !! lang with
  | Some (c :: s) => Some (c :: s)
  | _ => last_space_piece <$> name !! lang
  end.

(** The tokens of a string separated by runs of white space, as the
    specification words the derivation of short names (Python's
    [s.split()] without an argument); [cur] is the token being read. *)
Fixpoint spec_whitespace_tokens (cur s : str) : list str :=
  match s with
  | [] => match cur with [] => [] | _ => [cur] end
  | c :: s' =>
      if PyStr.isspace c then
        match cur with
        | [] => spec_whitespace_tokens [] s'
        | _ => cur :: spec_whitespace_tokens [] s'
        end
      else spec_whitespace_tokens (cur ++ [c]) s'
  end.

Definition spec_last_whitespace_token (s : str) : str :=
  List.last (spec_whitespace_tokens [] s) [].

Definition translation_of (id : string) (name : list (str * str))
  (short_name : option (gmap str str)) : CharLangData :=
  {| cl_id := lit id; cl_name := list_to_map name; cl_short_name := short_name |}.

Definition five_names (ja en : str) : list (str * str) :=
  [(LANG_JA, ja); (LANG_EN, en); (LANG_KO, []); (LANG_ZH_CN, []);
   (LANG_ZH_TW, [])].

Definition alice_smith : CharLangData :=
  translation_of "alice" (five_names (lit "Arisu") (lit "Alice Smith")) None.

Definition TAB : N := 9.

(** An English name whose two parts are separated by a tab. *)
Definition alice_tab_smith : CharLangData :=
  translation_of "alice"
    (five_names (lit "Arisu") (lit "Alice" ++ [TAB] ++ lit "Smith")) None.

(** An entry whose Japanese name is "???". *)
Definition alice_missing_ja : CharLangData :=
  translation_of "alice" (five_names MISSING (lit "Alice Smith")) None.

(** An English name that ends with a space. *)
Definition alice_smith_space : CharLangData :=
  translation_of "alice" (five_names (lit "Arisu") (lit "Alice Smith ")) None.

Definition aru_default : CharLangData :=
  {| cl_id := lit "aru";
     cl_name := default_names (lit "Rikuhachima Aru") (lit "rikuhachima aru") [];
     cl_short_name := None |}.

(** A stored entry from before the family name was known. *)
Definition aru_stale : CharLangData :=
  translation_of "aru" (five_names (lit "Aru") (lit "Aru")) None.

(** A stored entry whose Japanese name is the protected one. *)
Definition aru_protected : CharLangData :=
  translation_of "aru" (five_names SENTINEL_JA (lit "Miku")) None.

(** [sub] occurs in [s]. *)
Definition occurs (sub s : str) : Prop :=
  exists pre post, s = pre ++ sub ++ post.

(** A string that a read through OmegaConf gives back as it stands: it is
    not "???" and holds no "${". *)
Definition plain (v : str) : Prop :=
  v <> MISSING /\ ~ occurs INTERPOLATION v.

(** The mapping has a value for the key that can be read as it stands. *)
Definition readable (name : gmap str str) (lang : str) : Prop :=
  exists v, name !! lang = Some v /\ plain v.

(** Every value of the mapping can be read as it stands. *)
Definition all_plain (d : gmap str str) : Prop :=
  forall k v, d !! k = Some v -> plain v.

(** [img.split("/")[-1]] *)
Definition basename (img : str) : str :=
  PyStr.last_piece (PyStr.split SLASH img).

(** The computation raised. *)
Definition raises {A} (r : result A) : Prop := exists e, r = Raise e.

(** The run ended with an exception inside the loop over the characters:
    nothing is returned and no file is written. *)
Definition aborted (o : outcome) : Prop :=
  raises (returned o)
  /\ char_yaml_written o = None
  /\ noschool_written o = None
  /\ noclub_written o = None.

(** The image reference is not excluded and its canonical name is [n]. *)
Definition resolves_to (inp : inputs) (img n : str) : Prop :=
  (basename img ∉ excluded_portraits inp)
  /\ canonical_name (image_mappings inp) (basename img) = Ok n.

(** The three conditions on image references that C1 lists. *)
Inductive fatal_image_data (E : externals) (inp : inputs) : Prop :=
| Name_collision pre d1 mid d2 post img1 img2 n :
    char_data inp = pre ++ d1 :: mid ++ d2 :: post ->
    In img1 (image_files d1) -> In img2 (image_files d2) ->
    resolves_to inp img1 n -> resolves_to inp img2 n ->
    fatal_image_data E inp
| Empty_name d img :
    In d (char_data inp) -> In img (image_files d) ->
    resolves_to inp img [] ->
    fatal_image_data E inp
| Missing_file d img n :
    In d (char_data inp) -> In img (image_files d) ->
    resolves_to inp img n -> disk inp (img_file E img) = false ->
    fatal_image_data E inp.

Definition inputs_of (chars : list CharData) (clubs schools : list GroupData)
  (store : list CharLangData) (excluded : list str)
  (mappings : list (string * string)) (exists_ : str -> bool) : inputs :=
  {| char_data := chars;
     club_data := clubs;
     school_data := schools;
     char_yaml := store;
     excluded_portraits_txt := excluded;
     img_mappings_json := List.map (fun kv => (lit kv.1, lit kv.2)) mappings;
     disk := exists_ |}.

(** Two characters whose portraits are both called "Default". *)
Definition two_defaults : inputs :=
  inputs_of
    [char_of "hina" "" "Hina" "" "" ["Student/Hina/Portrait_Default"%string];
     char_of "iori" "" "Iori" "" "" ["Student/Iori/Portrait_Default"%string]]
    [] [] [] [] [] (fun _ => true).

(** A portrait whose basename has no "Portrait_" in it. *)
Definition no_marker : inputs :=
  inputs_of [char_of "hina" "" "Hina" "" "" ["Student/Hina/Icon_Hina"%string]]
    [] [] [] [] [] (fun _ => true).

(** The character that line 107 builds and line 138 completes. *)
Definition character_of (inp : inputs) (cid : str) (trans : CharLangData)
  (short_name : gmap str str) (images : list str) : Character :=
  {| ch_id := cid;
     ch_names := cl_name trans;
     ch_short_names := short_name;
     ch_relations := [];
     ch_groups := sorted (groups_of cid (club_data inp ++ school_data inp));
     ch_images := sorted images |}.

(** Two characters that differ at most in their name mapping. *)
Definition same_but_names (c c' : Character) : Prop :=
  ch_id c' = ch_id c
  /\ ch_short_names c' = ch_short_names c
  /\ ch_relations c' = ch_relations c
  /\ ch_groups c' = ch_groups c
  /\ ch_images c' = ch_images c.

(** The state in which the loop over the image references starts. *)
Definition images_start (s : loop_state) : image_state :=
  {| is_images := [];
     is_avatar_files := avatar_files s;
     is_image_config := image_config s |}.


(** Externals whose only required language is English. *)
Definition en_only_externals : externals :=
  {| all_langs := [LANG_EN];
     name_to_id := List.map PyStr.ascii_lower;
     nonascii_upper := fun c => [c];
     str_lower := List.map PyStr.ascii_lower;
     res_root := lit "assets" |}.

(** A new character whose personal name is "???", without image, school
    or club. *)
Definition unnamed_character : inputs :=
  inputs_of [char_of "hina" "" "???" "" "" []] [] [] [] [] [] (fun _ => true).

(** The character has no school, or has no club. *)
Definition without_school_or_club (inp : inputs) (cid : str) : Prop :=
  groups_of cid (school_data inp) = [] \/ groups_of cid (club_data inp) = [].

(** Line 140 and line 142: the character belongs to none of the groups. *)
Definition in_no_group (groups : list GroupData) (char : Character) : bool :=
  (length (groups_of (ch_id char) groups) =? 0)%nat.

(** The positions of a list at which [p] holds. *)
Definition positions_where {A} (p : A -> bool) (l : list A) : list nat :=
  List.filter (fun i => match l !! i with Some x => p x | None => false end)
    (seq 0 (length l)).

(** What holds of the two lists of characters without group: they hold
    the positions of the characters that no school, or no club, lists. *)
Definition collected_ok (inp : inputs) (s : loop_state) : Prop :=
  chars_without_school s
  = positions_where (in_no_group (school_data inp)) (result_chars s)
  /\ chars_without_club s
     = positions_where (in_no_group (club_data inp)) (result_chars s).

(** What holds of the name mappings of the characters collected so far.
    A character has the name mapping of the entry that the table has for
    its id, and is among the holders of that mapping; the entry has every
    required language, and a Japanese name that can be read when "ja" is
    required; and the short names of the last character of an id are
    those that lines 102-105 give for the entry.  The holders of the
    mapping of an id are characters of that id. *)
Definition names_ok (E : externals) (s : loop_state) : Prop :=
  (forall i c, result_chars s !! i = Some c ->
     i ∈ default [] (name_holders s !! ch_id c)
     /\ exists t,
          ODict.get (ch_id c) (translations s) = Some t
          /\ ch_names c = cl_name t
          /\ (forall l, In l (all_langs E) -> is_Some (cl_name t !! l))
          /\ (In LANG_JA (all_langs E) -> readable (cl_name t) LANG_JA)
          /\ ((forall j c', (i < j)%nat -> result_chars s !! j = Some c' ->
                             ch_id c' <> ch_id c) ->
              resolve_short_names E t = Ok (ch_short_names c)))
  /\ (forall k i, i ∈ default [] (name_holders s !! k) ->
        exists c, result_chars s !! i = Some c /\ ch_id c = k).



(** The inputs of a second run: everything as before, [lang/char.yaml] as
    the first run left it. *)
Definition with_store (inp : inputs) (store : list CharLangData) : inputs :=
  {| char_data := char_data inp;
     club_data := club_data inp;
     school_data := school_data inp;
     char_yaml := store;
     excluded_portraits_txt := excluded_portraits_txt inp;
     img_mappings_json := img_mappings_json inp;
     disk := disk inp |}.


(** The table is keyed by the ids of its entries, each key once. *)
Definition table_wf (T : ODict.t CharLangData) : Prop :=
  List.NoDup (ODict.keys T) /\ Forall (fun kv => cl_id kv.2 = kv.1) T.


(** Two records with the same id and different names. *)
Definition same_id_twice : inputs :=
  inputs_of
    [char_of "hina" "" "Hina" "" "" ["Student/Hina/Portrait_Hina"%string];
     char_of "hina" "" "Hina2" "" "" ["Student/Hina/Portrait_Hina2"%string]]
    [{| gd_id := lit "prefect"; members := [lit "hina"] |}]
    [{| gd_id := lit "gehenna"; members := [lit "hina"] |}]
    [] [] [] (fun _ => true).

(** The entry as lines 92-93 leave it: the Japanese and the English name
    are the derived ones, everything else is as it was. *)
Definition refreshed_entry (trans : CharLangData) (dja den : str)
  : CharLangData :=
  {| cl_id := cl_id trans;
     cl_name := <[LANG_EN := den]> (<[LANG_JA := dja]> (cl_name trans));
     cl_short_name := cl_short_name trans |}.

(** A stored entry whose Japanese name is "???". *)
Definition aru_missing : CharLangData :=
  translation_of "aru" (five_names MISSING (lit "Aru")) None.

(** One character record, whose id has the given entry in the store. *)
Definition aru_stored (entry : CharLangData) : inputs :=
  inputs_of [with_rubies] [] [] [entry] [] [] (fun _ => true).

(** ** Vocabulary of the further properties *)

(** One character record, whose id has a doubled underscore. *)
Definition empty_segment_inputs : inputs :=
  inputs_of [empty_segment] [] [] [] [] [] (fun _ => true).

(** The item of [legacy/img_mappings.json] that decides the legacy name of
    a basename: the last one whose value is not empty and ends in that
    basename; its key is the name. *)
Definition legacy_source (b : str) (items : list (str * str)) : option str :=
  fst <$> List.find
            (fun kv => (0 <? length kv.2)%nat && bool_decide (basename kv.2 = b))
            (rev items).

Definition legacy_items : list (str * str) :=
  [(lit "Aru_New", lit "Student/Aru/Portrait_Aru");
   (lit "Dropped", []);
   (lit "Aru_Newer", lit "Other/Portrait_Aru")].

(** A basename in which the marker occurs twice. *)
Definition marker_twice : str := Eval cbv in lit "NPC_Portrait_Portrait_Aru".

(** The image references whose basename is not excluded. *)
Definition kept_images (inp : inputs) (imgs : list str) : list str :=
  List.filter
    (fun img => negb (bool_decide (basename img ∈ excluded_portraits inp))) imgs.

Definition without_excluded (inp : inputs) (data : CharData) : CharData :=
  {| cd_id := cd_id data;
     family_name := family_name data;
     personal_name := personal_name data;
     family_name_ruby := family_name_ruby data;
     personal_name_ruby := personal_name_ruby data;
     family_name_kr := family_name_kr data;
     personal_name_kr := personal_name_kr data;
     image_files := kept_images inp (image_files data) |}.

(** The inputs with the excluded image references taken out of every
    character record. *)
Definition drop_excluded (inp : inputs) : inputs :=
  {| char_data := List.map (without_excluded inp) (char_data inp);
     club_data := club_data inp;
     school_data := school_data inp;
     char_yaml := char_yaml inp;
     excluded_portraits_txt := excluded_portraits_txt inp;
     img_mappings_json := img_mappings_json inp;
     disk := disk inp |}.

(** The value of every entry of [image_config]. *)
Definition CROP_TOP : gmap str str := {[H_CROP := TOP]}.

(** The image names of all characters, character by character. *)
Definition all_images (chars : list Character) : list str :=
  concat (List.map ch_images chars).

(** The image reference is one of a character record, is not excluded,
    and has the canonical name [n]. *)
Definition reference_of (inp : inputs) (ds : list CharData) (img n : str)
  : Prop :=
  exists d, In d ds /\ In img (image_files d) /\ resolves_to inp img n.

(** What holds of [avatar_files] and [image_config] when the loop has
    passed the records [ds]. *)
Definition catalog_ok (E : externals) (inp : inputs) (ds : list CharData)
  (s : loop_state) : Prop :=
  List.NoDup (all_images (result_chars s))
  /\ (forall n, is_Some (avatar_files s !! n)
                <-> In n (all_images (result_chars s)))
  /\ (forall n p, avatar_files s !! n = Some p ->
        n <> [] /\ disk inp p = true
        /\ exists img, reference_of inp ds img n /\ p = img_file E img)
  /\ (forall img n, reference_of inp ds img n ->
        avatar_files s !! n = Some (img_file E img))
  /\ (forall p v, image_config s !! p = Some v ->
        v = CROP_TOP
        /\ exists img n, reference_of inp ds img n
                         /\ PyStr.endswith COLLECTION (basename img) = true
                         /\ p = img_file E img)
  /\ (forall img n, reference_of inp ds img n ->
        PyStr.endswith COLLECTION (basename img) = true ->
        image_config s !! img_file E img = Some CROP_TOP).

(** A character record and the character built from it. *)
Definition character_matches (E : externals) (inp : inputs)
  (d : CharData) (c : Character) : Prop :=
  ch_id c = cd_id d
  /\ ch_relations c = []
  /\ ch_groups c = sorted (groups_of (cd_id d) (club_data inp ++ school_data inp))
  /\ (exists names,
        ch_images c = sorted names
        /\ Forall2 (fun img n => canonical_name (image_mappings inp) (basename img) = Ok n)
             (kept_images inp (image_files d)) names).

(** A character with a portrait to keep, one to skip, and a collection
    portrait; the skipped file is not on disk. *)
Definition with_excluded_portrait : inputs :=
  inputs_of
    [char_of "hina" "" "Hina" "" ""
       ["Student/Hina/Portrait_Hina"%string;
        "Student/Hina/Portrait_Bad"%string;
        "Student/Hina/Portrait_Hina_Collection"%string]]
    [{| gd_id := lit "prefect"; members := [lit "hina"] |}]
    [{| gd_id := lit "gehenna"; members := [lit "hina"] |}]
    [] [lit "Portrait_Bad" ++ [NL]] []
    (fun p => negb (PyStr.endswith (lit "Portrait_Bad.png") p)).

(** What the shape of a returned character is: no relations, the sorted
    ids of the groups that list it, sorted image names. *)
Definition character_shape_ok (inp : inputs) (c : Character) : Prop :=
  ch_relations c = []
  /\ Sorted (key_le (fun s => s)) (ch_groups c)
  /\ (forall g, In g (ch_groups c)
                <-> exists gp, In gp (club_data inp ++ school_data inp)
                               /\ gd_id gp = g /\ ch_id c ∈ members gp)
  /\ Sorted (key_le (fun s => s)) (ch_images c).

(** The text of a report entry for a character that has a Japanese name
    and an image. *)
Definition report_text (c : Character) : str :=
  ch_id c ++ [NL; SPACE; SPACE] ++ default [] (ch_names c !! LANG_JA)
    ++ [NL; SPACE; SPACE] ++ hd [] (ch_images c) ++ [NL; NL].

(** Two characters, the second without school. *)
Definition one_without_school : inputs :=
  inputs_of
    [char_of "hina" "" "Hina" "" ""
       ["Student/Hina/Portrait_Hina"%string;
        "Student/Hina/Portrait_Aa"%string];
     char_of "sora" "" "Sora" "" ""
       ["NPC/Portrait_Sora_2"%string; "NPC/Portrait_Sora"%string]]
    [{| gd_id := lit "prefect"; members := [lit "hina"; lit "sora"] |};
     {| gd_id := lit "angels24"; members := [lit "sora"] |}]
    [{| gd_id := lit "gehenna"; members := [lit "hina"] |}]
    [] [] [] (fun _ => true).


(** A stored entry without Japanese name. *)
Definition store_without_ja : inputs :=
  inputs_of
    [char_of "aru" "Rikuhachima" "Aru" "RIKUHACHIMA" "ARU"
       ["Student/Aru/Portrait_Aru"%string]]
    [] []
    [translation_of "aru" [(LANG_EN, lit "Aru")] None]
    [] [] (fun _ => true).

(** Reading an [outcome]: whether the call returned, and what; the written
    store, empty when none was written. *)
Definition succeeded {A} (r : result A) : bool :=
  match r with Ok _ => true | Raise _ => false end.

Definition returned_characters (o : outcome) : list Character :=
  match returned o with Ok (chars, _, _) => chars | Raise _ => [] end.

Definition returned_avatar_files (o : outcome) : gmap str str :=
  match returned o with Ok (_, avatar, _) => avatar | Raise _ => ∅ end.

Definition returned_image_config (o : outcome) : gmap str (gmap str str) :=
  match returned o with Ok (_, _, config) => config | Raise _ => ∅ end.









(** The records of [demo_filter_inputs] in another order. *)
Definition demo_filter_inputs_reordered : filter_inputs :=
  {| group_types :=
       list_to_map [(SCHOOLS, lit "School"); (CLUBS, lit "Club")];
     lang_groups := fun key =>
       if decide (key = SCHOOLS) then
         [group_of "abydos" (all_five "Abidosu" "Abydos");
          group_of "trinity" (all_five "Toriniti" "Trinity")]
       else if decide (key = CLUBS) then
         [group_of "gamedev" (all_five "Geemu" "Game Development")]
       else [] |}.


(** ** [get_stamps] *)

Definition JP_PNG : str := Eval cbv in lit "_Jp.png".
Definition DOT : N := 46.
Definition CLAN_EMOJI : str := Eval cbv in lit "/UIs/01_Common/31_ClanEmoji".

(** [glob.glob(str(in_root / "*_Jp.png"))] over a directory whose entries
    are [listing], in the order in which the directory gives them: the
    entries whose name ends in "_Jp.png" and does not begin with a dot,
    each behind the directory and a slash.  A directory that is absent
    has no entries; the directory path is taken to hold no wildcard. *)
Definition glob_jp (in_root : str) (listing : list str) : list str :=
  List.map (fun name => in_root ++ [SLASH] ++ name)
    (List.filter
       (fun name => PyStr.endswith JP_PNG name
                    && negb (PyStr.startswith [DOT] name))
       listing).

(** [sorted(l, key=f)] for integer keys, stable as [sorted_by]. *)
Fixpoint insert_by_int {A} (key : A -> Z) (x : A) (l : list A) : list A :=
  match l with
  | [] => [x]
  | y :: l' =>
      if (key x <=? key y)%Z then x :: y :: l'
      else y :: insert_by_int key x l'
  end.

Definition sorted_by_int {A} (key : A -> Z) (l : list A) : list A :=
  List.fold_right (insert_by_int key) [] l.

Section GetStamps.
Context (E : externals).
(** [int(s)], a builtin: [None] where it raises [ValueError]. *)
Context (py_int : str -> option Z).

(** [self.res_root / "assets/UIs/01_Common/31_ClanEmoji"] *)
Definition stamps_root : str := res_root E ++ CLAN_EMOJI.

(** Line 163, the key: [int(s.split("/")[-1].split("_")[2])]. *)
Definition stamp_key (s : str) : result Z :=
  match nth_error (PyStr.split UNDERSCORE (PyStr.last_piece (PyStr.split SLASH s))) 2 with
  | None => Raise IndexError
  | Some piece =>
      match py_int piece with
      | Some z => Ok z
      | None => Raise ValueError
      end
  end.

(** Lines 159-163; [sorted] computes the key of every file, in order,
    before it sorts. *)
Definition get_stamps (listing : list str) : result (list str) :=
  let files := glob_jp stamps_root listing in
  keyed ← map_result (fun s => k ← stamp_key s; Ok (k, s)) files;
  Ok (List.map snd (sorted_by_int fst keyed)).

End GetStamps.

(** The order in which [get_stamps] leaves the files. *)
Definition stamp_le (py_int : str -> option Z) (a b : str) : Prop :=
  exists ka kb,
    stamp_key py_int a = Ok ka /\ stamp_key py_int b = Ok kb /\ (ka <= kb)%Z.

(** The value of a string of ASCII digits, for the examples: [int] on
    such a string. *)
Definition digits_value (s : str) : option Z :=
  match s with
  | [] => None
  | _ =>
      List.fold_left
        (fun acc c =>
           match acc with
           | Some z =>
               if (48 <=? c) && (c <=? 57)
               then Some (10 * z + Z.of_N (c - 48))%Z else None
           | None => None
           end)
        s (Some 0%Z)
  end.

Definition emoji_listing : list str :=
  [lit "ClanChat_Emoji_100_Jp.png"; lit "ClanChat_Emoji_9_Jp.png";
   lit "ClanChat_Emoji_9_Kr.png"; lit ".ClanChat_Emoji_1_Jp.png";
   lit "ClanChat_Emoji_20_Jp.png"].

Definition short_name_listing : list str :=
  [lit "ClanChat_Emoji_3_Jp.png"; lit "Emoji_Jp.png";
   lit "ClanChat_Emoji_x_Jp.png"].

(** * Properties *)

(** ** The error monad *)

Lemma bind_Ok {A B} (r : result A) (k : A -> result B) (b : B) :
  (r ≫= k) = Ok b -> exists a, r = Ok a /\ k a = Ok b.
Proof. destruct r as [a|e]; [eauto | discriminate]. Qed.



Lemma assert_Ok b a u : assert b a = Ok u -> b = true.
Proof. destruct b; [reflexivity | discriminate]. Qed.

(** Decompose a hypothesis [(x ← r; k) = Ok b]. *)
Ltac inv_bind H :=
  let a := fresh "a" in
  let Ha := fresh "Ha" in
  apply bind_Ok in H; destruct H as (a & Ha & H).

Lemma for_each_app {A S} (body : S -> A -> result S) l1 l2 s :
  for_each body (l1 ++ l2) s = (for_each body l1 s ≫= for_each body l2).
Proof.
  revert s; induction l1 as [|x l1 IH]; intros s; simpl; [reflexivity|].
  destruct (body s x) as [s'|e]; simpl; [apply IH | reflexivity].
Qed.

(** A property of the state that every successful step keeps holds after
    a successful loop. *)
Lemma for_each_invariant {A S} (body : S -> A -> result S) (P : S -> Prop) l :
  (forall s x s', In x l -> P s -> body s x = Ok s' -> P s') ->
  forall s s', P s -> for_each body l s = Ok s' -> P s'.
Proof.
  induction l as [|x l IH]; intros Hstep s s' Hs Hrun; simpl in Hrun.
  - congruence.
  - inv_bind Hrun. eapply IH; [| |exact Hrun].
    + intros; eapply Hstep; eauto using in_cons.
    + eapply Hstep; eauto using in_eq.
Qed.

(** A step that raises ends the loop with an exception. *)
Lemma for_each_Raise {A S} (body : S -> A -> result S) l1 x l2 s :
  (forall s1, for_each body l1 s = Ok s1 -> exists e, body s1 x = Raise e) ->
  exists e, for_each body (l1 ++ x :: l2) s = Raise e.
Proof.
  intros H. rewrite for_each_app.
  destruct (for_each body l1 s) as [s1|e] eqn:E1; simpl; [|eauto].
  destruct (H s1 eq_refl) as [e He]. rewrite He. simpl. eauto.
Qed.


Lemma map_result_total {A B} (f : A -> result B) (g : A -> B) l :
  Forall (fun x => f x = Ok (g x)) l -> map_result f l = Ok (List.map g l).
Proof.
  induction 1 as [|x l Hx _ IH]; simpl; [reflexivity|].
  rewrite Hx; simpl. rewrite IH; reflexivity.
Qed.

(** ** Splitting and joining *)

Lemma split_no_sep sep w : ~ In sep w -> PyStr.split sep w = [w].
Proof.
  induction w as [|c w IH]; intros Hw; simpl; [reflexivity|].
  destruct (N.eqb_spec c sep) as [->|_]; [exfalso; apply Hw; left; reflexivity|].
  rewrite IH; [reflexivity | intros H; apply Hw; right; exact H].
Qed.

Lemma split_app_sep sep w r :
  ~ In sep w -> PyStr.split sep (w ++ sep :: r) = w :: PyStr.split sep r.
Proof.
  induction w as [|c w IH]; intros Hw; simpl.
  - rewrite N.eqb_refl; reflexivity.
  - destruct (N.eqb_spec c sep) as [->|_]; [exfalso; apply Hw; left; reflexivity|].
    rewrite IH; [reflexivity | intros H; apply Hw; right; exact H].
Qed.

(** Splitting what was joined gives the pieces back when no piece holds
    the separator. *)
Lemma split_join sep l :
  l <> [] -> Forall (fun w => ~ In sep w) l ->
  PyStr.split sep (PyStr.join [sep] l) = l.
Proof.
  induction l as [|w l IH]; intros Hne Hall; [congruence|].
  inversion Hall as [|? ? Hw Hl]; subst.
  destruct l as [|w' l].
  - simpl. apply split_no_sep; exact Hw.
  - change (PyStr.join [sep] (w :: w' :: l))
      with (w ++ sep :: PyStr.join [sep] (w' :: l)).
    rewrite split_app_sep by exact Hw.
    rewrite IH; [reflexivity | discriminate | exact Hl].
Qed.

(** Every code point of a piece is one of the string. *)
Lemma in_split sep s w x : In w (PyStr.split sep s) -> In x w -> In x s.
Proof.
  revert w; induction s as [|c s IH]; intros w Hw Hx; simpl in Hw.
  - destruct Hw as [<-|[]]; exact Hx.
  - destruct (c =? sep).
    + destruct Hw as [<-|Hw]; [destruct Hx | right; eapply IH; eauto].
    + destruct (PyStr.split sep s) as [|w0 ws] eqn:Es.
      * destruct Hw as [<-|[]]. destruct Hx as [<-|[]]; left; reflexivity.
      * destruct Hw as [<-|Hw].
        -- destruct Hx as [<-|Hx]; [left; reflexivity|].
           right. apply (IH w0); [left; reflexivity | exact Hx].
        -- right. apply (IH w); [right; exact Hw | exact Hx].
Qed.

(** ** Finding the marker *)

Lemma startswith_spec p s :
  PyStr.startswith p s = true <-> exists r, s = p ++ r.
Proof.
  revert s; induction p as [|a p IH]; intros s; simpl.
  - split; [intros _; exists s; reflexivity | reflexivity].
  - destruct s as [|b s].
    + split; [discriminate | intros [r Hr]; discriminate].
    + rewrite andb_true_iff, N.eqb_eq, IH. split.
      * intros [-> [r ->]]. exists r. reflexivity.
      * intros [r Hr]. injection Hr as -> ->. eauto.
Qed.

Lemma index_Some sub s i :
  PyStr.index sub s = Some i ->
  exists pre post, s = pre ++ sub ++ post /\ length pre = i.
Proof.
  revert i; induction s as [|c s IH]; intros i; simpl.
  - destruct (PyStr.startswith sub []) eqn:Hs; [|discriminate].
    intros [= <-]. apply startswith_spec in Hs as [r Hr].
    exists [], r. split; [exact Hr | reflexivity].
  - destruct (PyStr.startswith sub (c :: s)) eqn:Hs.
    + intros [= <-]. apply startswith_spec in Hs as [r Hr].
      exists [], r. split; [exact Hr | reflexivity].
    + destruct (PyStr.index sub s) as [j|]; [|discriminate].
      intros [= <-]. destruct (IH j eq_refl) as (pre & post & -> & Hlen).
      exists (c :: pre), post. split; [reflexivity | simpl; congruence].
Qed.

Lemma index_None sub s : PyStr.index sub s = None <-> ~ occurs sub s.
Proof.
  split.
  - induction s as [|c s IH]; simpl.
    + destruct (PyStr.startswith sub []) eqn:Hs; [discriminate|].
      intros _ (pre & post & H).
      symmetry in H. apply app_eq_nil in H as [-> H].
      assert (PyStr.startswith sub [] = true); [|congruence].
      apply startswith_spec. exists post. symmetry; exact H.
    + destruct (PyStr.startswith sub (c :: s)) eqn:Hs; [discriminate|].
      destruct (PyStr.index sub s); [discriminate|].
      intros _ (pre & post & H). destruct pre as [|c' pre].
      * assert (PyStr.startswith sub (c :: s) = true); [|congruence].
        apply startswith_spec. exists post. exact H.
      * injection H as _ H. apply IH; [reflexivity|].
        exists pre, post. exact H.
  - intros Hno. destruct (PyStr.index sub s) as [i|] eqn:Hi; [|reflexivity].
    destruct (index_Some _ _ _ Hi) as (pre & post & H & _).
    exfalso. apply Hno. exists pre, post. exact H.
Qed.

(** The canonical name is missing exactly for a basename that the legacy
    mapping does not know and that has no "Portrait_" in it. *)
Lemma canonical_name_ValueError (mappings : gmap str str) name :
  canonical_name mappings name = Raise ValueError
  <-> mappings !! name = None /\ ~ occurs PORTRAIT_ name.
Proof.
  unfold canonical_name. rewrite <- index_None.
  destruct (mappings !! name); [split; [discriminate | intros [? _]; discriminate]|].
  destruct (PyStr.index PORTRAIT_ name);
    split; try discriminate; try tauto. intros [_ ?]; discriminate.
Qed.

(** ** Reading a configuration *)

Lemma conf_value_Ok v v' : conf_value v = Ok v' <-> v' = v /\ plain v.
Proof.
  unfold conf_value, plain. case_bool_decide as Hm.
  - split; [discriminate | intros [_ [H _]]; contradiction].
  - destruct (PyStr.index INTERPOLATION v) as [i|] eqn:Hi.
    + split; [discriminate|]. intros [_ [_ H]].
      apply index_None in H. congruence.
    + split.
      * intros [= <-]. split; [reflexivity|]. split; [exact Hm|].
        apply index_None. exact Hi.
      * intros [-> _]. reflexivity.
Qed.

Lemma conf_value_Ok_plain v : conf_value v = Ok v -> plain v.
Proof. intros H. apply conf_value_Ok in H as [_ H]. exact H. Qed.



Lemma conf_getitem_Ok d k v :
  conf_getitem d k = Ok v <-> d !! k = Some v /\ plain v.
Proof.
  unfold conf_getitem, getitem. destruct (d !! k) as [w|]; simpl.
  - rewrite conf_value_Ok. split; [intros [-> H]; auto | intros [[= ->] H]; auto].
  - split; [discriminate | intros [H _]; discriminate].
Qed.

Lemma conf_getitem_plain d k v :
  d !! k = Some v -> plain v -> conf_getitem d k = Ok v.
Proof. intros; apply conf_getitem_Ok; auto. Qed.

Lemma conf_getitem_None d k : d !! k = None -> conf_getitem d k = Raise (KeyError k).
Proof. unfold conf_getitem, getitem. intros ->. reflexivity. Qed.


(** ** Default translations *)

Lemma eqb_str_true a b : PyStr.eqb a b = true <-> a = b.
Proof. unfold PyStr.eqb. apply bool_decide_eq_true. Qed.

Lemma eqb_str_false a b : PyStr.eqb a b = false <-> a <> b.
Proof. unfold PyStr.eqb. apply bool_decide_eq_false. Qed.

Lemma in_id_words id s :
  In s (id_words id) <-> In s (PyStr.split UNDERSCORE id) /\ s <> NPC.
Proof.
  unfold id_words. rewrite filter_In, negb_true_iff, eqb_str_false. reflexivity.
Qed.

Lemma capitalize_total E l :
  Forall (fun s => s <> []) l ->
  map_result (capitalize E) l = Ok (List.map (capitalized E) l).
Proof.
  intros H. apply map_result_total.
  eapply List.Forall_impl; [|exact H].
  intros [|c s] Hs; [congruence | reflexivity].
Qed.

Lemma ascii_upper_N c : PyStr.ascii_upper c = 78 -> c = 78 \/ c = 110.
Proof.
  unfold PyStr.ascii_upper.
  destruct (N.leb_spec 97 c); destruct (N.leb_spec c 122); simpl; lia.
Qed.

Lemma ascii_upper_space c : PyStr.ascii_upper c = SPACE -> c = SPACE.
Proof.
  unfold PyStr.ascii_upper, SPACE.
  destruct (N.leb_spec 97 c); destruct (N.leb_spec c 122); simpl; lia.
Qed.

(** A capitalized segment is [Npc] only for the segments [npc] and [Npc]. *)
Lemma capitalized_Npc E s :
  upper_table_ok E -> capitalized E s = NPC_CAP -> s = NPC \/ s = NPC_CAP.
Proof.
  intros Hup. destruct s as [|c rest]; [discriminate|].
  unfold capitalized, upper1. destruct (N.ltb_spec c 128) as [Hc|Hc].
  - simpl. intros H. injection H as H1 H2. subst rest.
    destruct (ascii_upper_N _ H1) as [->| ->]; [right | left]; reflexivity.
  - specialize (Hup c Hc). destruct (nonascii_upper E c) as [|d t]; [contradiction|].
    simpl. intros H. injection H as H1 _. destruct Hup; congruence.
Qed.

Lemma capitalized_no_space E s :
  upper_table_ok E -> ~ In SPACE s -> ~ In SPACE (capitalized E s).
Proof.
  intros Hup Hs. destruct s as [|c rest]; [exact Hs|].
  unfold capitalized, upper1. rewrite in_app_iff.
  intros [H|H]; [|apply Hs; right; exact H].
  destruct (N.ltb_spec c 128) as [Hc|Hc].
  - destruct H as [H|[]]. apply ascii_upper_space in H.
    apply Hs; left; exact H.
  - specialize (Hup c Hc). destruct (nonascii_upper E c); [contradiction|].
    destruct Hup as [_ Hup]; exact (Hup H).
Qed.

(** C4 (as amended): without a family name, and when no segment of the id
    between underscores is empty, the derived translation has the personal
    name as Japanese name, the empty string as Korean name, and as English
    name the capitalized segments of the id other than "npc", joined by
    spaces.  The id "npc_shop_keeper" gives "Shop Keeper".  The English
    name has no word "Npc" when the id holds no space and no segment
    "Npc". *)
Theorem default_translation_without_family_name (E : externals) (data : CharData) :
  family_name data = [] ->
  Forall (fun s => s <> []) (PyStr.split UNDERSCORE (cd_id data)) ->
  (exists t,
      get_default_lang_data E data = Ok t
      /\ cl_id t = cd_id data
      /\ cl_name t !! LANG_JA = Some (personal_name data)
      /\ cl_name t !! LANG_KO = Some []
      /\ cl_name t !! LANG_EN = Some (derived_en_name E (cd_id data)))
  /\ derived_en_name E (lit "npc_shop_keeper") = lit "Shop Keeper"
  /\ (upper_table_ok E ->
      ~ In SPACE (cd_id data) ->
      ~ In NPC_CAP (PyStr.split UNDERSCORE (cd_id data)) ->
      ~ In NPC_CAP (words (derived_en_name E (cd_id data)))).
Proof.
  intros Hfam Hseg. split; [|split].
  - unfold get_default_lang_data. rewrite Hfam. simpl.
    rewrite capitalize_total.
    + simpl. eexists. split; [reflexivity|]. repeat split.
    + apply List.Forall_forall. intros s Hs. apply in_id_words in Hs as [Hs _].
      revert s Hs. apply List.Forall_forall. exact Hseg.
  - reflexivity.
  - intros Hup Hsp Hnpc Hin. unfold words, derived_en_name in Hin.
    destruct (id_words (cd_id data)) as [|w ws] eqn:Ew.
    + simpl in Hin. destruct Hin as [H|[]]; discriminate.
    + rewrite split_join in Hin.
      * apply in_map_iff in Hin as (s & Hcap & Hs).
        rewrite <- Ew in Hs. apply in_id_words in Hs as [Hs Hne].
        destruct (capitalized_Npc E s Hup Hcap) as [->| ->]; [congruence|].
        exact (Hnpc Hs).
      * discriminate.
      * apply List.Forall_forall. intros c Hc.
        apply in_map_iff in Hc as (s & <- & Hs).
        apply capitalized_no_space; [exact Hup|].
        rewrite <- Ew in Hs. apply in_id_words in Hs as [Hs _].
        intros Hx. apply Hsp. eapply in_split; eauto.
Qed.

Lemma ascii_externals_upper_table_ok : upper_table_ok ascii_externals.
Proof.
  intros c Hc. simpl. split; [lia|].
  intros [H|[]]. unfold SPACE in H. lia.
Qed.

Lemma default_translation_without_family_name_witness :
  (exists t,
      get_default_lang_data ascii_externals shop_keeper = Ok t
      /\ cl_name t !! LANG_JA = Some (lit "Keeper")
      /\ cl_name t !! LANG_KO = Some []
      /\ cl_name t !! LANG_EN = Some (lit "Shop Keeper"))
  /\ ~ In NPC_CAP (words (lit "Shop Keeper")).
Proof.
  destruct (default_translation_without_family_name ascii_externals shop_keeper)
    as (H1 & H2 & H3).
  - reflexivity.
  - repeat constructor; discriminate.
  - split.
    + destruct H1 as (t & Ht & _ & Hja & Hko & Hen).
      exists t. repeat split; assumption.
    + apply H3.
      * exact ascii_externals_upper_table_ok.
      * vm_compute. intuition discriminate.
      * vm_compute. intuition discriminate.
Defined.

(** C4 as stated fails: the id "Npc_x" has no segment equal to "npc", so
    its English name is "Npc X", with the word "Npc"; and the id "a__b" has
    an empty segment, whose first code point does not exist. *)
Lemma default_translation_npc_word_counterexample :
  family_name npc_capital = []
  /\ (exists t,
        get_default_lang_data ascii_externals npc_capital = Ok t
        /\ cl_name t !! LANG_EN = Some (lit "Npc X")
        /\ In (lit "Npc") (words (lit "Npc X")))
  /\ family_name empty_segment = []
  /\ get_default_lang_data ascii_externals empty_segment = Raise IndexError.
Proof.
  split; [reflexivity|]. split.
  - eexists. split; [reflexivity|]. split; [reflexivity|].
    left; reflexivity.
  - split; reflexivity.
Qed.

(** C5: with a family name, the derived English name is the romanized
    family reading, a space and the romanized personal reading when the
    personal reading is there, and the romanized family reading, a space
    and the id when it is not. *)
Theorem default_translation_with_family_name (E : externals) (data : CharData) :
  family_name data <> [] ->
  exists t,
    get_default_lang_data E data = Ok t
    /\ (family_name_ruby data <> [] -> personal_name_ruby data <> [] ->
        cl_name t !! LANG_EN =
          Some (name_to_id E (family_name_ruby data) ++ [SPACE]
                  ++ name_to_id E (personal_name_ruby data)))
    /\ (personal_name_ruby data = [] ->
        cl_name t !! LANG_EN =
          Some (name_to_id E (family_name_ruby data) ++ [SPACE] ++ cd_id data)).
Proof.
  intros Hfam. unfold get_default_lang_data.
  destruct (family_name data) as [|c fam] eqn:Efam; [congruence|].
  simpl. eexists. split; [reflexivity|]. simpl. split.
  - intros _ Hp. destruct (personal_name_ruby data); [congruence | reflexivity].
  - intros ->. reflexivity.
Qed.

Lemma default_translation_with_family_name_witness :
  (exists t,
      get_default_lang_data ascii_externals with_rubies = Ok t
      /\ cl_name t !! LANG_EN = Some (lit "rikuhachima aru"))
  /\ (exists t,
      get_default_lang_data ascii_externals without_personal_ruby = Ok t
      /\ cl_name t !! LANG_EN = Some (lit "rikuhachima aru_swimsuit")).
Proof.
  split.
  - destruct (default_translation_with_family_name ascii_externals with_rubies)
      as (t & Ht & Hboth & _); [discriminate|].
    exists t. split; [exact Ht|]. apply Hboth; discriminate.
  - destruct (default_translation_with_family_name ascii_externals
                without_personal_ruby) as (t & Ht & _ & Hnone); [discriminate|].
    exists t. split; [exact Ht|]. apply Hnone. reflexivity.
Defined.

(** ** Sorting *)

Lemma leb_refl a : PyStr.leb a a = true.
Proof.
  induction a as [|x a IH]; simpl; [reflexivity|].
  rewrite N.eqb_refl, IH. apply orb_true_r.
Qed.

Lemma leb_total a b : PyStr.leb a b = false -> PyStr.leb b a = true.
Proof.
  revert b; induction a as [|x a IH]; intros [|y b]; simpl; try congruence.
  intros H. apply orb_false_elim in H as [Hlt H].
  apply N.ltb_ge in Hlt.
  destruct (N.eqb_spec x y) as [->|Hne].
  - rewrite N.eqb_refl. simpl in H. rewrite (IH _ H). apply orb_true_r.
  - assert ((y <? x) = true) as -> by (apply N.ltb_lt; lia). reflexivity.
Qed.

Lemma leb_trans a b c :
  PyStr.leb a b = true -> PyStr.leb b c = true -> PyStr.leb a c = true.
Proof.
  revert b c; induction a as [|x a IH]; intros [|y b] [|z c]; simpl;
    try congruence.
  intros H1 H2.
  apply orb_true_iff in H1 as [H1|H1]; apply orb_true_iff in H2 as [H2|H2];
    rewrite ?andb_true_iff, ?N.ltb_lt, ?N.eqb_eq in *.
  - apply orb_true_iff; left; apply N.ltb_lt; lia.
  - destruct H2 as [-> _]. apply orb_true_iff; left; apply N.ltb_lt; lia.
  - destruct H1 as [-> _]. apply orb_true_iff; left; apply N.ltb_lt; lia.
  - destruct H1 as [-> H1], H2 as [-> H2].
    rewrite N.eqb_refl, (IH _ _ H1 H2). apply orb_true_r.
Qed.

Lemma leb_antisym a b :
  PyStr.leb a b = true -> PyStr.leb b a = true -> a = b.
Proof.
  revert b; induction a as [|x a IH]; intros [|y b]; simpl; try congruence.
  intros H1 H2.
  apply orb_true_iff in H1 as [H1|H1]; apply orb_true_iff in H2 as [H2|H2];
    rewrite ?andb_true_iff, ?N.ltb_lt, ?N.eqb_eq in *; try lia.
  destruct H1 as [-> H1], H2 as [_ H2]. f_equal. apply IH; assumption.
Qed.

Lemma insert_by_Permutation {A} (key : A -> str) x l :
  Permutation (insert_by key x l) (x :: l).
Proof.
  induction l as [|y l IH]; simpl; [reflexivity|].
  destruct (PyStr.leb (key x) (key y)); [reflexivity|].
  rewrite IH. apply perm_swap.
Qed.

Lemma sorted_by_Permutation {A} (key : A -> str) l :
  Permutation (sorted_by key l) l.
Proof.
  induction l as [|x l IH]; simpl; [reflexivity|].
  rewrite insert_by_Permutation. constructor. exact IH.
Qed.

Lemma insert_by_HdRel {A} (key : A -> str) a x l :
  key_le key a x -> HdRel (key_le key) a l ->
  HdRel (key_le key) a (insert_by key x l).
Proof.
  intros Hax Hal. destruct l as [|y l]; simpl; [constructor; exact Hax|].
  destruct (PyStr.leb (key x) (key y)); constructor; [exact Hax|].
  inversion Hal; assumption.
Qed.

Lemma insert_by_Sorted {A} (key : A -> str) x l :
  Sorted (key_le key) l -> Sorted (key_le key) (insert_by key x l).
Proof.
  induction 1 as [|y l Hl IH Hy]; simpl; [repeat constructor|].
  destruct (PyStr.leb (key x) (key y)) eqn:Hxy.
  - constructor; [constructor; assumption | constructor; exact Hxy].
  - constructor; [exact IH|].
    apply insert_by_HdRel; [apply leb_total; exact Hxy | exact Hy].
Qed.

Lemma sorted_by_Sorted {A} (key : A -> str) l :
  Sorted (key_le key) (sorted_by key l).
Proof.
  induction l as [|x l IH]; simpl; [constructor|].
  apply insert_by_Sorted; exact IH.
Qed.

(** In the sorted list every element is followed by elements with keys
    that are not smaller. *)
Lemma sorted_by_StronglySorted {A} (key : A -> str) l :
  StronglySorted (key_le key) (sorted_by key l).
Proof.
  apply Sorted_StronglySorted; [|apply sorted_by_Sorted].
  intros x y z; unfold key_le; apply leb_trans.
Qed.


(** ** [get_filters] *)

Lemma map_result_Forall2 {A B} (f : A -> result B) (R : A -> B -> Prop) l :
  (forall x, In x l -> exists y, f x = Ok y /\ R x y) ->
  exists ys, map_result f l = Ok ys /\ Forall2 R l ys.
Proof.
  induction l as [|x l IH]; intros H; simpl.
  - exists []. split; [reflexivity | constructor].
  - destruct (H x (in_eq _ _)) as (y & Hy & Hxy).
    destruct IH as (ys & Hys & Hall); [intros; apply H; right; assumption|].
    rewrite Hy; simpl. rewrite Hys; simpl.
    exists (y :: ys). split; [reflexivity | constructor; assumption].
Qed.








(** ** Merging translations *)

Lemma default_trans_shape E data t :
  get_default_lang_data E data = Ok t ->
  cl_id t = cd_id data /\ cl_short_name t = None
  /\ exists ja en ko, cl_name t = default_names ja en ko.
Proof.
  unfold get_default_lang_data. intros H. inv_bind H.
  destruct a as [[ja en] ko]. injection H as <-. simpl. eauto 6.
Qed.

Lemma default_names_lookup ja en ko :
  default_names ja en ko !! LANG_JA = Some ja
  /\ default_names ja en ko !! LANG_EN = Some en.
Proof. split; reflexivity. Qed.

(** ** Short names *)

Lemma conf_dict_Ok d d' : conf_dict d = Ok d' <-> d' = d /\ all_plain d.
Proof.
  unfold conf_dict, all_plain.
  case_bool_decide as Hi; [case_bool_decide as Hm|].
  - split; [intros [= <-]; split; [reflexivity|] | intros [-> _]; reflexivity].
    intros k v Hk. split; [apply (Hm k v Hk) | apply index_None, (Hi k v Hk)].
  - split; [discriminate|]. intros [_ H]. exfalso. apply Hm.
    intros k v Hk. apply (H k v Hk).
  - split; [discriminate|]. intros [_ H]. exfalso. apply Hi.
    intros k v Hk. apply index_None. apply (H k v Hk).
Qed.



Lemma readable_conf_getitem name lang :
  readable name lang <-> exists v, conf_getitem name lang = Ok v.
Proof.
  split; intros [v H]; exists v; apply conf_getitem_Ok; exact H.
Qed.

Lemma short_name_step_total (name short_name : gmap str str) lang :
  (lacks_short_name short_name lang -> readable name lang) ->
  exists short_name',
    short_name_step name short_name lang = Ok short_name'
    /\ short_name' !! lang = resolved_short_name name short_name lang
    /\ (forall k, k <> lang -> short_name' !! k = short_name !! k).
Proof.
  intros Hneed. unfold lacks_short_name in Hneed.
  unfold short_name_step, resolved_short_name.
  destruct (short_name !! lang) as [[|c s]|] eqn:Hs; simpl.
  - destruct Hneed as (v & Hv & Hp); [auto|].
    rewrite (conf_getitem_plain _ _ _ Hv Hp), Hv. simpl.
    eexists. split; [reflexivity|]. split; [apply lookup_insert_eq|].
    intros k Hk. apply lookup_insert_ne; congruence.
  - exists short_name. auto.
  - destruct Hneed as (v & Hv & Hp); [auto|].
    rewrite (conf_getitem_plain _ _ _ Hv Hp), Hv. simpl.
    eexists. split; [reflexivity|]. split; [apply lookup_insert_eq|].
    intros k Hk. apply lookup_insert_ne; congruence.
Qed.

(** Resolving a language a second time changes nothing. *)
Lemma resolved_short_name_idem (name short_name short_name' : gmap str str) lang :
  short_name' !! lang = resolved_short_name name short_name lang ->
  resolved_short_name name short_name' lang
  = resolved_short_name name short_name lang.
Proof.
  unfold resolved_short_name. intros ->.
  destruct (short_name !! lang) as [[|c s]|]; try reflexivity;
    destruct (name !! lang) as [v|]; simpl; try reflexivity;
    destruct (last_space_piece v); reflexivity.
Qed.

(** A pass over a language leaves the other languages as they lack or
    have a short name. *)
Lemma short_name_step_lacks (name short_name short_name' : gmap str str) l lang :
  short_name_step name short_name l = Ok short_name' ->
  lang <> l ->
  short_name' !! lang = short_name !! lang.
Proof.
  unfold short_name_step. intros H Hne.
  destruct (short_name !! l) as [s|]; [destruct (length s =? 0)%nat|].
  - inv_bind H. injection H as <-. apply lookup_insert_ne. congruence.
  - injection H as <-. reflexivity.
  - inv_bind H. injection H as <-. apply lookup_insert_ne. congruence.
Qed.

Lemma short_name_step_Ok (name short_name short_name' : gmap str str) lang :
  short_name_step name short_name lang = Ok short_name' ->
  lacks_short_name short_name lang -> readable name lang.
Proof.
  unfold short_name_step, lacks_short_name. intros H [Hs|Hs]; rewrite Hs in H;
    simpl in H; inv_bind H; apply conf_getitem_Ok in Ha; exists a; exact Ha.
Qed.


Lemma short_name_loop_total (name : gmap str str) (langs : list str)
  (short_name : gmap str str) :
  (forall l, In l langs -> lacks_short_name short_name l -> readable name l) ->
  exists short_name',
    for_each (short_name_step name) langs short_name = Ok short_name'
    /\ (forall k, In k langs ->
          short_name' !! k = resolved_short_name name short_name k)
    /\ (forall k, ~ In k langs -> short_name' !! k = short_name !! k).
Proof.
  revert short_name; induction langs as [|l langs IH]; intros sn Hall; simpl.
  - exists sn. split; [reflexivity|]. split; [intros k []| reflexivity].
  - destruct (short_name_step_total name sn l (Hall l (in_eq _ _)))
      as (sn1 & Hstep & Hl & Hother).
    rewrite Hstep. simpl.
    destruct (IH sn1) as (sn' & Hrun & Hin & Hout).
    { intros k Hk Hlack. destruct (decide (k = l)) as [->|Hne].
      - unfold lacks_short_name in Hlack. rewrite Hl in Hlack.
        unfold resolved_short_name in Hlack.
        destruct (sn !! l) as [[|c s]|] eqn:Hs.
        + apply (Hall l (in_eq _ _)). right. exact Hs.
        + destruct Hlack; discriminate.
        + apply (Hall l (in_eq _ _)). left. exact Hs.
      - apply (Hall k (in_cons _ _ _ Hk)).
        unfold lacks_short_name in *. rewrite <- (Hother k Hne). exact Hlack. }
    exists sn'. split; [exact Hrun|]. split.
    + intros k Hk.
      destruct (decide (k = l)) as [->|Hne].
      * destruct (in_dec (fun a b : str => decide (a = b)) l langs) as [Hl'|Hl'].
        -- rewrite (Hin l Hl'). apply resolved_short_name_idem. exact Hl.
        -- rewrite (Hout l Hl'). exact Hl.
      * destruct Hk as [->|Hk]; [congruence|].
        rewrite (Hin k Hk). unfold resolved_short_name.
        rewrite (Hother k Hne). reflexivity.
    + intros k Hk. rewrite Hout by (intros H; apply Hk; right; exact H).
      apply Hother. intros ->. apply Hk; left; reflexivity.
Qed.


(** When the loop goes through, every language that lacked a short name
    had a display name to read. *)
Lemma short_name_loop_Ok (name : gmap str str) (langs : list str)
  (short_name short_name' : gmap str str) :
  for_each (short_name_step name) langs short_name = Ok short_name' ->
  forall l, In l langs -> lacks_short_name short_name l -> readable name l.
Proof.
  revert short_name; induction langs as [|l0 langs IH]; intros sn H l Hl Hlack;
    simpl in H; [destruct Hl|].
  inv_bind H. rename a into sn1.
  destruct (decide (l = l0)) as [->|Hne].
  - apply (short_name_step_Ok _ _ _ _ Ha Hlack).
  - destruct Hl as [?|Hl]; [congruence|].
    apply (IH sn1 H l Hl).
    unfold lacks_short_name in *.
    rewrite (short_name_step_lacks _ _ _ _ _ Ha Hne). exact Hlack.
Qed.

Lemma resolve_short_names_Ok E trans short_name :
  resolve_short_names E trans = Ok short_name ->
  all_plain (default ∅ (cl_short_name trans))
  /\ for_each (short_name_step (cl_name trans)) (all_langs E)
       (default ∅ (cl_short_name trans)) = Ok short_name.
Proof.
  unfold resolve_short_names. intros H. inv_bind H.
  destruct (cl_short_name trans) as [explicit|]; simpl.
  - apply conf_dict_Ok in Ha as [-> Hp]. auto.
  - injection Ha as <-. split; [|exact H]. intros k v Hk.
    rewrite lookup_empty in Hk. discriminate.
Qed.

Lemma resolve_short_names_plain E trans :
  all_plain (default ∅ (cl_short_name trans)) ->
  resolve_short_names E trans
  = for_each (short_name_step (cl_name trans)) (all_langs E)
      (default ∅ (cl_short_name trans)).
Proof.
  intros Hp. unfold resolve_short_names.
  destruct (cl_short_name trans) as [explicit|]; simpl; [|reflexivity].
  simpl in Hp.
  rewrite (proj2 (conf_dict_Ok explicit explicit) (conj eq_refl Hp)).
  reflexivity.
Qed.

(** C6 (as amended): when the explicit short names can be read as they
    stand, and every required language that has no explicit short name,
    or an empty one, has a display name that can be read as it stands
    (it is not "???" and holds no "${"), the short names are resolved,
    and for such a language the short name is the last piece of the
    display name between spaces (U+0020); an empty piece after a final
    space counts, and no other white space separates. *)
Theorem short_name_is_last_space_piece (E : externals) (trans : CharLangData)
  (lang v : str) :
  all_plain (default ∅ (cl_short_name trans)) ->
  (forall l, In l (all_langs E) ->
     lacks_short_name (default ∅ (cl_short_name trans)) l ->
     readable (cl_name trans) l) ->
  In lang (all_langs E) ->
  cl_name trans !! lang = Some v ->
  lacks_short_name (default ∅ (cl_short_name trans)) lang ->
  exists short_name,
    resolve_short_names E trans = Ok short_name
    /\ short_name !! lang = Some (PyStr.last_piece (PyStr.split SPACE v)).
Proof.
  intros Hplain Hall Hlang Hv Hshort.
  destruct (short_name_loop_total (cl_name trans) (all_langs E)
              (default ∅ (cl_short_name trans)) Hall) as (sn & Hrun & Hin & _).
  exists sn. split; [rewrite (resolve_short_names_plain _ _ Hplain); exact Hrun|].
  rewrite (Hin lang Hlang). unfold resolved_short_name.
  destruct Hshort as [-> | ->]; rewrite Hv; reflexivity.
Qed.

Lemma short_name_is_last_space_piece_witness :
  exists short_name,
    resolve_short_names ascii_externals alice_smith = Ok short_name
    /\ short_name !! LANG_EN = Some (lit "Smith").
Proof.
  apply (short_name_is_last_space_piece ascii_externals alice_smith LANG_EN
           (lit "Alice Smith")).
  - intros k w Hk. simpl in Hk. rewrite lookup_empty in Hk. discriminate.
  - intros l Hl _; simpl in Hl.
    repeat (destruct Hl as [<-|Hl];
            [eexists; split;
             [reflexivity | apply conf_value_Ok_plain; reflexivity]|]).
    contradiction.
  - right; left; reflexivity.
  - reflexivity.
  - left; reflexivity.
Defined.

(** C6 as stated fails: line 105 splits at spaces only.  A name whose
    parts are separated by a tab is its own short name, and a name that
    ends with a space has the empty short name, while the last token
    between white space is "Smith" in both.  And where a display name is
    "???" no short name is derived at all: reading the name raises. *)
Lemma short_name_whitespace_counterexample :
  cl_short_name alice_tab_smith = None
  /\ (exists short_name,
        resolve_short_names ascii_externals alice_tab_smith = Ok short_name
        /\ short_name !! LANG_EN = Some (lit "Alice" ++ [TAB] ++ lit "Smith"))
  /\ spec_last_whitespace_token (lit "Alice" ++ [TAB] ++ lit "Smith")
     = lit "Smith"
  /\ (exists short_name,
        resolve_short_names ascii_externals alice_smith_space = Ok short_name
        /\ short_name !! LANG_EN = Some [])
  /\ spec_last_whitespace_token (lit "Alice Smith ") = lit "Smith"
  /\ (forall l, In l (all_langs ascii_externals) ->
                is_Some (cl_name alice_missing_ja !! l))
  /\ resolve_short_names ascii_externals alice_missing_ja
     = Raise MissingMandatoryValue.
Proof.
  split; [reflexivity|]. split.
  { eexists. split; reflexivity. }
  split; [reflexivity|]. split.
  { eexists. split; reflexivity. }
  split; [reflexivity|]. split; [|reflexivity].
  intros l Hl. simpl in Hl.
  repeat (destruct Hl as [<-|Hl]; [vm_compute; eauto|]). contradiction.
Qed.

(** ** The loop over the image references *)

Lemma raises_bind_l {A B} (r : result A) (k : A -> result B) :
  raises r -> raises (r ≫= k).
Proof. intros [e ->]. exists e. reflexivity. Qed.

Lemma raises_bind_r {A B} (r : result A) (k : A -> result B) :
  (forall a, r = Ok a -> raises (k a)) -> raises (r ≫= k).
Proof.
  intros H. destruct r as [a|e]; [apply H; reflexivity | exists e; reflexivity].
Qed.

Lemma Ok_or_raises {A} (r : result A) : (exists a, r = Ok a) \/ raises r.
Proof. destruct r as [a|e]; [left | right]; eauto. unfold raises; eauto. Qed.

Lemma for_each_raises {A S} (body : S -> A -> result S) l x s :
  In x l -> (forall s1, raises (body s1 x)) -> raises (for_each body l s).
Proof.
  intros Hx Hbody. apply List.in_split in Hx as (l1 & l2 & ->).
  apply for_each_Raise. intros s1 _. apply Hbody.
Qed.

(** What a successful pass over one image reference did. *)
Lemma image_step_Ok E X M D st img st' :
  image_step E X M D st img = Ok st' ->
  ((basename img ∈ X) /\ st' = st)
  \/ ((basename img ∉ X)
      /\ exists n,
          canonical_name M (basename img) = Ok n
          /\ n <> []
          /\ is_avatar_files st !! n = None
          /\ D (img_file E img) = true
          /\ is_images st' = is_images st ++ [n]
          /\ is_avatar_files st' = <[n := img_file E img]> (is_avatar_files st)).
Proof.
  unfold image_step, basename. intros H.
  destruct (bool_decide (PyStr.last_piece (PyStr.split SLASH img) ∈ X)) eqn:HX.
  - apply bool_decide_eq_true in HX. left. split; [exact HX | congruence].
  - apply bool_decide_eq_false in HX. right. split; [exact HX|].
    inv_bind H. exists a. split; [exact Ha|].
    inv_bind H. apply assert_Ok in Ha0.
    inv_bind H. apply assert_Ok in Ha1.
    inv_bind H. apply assert_Ok in Ha2.
    injection H as <-. simpl.
    split; [destruct a; [discriminate | discriminate]|].
    split; [|auto].
    apply negb_true_iff, bool_decide_eq_false in Ha1.
    apply eq_None_not_Some. exact Ha1.
Qed.

Lemma image_loop_Ok E X M D imgs st st' :
  for_each (image_step E X M D) imgs st = Ok st' ->
  (forall n, is_Some (is_avatar_files st !! n) ->
             is_Some (is_avatar_files st' !! n))
  /\ (forall img n,
        In img imgs -> basename img ∉ X ->
        canonical_name M (basename img) = Ok n ->
        n <> [] /\ D (img_file E img) = true
        /\ is_avatar_files st !! n = None
        /\ is_Some (is_avatar_files st' !! n)).
Proof.
  revert st; induction imgs as [|img0 imgs IH]; intros st H; simpl in H.
  - injection H as <-. split; [auto | intros ? ? []].
  - inv_bind H. rename a into st1.
    destruct (IH _ H) as [Hmono Hall].
    assert (Hmono1 : forall n, is_Some (is_avatar_files st !! n) ->
                               is_Some (is_avatar_files st1 !! n)).
    { intros n Hn.
      destruct (image_step_Ok _ _ _ _ _ _ _ Ha)
        as [[_ ->]|(_ & m & _ & _ & _ & _ & _ & ->)]; [exact Hn|].
      rewrite lookup_insert. destruct (decide (m = n)); [eauto | exact Hn]. }
    split; [auto|].
    intros img n [<-|Hin] Hx Hn.
    + destruct (image_step_Ok _ _ _ _ _ _ _ Ha)
        as [[Hx' _]|(_ & m & Hm & Hne & Hfresh & Hdisk & _ & Hav)];
        [contradiction|].
      assert (m = n) as -> by congruence.
      repeat split; try assumption.
      apply Hmono. rewrite Hav, lookup_insert_eq. eauto.
    + destruct (Hall img n Hin Hx Hn) as (Hne & Hdisk & Hfresh & Hsome).
      repeat split; try assumption.
      destruct (is_avatar_files st !! n) eqn:Hst; [|reflexivity].
      destruct (Hmono1 n (ex_intro _ _ Hst)) as [? Hc]. congruence.
Qed.

(** ** The loop over the characters *)

Lemma same_but_names_refl c : same_but_names c c.
Proof. repeat split. Qed.

Lemma Forall2_same_refl (chars : list Character) :
  Forall2 same_but_names chars chars.
Proof. induction chars; constructor; [apply same_but_names_refl | assumption]. Qed.

(** What lines 92-93 show in the characters built before. *)
Lemma refresh_holders_Ok dt holders i chars chars' :
  refresh_holders dt holders i chars = Ok chars' ->
  Forall2 same_but_names chars chars'
  /\ forall j c, chars !! j = Some c ->
       exists c', chars' !! j = Some c'
         /\ if bool_decide ((i + j)%nat ∈ holders)
            then exists name, overwrite_names dt (ch_names c) = Ok name
                              /\ c' = with_names c name
            else c' = c.
Proof.
  revert i chars'; induction chars as [|c rest IH]; intros i chars' H;
    simpl in H.
  - injection H as <-. split; [constructor|]. intros j c Hj.
    rewrite lookup_nil in Hj. discriminate.
  - inv_bind H. rename a into c'. inv_bind H. rename a into rest'.
    injection H as <-. destruct (IH _ _ Ha0) as [Hall Hpos]. split.
    + constructor; [|exact Hall].
      case_bool_decide; [inv_bind Ha|]; injection Ha as <-; repeat split.
    + intros [|j] c0 Hj; simpl in Hj.
      * injection Hj as <-. exists c'. split; [reflexivity|].
        rewrite Nat.add_0_r.
        case_bool_decide; [inv_bind Ha; injection Ha as <-; eauto|].
        injection Ha as <-. reflexivity.
      * destruct (Hpos j c0 Hj) as (c0' & Hc0' & Hcase).
        exists c0'. split; [exact Hc0'|].
        replace (i + S j)%nat with (S i + j)%nat by lia. exact Hcase.
Qed.


Lemma earlier_same dt (b : bool) holders chars earlier :
  (if b then refresh_holders dt holders 0 chars else Ok chars) = Ok earlier ->
  Forall2 same_but_names chars earlier.
Proof.
  destruct b.
  - intros H. apply (refresh_holders_Ok _ _ _ _ _ H).
  - intros [= <-]. apply Forall2_same_refl.
Qed.

Lemma Forall2_same_length (chars chars' : list Character) :
  Forall2 same_but_names chars chars' -> length chars' = length chars.
Proof. induction 1; simpl; congruence. Qed.


Lemma Forall2_same_images (chars chars' : list Character) :
  Forall2 same_but_names chars chars' ->
  List.map ch_images chars' = List.map ch_images chars.
Proof.
  induction 1 as [|c c' l l' (_ & _ & _ & _ & Himg) _ IH]; simpl; [reflexivity|].
  rewrite Himg, IH. reflexivity.
Qed.

Lemma char_step_Ok E inp s data s' :
  char_step E inp s data = Ok s' ->
  exists default_trans translations' trans ev short_name imgs earlier,
    get_default_lang_data E data = Ok default_trans
    /\ merge_translation E (translations s) (cd_id data) default_trans
       = Ok (translations', trans, ev)
    /\ resolve_short_names E trans = Ok short_name
    /\ for_each (image_step E (excluded_portraits inp) (image_mappings inp)
                   (disk inp)) (image_files data) (images_start s) = Ok imgs
    /\ (if refreshed ev
        then refresh_holders default_trans
               (default [] (name_holders s !! cd_id data)) 0 (result_chars s)
        else Ok (result_chars s)) = Ok earlier
    /\ let char := character_of inp (cd_id data) trans short_name (is_images imgs) in
       s' = {| translations := translations';
               result_chars := earlier ++ [char];
               name_holders :=
                 <[cd_id data :=
                     (if replaced ev then []
                      else default [] (name_holders s !! cd_id data))
                     ++ [length (result_chars s)]]> (name_holders s);
               avatar_files := is_avatar_files imgs;
               image_config := is_image_config imgs;
               updated_translations := updated_translations s || event_dirty ev;
               chars_without_school :=
                 if (length (groups_of (cd_id data) (school_data inp)) =? 0)%nat
                 then chars_without_school s ++ [length (result_chars s)]
                 else chars_without_school s;
               chars_without_club :=
                 if (length (groups_of (cd_id data) (club_data inp)) =? 0)%nat
                 then chars_without_club s ++ [length (result_chars s)]
                 else chars_without_club s |}.
Proof.
  unfold char_step. intros H.
  inv_bind H. rename a into default_trans.
  inv_bind H. destruct a as [[translations' trans] ev].
  inv_bind H. rename a into earlier.
  inv_bind H. rename a into short_name.
  inv_bind H. rename a into imgs.
  injection H as <-.
  exists default_trans, translations', trans, ev, short_name, imgs, earlier.
  repeat split; assumption.
Qed.

Lemma char_step_images E inp s data s' :
  char_step E inp s data = Ok s' ->
  (forall n, is_Some (avatar_files s !! n) -> is_Some (avatar_files s' !! n))
  /\ (forall img n,
        In img (image_files data) -> resolves_to inp img n ->
        n <> [] /\ disk inp (img_file E img) = true
        /\ avatar_files s !! n = None
        /\ is_Some (avatar_files s' !! n)).
Proof.
  intros H. apply char_step_Ok in H
    as (dt & T' & trans & ev & sn & imgs & earlier & _ & _ & _ & Himgs & _ & ->).
  apply image_loop_Ok in Himgs as [Hmono Hall]. simpl in *.
  split; [exact Hmono|].
  intros img n Hin [Hx Hn]. apply (Hall img n Hin Hx Hn).
Qed.

Lemma loop_avatar_mono E inp ds s s' n :
  for_each (char_step E inp) ds s = Ok s' ->
  is_Some (avatar_files s !! n) -> is_Some (avatar_files s' !! n).
Proof.
  intros Hrun Hn.
  apply (for_each_invariant (char_step E inp)
           (fun s => is_Some (avatar_files s !! n)) ds) with (s := s);
    [|exact Hn | exact Hrun].
  intros s0 d s1 _ Hs0 Hstep. apply (char_step_images _ _ _ _ _ Hstep), Hs0.
Qed.

Lemma get_chars_aborted E inp :
  raises (get_chars_loop E inp) -> aborted (get_chars E inp).
Proof.
  intros [e He]. unfold get_chars. rewrite He. simpl.
  repeat split. exists e. reflexivity.
Qed.

(** A successful loop has passed every character. *)
Lemma loop_reaches E inp pre d post s' :
  for_each (char_step E inp) (pre ++ d :: post) (initial_state inp) = Ok s' ->
  exists s0 s1,
    for_each (char_step E inp) pre (initial_state inp) = Ok s0
    /\ char_step E inp s0 d = Ok s1
    /\ for_each (char_step E inp) post s1 = Ok s'.
Proof.
  rewrite for_each_app. intros H. inv_bind H. simpl in H. inv_bind H. eauto.
Qed.

(** The second of two equal canonical names stops the run where it would
    be assigned. *)
Lemma image_step_duplicate E inp st img n :
  resolves_to inp img n -> n <> [] ->
  is_Some (is_avatar_files st !! n) ->
  image_step E (excluded_portraits inp) (image_mappings inp) (disk inp) st img
  = Raise (AssertionError (NameNotDuplicate n)).
Proof.
  intros [Hx Hn] Hne Hsome. unfold image_step. fold (basename img).
  rewrite (bool_decide_eq_false_2 _ Hx), Hn. simpl.
  destruct n as [|c n]; [congruence|]. simpl.
  rewrite (bool_decide_eq_true_2 _ Hsome). reflexivity.
Qed.

(** C1: when two image references of two characters have the same
    canonical name, or a reference has the empty canonical name, or the
    file of a reference is not on disk, the run ends with an exception
    inside the loop: nothing is returned and neither the translation
    store nor a report is written. *)
Theorem fatal_image_data_aborts (E : externals) (inp : inputs) :
  fatal_image_data E inp -> aborted (get_chars E inp).
Proof.
  intros Hfatal. apply get_chars_aborted.
  destruct (Ok_or_raises (get_chars_loop E inp)) as [[sF Hrun]|Hr]; [|exact Hr].
  exfalso. unfold get_chars_loop in Hrun.
  destruct Hfatal as [pre d1 mid d2 post img1 img2 n Hdata Hin1 Hin2 Hr1 Hr2
                     |d img Hd Hin Hr
                     |d img n Hd Hin Hr Hdisk].
  - rewrite Hdata in Hrun.
    apply loop_reaches in Hrun as (s0 & s1 & _ & Hstep1 & Hrest).
    rewrite for_each_app in Hrest. inv_bind Hrest. rename a into s2.
    simpl in Hrest. inv_bind Hrest. rename a into s3.
    destruct (proj2 (char_step_images _ _ _ _ _ Hstep1) img1 n Hin1 Hr1)
      as (_ & _ & _ & Hsome).
    destruct (proj2 (char_step_images _ _ _ _ _ Ha0) img2 n Hin2 Hr2)
      as (_ & _ & Hfresh & _).
    apply (loop_avatar_mono _ _ _ _ _ _ Ha) in Hsome.
    rewrite Hfresh in Hsome. destruct Hsome; discriminate.
  - apply List.in_split in Hd as (pre & post & Hdata). rewrite Hdata in Hrun.
    apply loop_reaches in Hrun as (s0 & s1 & _ & Hstep & _).
    destruct (proj2 (char_step_images _ _ _ _ _ Hstep) img [] Hin Hr)
      as (Hne & _). congruence.
  - apply List.in_split in Hd as (pre & post & Hdata). rewrite Hdata in Hrun.
    apply loop_reaches in Hrun as (s0 & s1 & _ & Hstep & _).
    destruct (proj2 (char_step_images _ _ _ _ _ Hstep) img n Hin Hr)
      as (_ & Hok & _). congruence.
Qed.

Lemma fatal_image_data_aborts_witness : aborted (get_chars ascii_externals two_defaults).
Proof.
  apply fatal_image_data_aborts.
  apply (Name_collision ascii_externals two_defaults []
           (char_of "hina" "" "Hina" "" "" ["Student/Hina/Portrait_Default"%string])
           []
           (char_of "iori" "" "Iori" "" "" ["Student/Iori/Portrait_Default"%string])
           []
           (lit "Student/Hina/Portrait_Default")
           (lit "Student/Iori/Portrait_Default")
           (lit "Default")).
  - reflexivity.
  - left; reflexivity.
  - left; reflexivity.
  - split; [apply not_elem_of_empty | reflexivity].
  - split; [apply not_elem_of_empty | reflexivity].
Defined.

Lemma char_step_raises_at_image E inp data img :
  In img (image_files data) ->
  (forall st, raises (image_step E (excluded_portraits inp) (image_mappings inp)
                        (disk inp) st img)) ->
  forall s, raises (char_step E inp s data).
Proof.
  intros Hin Himg s. unfold char_step.
  apply raises_bind_r. intros default_trans _.
  apply raises_bind_r. intros [[translations' trans] ev] _.
  apply raises_bind_r. intros earlier _.
  apply raises_bind_r. intros short_name _.
  apply raises_bind_l.
  apply for_each_raises with (x := img); assumption.
Qed.

(** C9: an image reference whose basename is not excluded, is not a key of
    the legacy mapping and has no "Portrait_" in it makes line 124 raise
    [ValueError] whatever was collected before, and the run ends with an
    exception inside the loop. *)
Theorem missing_marker_raises_ValueError (E : externals) (inp : inputs)
  (data : CharData) (img : str) :
  In data (char_data inp) ->
  In img (image_files data) ->
  basename img ∉ excluded_portraits inp ->
  image_mappings inp !! basename img = None ->
  ~ occurs PORTRAIT_ (basename img) ->
  (forall st,
      image_step E (excluded_portraits inp) (image_mappings inp) (disk inp) st img
      = Raise ValueError)
  /\ aborted (get_chars E inp).
Proof.
  intros Hdata Himg Hx Hmap Hocc.
  assert (Hstep : forall st,
             image_step E (excluded_portraits inp) (image_mappings inp)
               (disk inp) st img = Raise ValueError).
  { intros st. unfold image_step. fold (basename img).
    rewrite (bool_decide_eq_false_2 _ Hx).
    rewrite (proj2 (canonical_name_ValueError _ _) (conj Hmap Hocc)).
    reflexivity. }
  split; [exact Hstep|].
  apply get_chars_aborted. unfold get_chars_loop.
  apply for_each_raises with (x := data); [exact Hdata|].
  apply char_step_raises_at_image with (img := img); [exact Himg|].
  intros st. exists ValueError. apply Hstep.
Qed.

Lemma missing_marker_raises_ValueError_witness :
  returned (get_chars ascii_externals no_marker) = Raise ValueError
  /\ aborted (get_chars ascii_externals no_marker).
Proof.
  split; [reflexivity|].
  apply (missing_marker_raises_ValueError ascii_externals no_marker
           (char_of "hina" "" "Hina" "" "" ["Student/Hina/Icon_Hina"%string])
           (lit "Student/Hina/Icon_Hina")).
  - left; reflexivity.
  - left; reflexivity.
  - apply not_elem_of_empty.
  - reflexivity.
  - apply index_None. reflexivity.
Defined.

(** ** Backfilling *)

Lemma backfill_loop (default_trans : CharLangData) (langs : list str)
  (name : gmap str str) (changed : bool) name' changed' :
  for_each (backfill_step default_trans) langs (name, changed)
  = Ok (name', changed') ->
  (forall k v, name !! k = Some v -> name' !! k = Some v)
  /\ (forall l, In l langs -> is_Some (name' !! l))
  /\ ((name' = name /\ changed' = changed
       /\ forall l, In l langs -> is_Some (name !! l))
      \/ (changed' = true
          /\ exists l, In l langs /\ name !! l = None /\ is_Some (name' !! l))).
Proof.
  revert name changed; induction langs as [|l langs IH];
    intros name changed H; simpl in H.
  - injection H as <- <-. split; [auto|]. split; [intros ? []|].
    left. repeat split. intros ? [].
  - inv_bind H. destruct a as [name1 changed1].
    destruct (IH _ _ H) as (Hkeep & Hall & Hch). clear IH.
    unfold backfill_step in Ha. simpl in Ha.
    destruct (name !! l) as [v|] eqn:Hl.
    + injection Ha as <- <-.
      split; [exact Hkeep|]. split.
      * intros k [<-|Hk]; [rewrite (Hkeep _ _ Hl); eauto | apply Hall, Hk].
      * destruct Hch as [(-> & -> & Hpres)|(-> & k & Hk & Hnone & Hsome)].
        -- left. repeat split. intros k [<-|Hk]; [eauto | apply Hpres, Hk].
        -- right. split; [reflexivity|]. exists k. split; [right; exact Hk|].
           split; assumption.
    + inv_bind Ha. injection Ha as <- <-.
      assert (Hnew : name' !! l = Some a).
      { apply Hkeep. apply lookup_insert_eq. }
      split.
      * intros k v Hk. apply Hkeep. rewrite lookup_insert_ne; [exact Hk|].
        intros <-. congruence.
      * split.
        -- intros k [<-|Hk]; [eauto | apply Hall, Hk].
        -- right. split.
           ++ destruct Hch as [(_ & -> & _)|(-> & _)]; reflexivity.
           ++ exists l. split; [left; reflexivity|]. split; [exact Hl | eauto].
Qed.

Lemma backfill_names_Ok E default_trans trans trans' backfilled :
  backfill_names E default_trans trans = Ok (trans', backfilled) ->
  cl_id trans' = cl_id trans
  /\ cl_short_name trans' = cl_short_name trans
  /\ (forall k v, cl_name trans !! k = Some v -> cl_name trans' !! k = Some v)
  /\ (forall l, In l (all_langs E) -> is_Some (cl_name trans' !! l))
  /\ ((trans' = trans /\ backfilled = false
       /\ forall l, In l (all_langs E) -> is_Some (cl_name trans !! l))
      \/ (backfilled = true
          /\ exists l, cl_name trans !! l = None /\ is_Some (cl_name trans' !! l))).
Proof.
  unfold backfill_names. intros H. inv_bind H. destruct a as [name changed].
  injection H as <- <-. simpl.
  destruct (backfill_loop _ _ _ _ _ _ Ha) as (Hkeep & Hall & Hch).
  repeat split; try assumption.
  destruct Hch as [(-> & -> & Hpres)|(-> & l & _ & Hnone & Hsome)].
  - left. split; [destruct trans; reflexivity|]. split; [reflexivity | exact Hpres].
  - right. split; [reflexivity|]. eauto.
Qed.

(** An entry that has every required language is left alone. *)
Lemma backfill_names_complete E default_trans trans :
  (forall l, In l (all_langs E) -> is_Some (cl_name trans !! l)) ->
  backfill_names E default_trans trans = Ok (trans, false).
Proof.
  intros Hall. unfold backfill_names.
  assert (H : forall langs name changed,
             (forall l, In l langs -> is_Some (name !! l)) ->
             for_each (backfill_step default_trans) langs (name, changed)
             = Ok (name, changed)).
  { induction langs as [|l langs IH]; intros name changed Hl; simpl;
      [reflexivity|].
    assert (backfill_step default_trans (name, changed) l
            = Ok (name, changed)) as ->.
    { unfold backfill_step. simpl.
      destruct (Hl l (in_eq _ _)) as [v ->]. reflexivity. }
    simpl. apply IH. intros; apply Hl; right; assumption. }
  rewrite (H _ _ _ Hall). simpl. destruct trans; reflexivity.
Qed.

Lemma overwrite_names_Ok dt name name' :
  overwrite_names dt name = Ok name'
  <-> exists dja den,
        cl_name dt !! LANG_JA = Some dja /\ plain dja
        /\ cl_name dt !! LANG_EN = Some den /\ plain den
        /\ name' = <[LANG_EN := den]> (<[LANG_JA := dja]> name).
Proof.
  unfold overwrite_names. simpl. split.
  - intros H. apply bind_Ok in H as (n1 & H1 & H).
    apply bind_Ok in H1 as (dja & Hdja & H1). injection H1 as <-.
    apply bind_Ok in H as (n2 & H2 & H).
    apply bind_Ok in H2 as (den & Hden & H2). injection H2 as <-.
    injection H as <-.
    apply conf_getitem_Ok in Hdja as [Hdja Hpj].
    apply conf_getitem_Ok in Hden as [Hden Hpe].
    exists dja, den. auto.
  - intros (dja & den & Hj & Hpj & He & Hpe & ->).
    rewrite (conf_getitem_plain _ _ _ Hj Hpj). simpl.
    rewrite (conf_getitem_plain _ _ _ He Hpe). reflexivity.
Qed.

Lemma refresh_names_Ok default_trans trans trans' refreshed :
  refresh_names default_trans trans = Ok (trans', refreshed) ->
  cl_id trans' = cl_id trans
  /\ cl_short_name trans' = cl_short_name trans
  /\ exists ja dja,
       cl_name trans !! LANG_JA = Some ja
       /\ cl_name default_trans !! LANG_JA = Some dja
       /\ ((refreshed = false /\ trans' = trans
            /\ (ja = dja \/ ja = SENTINEL_JA))
           \/ (refreshed = true /\ ja <> dja /\ ja <> SENTINEL_JA
               /\ cl_name trans' !! LANG_JA = Some dja
               /\ (forall k, is_Some (cl_name trans !! k) ->
                             is_Some (cl_name trans' !! k))
               /\ overwrite_names default_trans (cl_name trans)
                  = Ok (cl_name trans'))).
Proof.
  unfold refresh_names. intros H.
  inv_bind H. rename a into dja. apply conf_getitem_Ok in Ha as [Ha _].
  inv_bind H. rename a into ja. apply conf_getitem_Ok in Ha0 as [Ha0 _].
  destruct (PyStr.eqb ja dja) eqn:E1; simpl in H.
  { injection H as <- <-. apply eqb_str_true in E1.
    repeat split. exists ja, dja. auto 10. }
  destruct (PyStr.eqb ja SENTINEL_JA) eqn:E2; simpl in H.
  { injection H as <- <-. apply eqb_str_true in E2.
    repeat split. exists ja, dja. auto 10. }
  inv_bind H. rename a into name. injection H as <- <-. simpl.
  pose proof Ha1 as Hover.
  apply overwrite_names_Ok in Ha1 as (dja' & den & Hdja' & _ & Hden & _ & ->).
  assert (dja' = dja) as -> by congruence.
  apply eqb_str_false in E1, E2.
  repeat split. exists ja, dja. split; [exact Ha0|]. split; [exact Ha|].
  right. repeat split; try assumption.
  - rewrite lookup_insert_ne by discriminate. apply lookup_insert_eq.
  - intros k Hk. rewrite !lookup_insert.
    repeat (destruct (decide _); [eauto|]). exact Hk.
Qed.

(** What lines 88-94 read can be read. *)
Lemma refresh_names_reads default_trans trans trans' refreshed :
  refresh_names default_trans trans = Ok (trans', refreshed) ->
  readable (cl_name trans) LANG_JA
  /\ readable (cl_name default_trans) LANG_JA
  /\ readable (cl_name trans') LANG_JA.
Proof.
  unfold refresh_names. intros H.
  inv_bind H. rename a into dja. apply conf_getitem_Ok in Ha as [Ha Hpd].
  inv_bind H. rename a into ja. apply conf_getitem_Ok in Ha0 as [Ha0 Hpj].
  split; [exists ja; auto|]. split; [exists dja; auto|].
  destruct (negb (PyStr.eqb ja dja) && negb (PyStr.eqb ja SENTINEL_JA)).
  - inv_bind H. injection H as <- _. simpl.
    apply overwrite_names_Ok in Ha1 as (dja' & den & Hdja' & _ & _ & _ & ->).
    exists dja. split; [|exact Hpd].
    rewrite lookup_insert_ne by discriminate. rewrite lookup_insert_eq.
    congruence.
  - injection H as <- _. exists ja. auto.
Qed.

(** ** The translation table *)

Lemma odict_get_set_eq {V} k (v : V) d : ODict.get k (ODict.set k v d) = Some v.
Proof.
  induction d as [|[k' v'] d IH]; simpl.
  - destruct (decide (k = k)); congruence.
  - destruct (decide (k = k')) as [->|Hne]; simpl.
    + destruct (decide (k' = k')); congruence.
    + destruct (decide (k = k')); [contradiction | exact IH].
Qed.

Lemma odict_get_set_ne {V} k k' (v : V) d :
  k <> k' -> ODict.get k' (ODict.set k v d) = ODict.get k' d.
Proof.
  intros Hne. induction d as [|[k0 v0] d IH]; simpl.
  - destruct (decide (k' = k)); congruence.
  - destruct (decide (k = k0)) as [->|Hne0]; simpl.
    + destruct (decide (k' = k0)); congruence.
    + destruct (decide (k' = k0)); [reflexivity | exact IH].
Qed.

(** Storing what is stored changes nothing. *)
Lemma odict_set_same {V} k (v : V) d :
  ODict.get k d = Some v -> ODict.set k v d = d.
Proof.
  induction d as [|[k0 v0] d IH]; simpl; [discriminate|].
  destruct (decide (k = k0)) as [->|Hne]; [congruence|].
  intros H. rewrite (IH H). reflexivity.
Qed.

Lemma merge_translation_Ok E T cid default_trans T' trans ev :
  merge_translation E T cid default_trans = Ok (T', trans, ev) ->
  T' = ODict.set cid trans T
  /\ ((ODict.get cid T = None /\ trans = default_trans /\ ev = Adopted)
      \/ (exists old trans1 refreshed backfilled,
            ODict.get cid T = Some old
            /\ refresh_names default_trans old = Ok (trans1, refreshed)
            /\ backfill_names E default_trans trans1 = Ok (trans, backfilled)
            /\ ev = Merged refreshed backfilled)).
Proof.
  unfold merge_translation. destruct (ODict.get cid T) as [old|] eqn:Hget.
  - intros H. inv_bind H. destruct a as [trans1 refreshed].
    inv_bind H. destruct a as [trans2 backfilled].
    injection H as <- <- <-. split; [reflexivity|]. right.
    exists old, trans1, refreshed, backfilled. auto.
  - intros [= <- <- <-]. auto.
Qed.

(** After a pass that went through, the entry of the character has
    every required language, and a Japanese name that can be read when
    "ja" is required. *)
Lemma merge_translation_complete E data T default_trans T' trans ev short_name :
  get_default_lang_data E data = Ok default_trans ->
  merge_translation E T (cd_id data) default_trans = Ok (T', trans, ev) ->
  resolve_short_names E trans = Ok short_name ->
  (forall l, In l (all_langs E) -> is_Some (cl_name trans !! l))
  /\ (In LANG_JA (all_langs E) -> readable (cl_name trans) LANG_JA).
Proof.
  intros Hdt Hmerge Hshort.
  destruct (default_trans_shape _ _ _ Hdt) as (_ & Hnone & _).
  apply merge_translation_Ok in Hmerge
    as (_ & [(_ & -> & _)|(old & t1 & r & b & _ & Hr & Hb & _)]).
  - apply resolve_short_names_Ok in Hshort as [_ Hshort].
    rewrite Hnone in Hshort. simpl in Hshort.
    assert (Hread : forall l, In l (all_langs E) ->
                              readable (cl_name default_trans) l).
    { intros l Hl. apply (short_name_loop_Ok _ _ _ _ Hshort l Hl).
      left. apply lookup_empty. }
    split; [|intros Hja; apply Hread, Hja].
    intros l Hl. destruct (Hread l Hl) as (v & Hv & _). eauto.
  - apply backfill_names_Ok in Hb as (_ & _ & Hkeep & Hall & _).
    split; [exact Hall|]. intros _.
    apply refresh_names_reads in Hr as (_ & _ & ja & Hja & Hp).
    exists ja. split; [apply Hkeep, Hja | exact Hp].
Qed.

(** An entry that has every required language is not given another name
    mapping: it stays as it is, or lines 92-93 assign to its mapping. *)
Lemma merge_translation_existing E T cid default_trans T' trans ev old :
  ODict.get cid T = Some old ->
  (forall l, In l (all_langs E) -> is_Some (cl_name old !! l)) ->
  merge_translation E T cid default_trans = Ok (T', trans, ev) ->
  (ev = Merged false false /\ trans = old)
  \/ (ev = Merged true false
      /\ overwrite_names default_trans (cl_name old) = Ok (cl_name trans)).
Proof.
  intros Hget Hall Hmerge.
  apply merge_translation_Ok in Hmerge
    as (_ & [(Hnone & _)|(old' & t1 & r & b & Hget' & Hr & Hb & ->)]);
    [congruence|].
  assert (old' = old) as -> by congruence.
  apply refresh_names_Ok in Hr
    as (_ & _ & ja & dja & _ & _ & [(-> & -> & _)|(-> & _ & _ & _ & Hkeys & Hover)]).
  - rewrite (backfill_names_complete _ _ _ Hall) in Hb.
    injection Hb as <- <-. left. auto.
  - rewrite backfill_names_complete in Hb
      by (intros l Hl; apply Hkeys, Hall, Hl).
    injection Hb as <- <-. right. auto.
Qed.

(** The flag of lines 95-100 tells whether a required language was
    missing. *)
Lemma backfill_names_flag E default_trans trans trans' backfilled :
  backfill_names E default_trans trans = Ok (trans', backfilled) ->
  backfilled = true
  <-> exists l, In l (all_langs E) /\ cl_name trans !! l = None.
Proof.
  unfold backfill_names. intros H. inv_bind H. destruct a as [name changed].
  injection H as <- <-.
  destruct (backfill_loop _ _ _ _ _ _ Ha)
    as (_ & _ & [(_ & -> & Hpres)|(-> & l & Hl & Hnone & _)]).
  - split; [discriminate|]. intros (l & Hl & Hnone).
    destruct (Hpres l Hl) as [v Hv]. congruence.
  - split; [|reflexivity]. intros _. eauto.
Qed.

(** ** Refreshing a stored entry *)

Lemma refresh_names_stale default_trans trans ja dja den :
  cl_name trans !! LANG_JA = Some ja -> plain ja ->
  cl_name default_trans !! LANG_JA = Some dja -> plain dja ->
  cl_name default_trans !! LANG_EN = Some den -> plain den ->
  ja <> dja /\ ja <> SENTINEL_JA ->
  refresh_names default_trans trans = Ok (refreshed_entry trans dja den, true).
Proof.
  intros Hja Hpj Hdja Hpd Hden Hpe [H1 H2]. unfold refresh_names.
  rewrite (conf_getitem_plain _ _ _ Hdja Hpd). simpl.
  rewrite (conf_getitem_plain _ _ _ Hja Hpj). simpl.
  apply eqb_str_false in H1, H2. rewrite H1, H2. simpl.
  assert (overwrite_names default_trans (cl_name trans)
          = Ok (<[LANG_EN := den]> (<[LANG_JA := dja]> (cl_name trans)))) as ->.
  { apply overwrite_names_Ok. exists dja, den. auto. }
  reflexivity.
Qed.

Lemma refresh_names_fresh default_trans trans ja dja :
  cl_name trans !! LANG_JA = Some ja -> plain ja ->
  cl_name default_trans !! LANG_JA = Some dja -> plain dja ->
  ~ (ja <> dja /\ ja <> SENTINEL_JA) ->
  refresh_names default_trans trans = Ok (trans, false).
Proof.
  intros Hja Hpj Hdja Hpd Hnot. unfold refresh_names.
  rewrite (conf_getitem_plain _ _ _ Hdja Hpd). simpl.
  rewrite (conf_getitem_plain _ _ _ Hja Hpj). simpl.
  destruct (PyStr.eqb ja dja) eqn:E1; [reflexivity|].
  destruct (PyStr.eqb ja SENTINEL_JA) eqn:E2; [reflexivity|].
  apply eqb_str_false in E1, E2. tauto.
Qed.

(** A pass over a character that has an entry: what it stores is what
    lines 95-100 make of the entry that lines 88-94 left. *)
Lemma char_step_merged E inp s data s' default_trans trans trans1 r :
  get_default_lang_data E data = Ok default_trans ->
  ODict.get (cd_id data) (translations s) = Some trans ->
  refresh_names default_trans trans = Ok (trans1, r) ->
  char_step E inp s data = Ok s' ->
  exists trans' backfilled pre char,
    backfill_names E default_trans trans1 = Ok (trans', backfilled)
    /\ ODict.get (cd_id data) (translations s') = Some trans'
    /\ updated_translations s' = updated_translations s || (r || backfilled)
    /\ result_chars s' = pre ++ [char]
    /\ ch_names char = cl_name trans'.
Proof.
  intros Hdt Hget Hr H. apply char_step_Ok in H
    as (dt & T' & trans' & ev & sn & imgs & earlier & Hdt' & Hmerge & _ & _ & _ & ->).
  assert (dt = default_trans) as -> by congruence.
  apply merge_translation_Ok in Hmerge
    as (-> & [(Hnone & _)|(old & t1 & r' & b & Hget' & Hr' & Hb & ->)]);
    [congruence|].
  assert (old = trans) as -> by congruence.
  rewrite Hr in Hr'. injection Hr' as <- <-.
  exists trans', b, earlier, (character_of inp (cd_id data) trans' sn (is_images imgs)).
  split; [exact Hb|]. split; [apply odict_get_set_eq|].
  repeat split.
Qed.

(** C7: for a character that has an entry whose Japanese name can be read,
    and whose derived Japanese name can be read, lines 88-94 overwrite
    the Japanese and the English name of the entry with the derived ones
    exactly when the stored Japanese name differs from the derived one
    and is not the protected name.  Then the entry of the table has the
    derived Japanese and English names and its other names as before, the
    character of the pass has the names of that entry, and the table is
    reported as changed.  Otherwise every name of the entry stays, and
    the pass reports a change only where a required language was
    missing. *)
Theorem refresh_iff_stale_and_unprotected (E : externals) (inp : inputs)
  (s : loop_state) (data : CharData) (default_trans trans : CharLangData)
  (ja dja den : str) :
  get_default_lang_data E data = Ok default_trans ->
  ODict.get (cd_id data) (translations s) = Some trans ->
  cl_name trans !! LANG_JA = Some ja -> plain ja ->
  cl_name default_trans !! LANG_JA = Some dja -> plain dja ->
  cl_name default_trans !! LANG_EN = Some den ->
  (ja <> dja /\ ja <> SENTINEL_JA -> plain den ->
   refresh_names default_trans trans = Ok (refreshed_entry trans dja den, true)
   /\ ((forall l, In l (all_langs E) -> is_Some (cl_name trans !! l)) ->
       merge_translation E (translations s) (cd_id data) default_trans
       = Ok (ODict.set (cd_id data) (refreshed_entry trans dja den)
               (translations s),
             refreshed_entry trans dja den, Merged true false))
   /\ forall s',
        char_step E inp s data = Ok s' ->
        updated_translations s' = true
        /\ exists trans' pre char,
             ODict.get (cd_id data) (translations s') = Some trans'
             /\ cl_name trans' !! LANG_JA = Some dja
             /\ cl_name trans' !! LANG_EN = Some den
             /\ (forall k v, k <> LANG_JA -> k <> LANG_EN ->
                   cl_name trans !! k = Some v -> cl_name trans' !! k = Some v)
             /\ result_chars s' = pre ++ [char]
             /\ ch_names char = cl_name trans')
  /\ (~ (ja <> dja /\ ja <> SENTINEL_JA) ->
      refresh_names default_trans trans = Ok (trans, false)
      /\ ((forall l, In l (all_langs E) -> is_Some (cl_name trans !! l)) ->
          merge_translation E (translations s) (cd_id data) default_trans
          = Ok (translations s, trans, Merged false false))
      /\ forall s',
           char_step E inp s data = Ok s' ->
           (updated_translations s' = true
            <-> updated_translations s = true
                \/ exists l, In l (all_langs E) /\ cl_name trans !! l = None)
           /\ exists trans' pre char,
                ODict.get (cd_id data) (translations s') = Some trans'
                /\ (forall k v, cl_name trans !! k = Some v ->
                                cl_name trans' !! k = Some v)
                /\ result_chars s' = pre ++ [char]
                /\ ch_names char = cl_name trans').
Proof.
  intros Hdt Hget Hja Hpj Hdja Hpd Hden. split.
  - intros Hstale Hpe.
    pose proof (refresh_names_stale _ _ _ _ _ Hja Hpj Hdja Hpd Hden Hpe Hstale)
      as Hr.
    split; [exact Hr|]. split.
    + intros Hall. unfold merge_translation. rewrite Hget, Hr. simpl.
      rewrite backfill_names_complete; [reflexivity|].
      intros l Hl. simpl. rewrite !lookup_insert.
      repeat (destruct (decide _); [eauto|]). apply Hall, Hl.
    + intros s' Hstep.
      destruct (char_step_merged _ _ _ _ _ _ _ _ _ Hdt Hget Hr Hstep)
        as (trans' & b & pre & char & Hb & Hget' & Hflag & Hres & Hnames).
      split; [rewrite Hflag; apply orb_true_r|].
      apply backfill_names_Ok in Hb as (_ & _ & Hkeep & _).
      exists trans', pre, char. split; [exact Hget'|].
      split; [|split; [|split; [|split; assumption]]].
      * apply Hkeep. simpl. rewrite lookup_insert_ne by discriminate.
        apply lookup_insert_eq.
      * apply Hkeep. simpl. apply lookup_insert_eq.
      * intros k v Hk1 Hk2 Hv. apply Hkeep. simpl.
        rewrite !lookup_insert_ne by congruence. exact Hv.
  - intros Hfresh.
    pose proof (refresh_names_fresh _ _ _ _ Hja Hpj Hdja Hpd Hfresh) as Hr.
    split; [exact Hr|]. split.
    + intros Hall. unfold merge_translation. rewrite Hget, Hr. simpl.
      rewrite (backfill_names_complete _ _ _ Hall). simpl.
      rewrite (odict_set_same _ _ _ Hget). reflexivity.
    + intros s' Hstep.
      destruct (char_step_merged _ _ _ _ _ _ _ _ _ Hdt Hget Hr Hstep)
        as (trans' & b & pre & char & Hb & Hget' & Hflag & Hres & Hnames).
      split.
      * rewrite Hflag. simpl. rewrite orb_true_iff.
        rewrite (backfill_names_flag _ _ _ _ _ Hb). reflexivity.
      * apply backfill_names_Ok in Hb as (_ & _ & Hkeep & _).
        exists trans', pre, char. auto.
Qed.

Lemma refresh_iff_stale_and_unprotected_witness :
  (match char_step ascii_externals (aru_stored aru_stale)
           (initial_state (aru_stored aru_stale)) with_rubies with
   | Ok s' =>
       updated_translations s'
       && bool_decide
            (cl_name <$> ODict.get (lit "aru") (translations s')
             = Some (<[LANG_EN := lit "rikuhachima aru"]>
                       (<[LANG_JA := lit "Rikuhachima Aru"]>
                          (cl_name aru_stale))))
   | Raise _ => false
   end) = true
  /\ refresh_names aru_default aru_protected = Ok (aru_protected, false)
  /\ (forall s',
        char_step ascii_externals (aru_stored aru_protected)
          (initial_state (aru_stored aru_protected)) with_rubies = Ok s' ->
        updated_translations s' = false).
Proof.
  assert (Hp : forall v, conf_value v = Ok v -> plain v)
    by (intros v Hv; apply conf_value_Ok in Hv as [_ Hv]; exact Hv).
  split; [|split].
  - destruct (char_step ascii_externals (aru_stored aru_stale)
                (initial_state (aru_stored aru_stale)) with_rubies)
      as [s'|e] eqn:Hstep; [|revert Hstep; vm_compute; discriminate].
    destruct (refresh_iff_stale_and_unprotected ascii_externals
                (aru_stored aru_stale) (initial_state (aru_stored aru_stale))
                with_rubies aru_default aru_stale
                (lit "Aru") (lit "Rikuhachima Aru") (lit "rikuhachima aru"))
      as [Hyes _];
      try (first [reflexivity | apply Hp; reflexivity]).
    destruct Hyes as (_ & _ & Hyes);
      [split; discriminate | apply Hp; reflexivity |].
    destruct (Hyes s' Hstep) as (-> & _). simpl.
    apply bool_decide_eq_true. revert Hstep. vm_compute.
    intros [= <-]. reflexivity.
  - refine (proj1 (proj2 (refresh_iff_stale_and_unprotected ascii_externals
                            (aru_stored aru_protected)
                            (initial_state (aru_stored aru_protected))
                            with_rubies aru_default aru_protected
                            SENTINEL_JA (lit "Rikuhachima Aru")
                            (lit "rikuhachima aru") _ _ _ _ _ _ _) _));
      try (first [reflexivity | apply Hp; reflexivity]).
    intros [_ H]. apply H. reflexivity.
  - intros s' Hstep.
    destruct (refresh_iff_stale_and_unprotected ascii_externals
                (aru_stored aru_protected)
                (initial_state (aru_stored aru_protected))
                with_rubies aru_default aru_protected
                SENTINEL_JA (lit "Rikuhachima Aru") (lit "rikuhachima aru"))
      as [_ Hno];
      try (first [reflexivity | apply Hp; reflexivity]).
    destruct Hno as (_ & _ & Hno); [intros [_ H]; apply H; reflexivity|].
    destruct (Hno s' Hstep) as [Hflag _].
    destruct (updated_translations s'); [|reflexivity].
    destruct (proj1 Hflag eq_refl) as [H|(l & Hl & Hnone)];
      [discriminate H|].
    simpl in Hl.
    repeat (destruct Hl as [<-|Hl]; [discriminate Hnone|]). contradiction.
Defined.

(** C7 as stated fails for an entry whose Japanese name is "???": it
    differs from the derived name and is not the protected one, yet
    reading it at line 90 raises, nothing is overwritten and nothing is
    written. *)
Lemma refresh_missing_value_counterexample :
  get_default_lang_data ascii_externals with_rubies = Ok aru_default
  /\ ODict.get (cd_id with_rubies)
       (translations (initial_state (aru_stored aru_missing)))
     = Some aru_missing
  /\ cl_name aru_missing !! LANG_JA = Some MISSING
  /\ cl_name aru_default !! LANG_JA = Some (lit "Rikuhachima Aru")
  /\ MISSING <> lit "Rikuhachima Aru" /\ MISSING <> SENTINEL_JA
  /\ refresh_names aru_default aru_missing = Raise MissingMandatoryValue
  /\ char_step ascii_externals (aru_stored aru_missing)
       (initial_state (aru_stored aru_missing)) with_rubies
     = Raise MissingMandatoryValue
  /\ returned (get_chars ascii_externals (aru_stored aru_missing))
     = Raise MissingMandatoryValue
  /\ char_yaml_written (get_chars ascii_externals (aru_stored aru_missing))
     = None.
Proof.
  repeat split; try discriminate; vm_compute; reflexivity.
Qed.

(** ** The characters collected so far *)

Lemma positions_where_snoc {A} (p : A -> bool) (l : list A) (x : A) :
  positions_where p (l ++ [x])
  = positions_where p l ++ (if p x then [length l] else []).
Proof.
  unfold positions_where. rewrite length_app. simpl. rewrite seq_app. simpl.
  rewrite List.filter_app. f_equal.
  - apply List.filter_ext_in. intros i Hi. apply in_seq in Hi.
    rewrite lookup_app_l by lia. reflexivity.
  - simpl. rewrite list_lookup_middle by reflexivity.
    destruct (p x); reflexivity.
Qed.

Lemma positions_where_bound {A} (p : A -> bool) (l : list A) i :
  In i (positions_where p l) -> (i < length l)%nat.
Proof.
  unfold positions_where. intros H. apply filter_In in H as [H _].
  apply in_seq in H. lia.
Qed.

Lemma positions_where_same {A} (p : A -> bool) (R : A -> A -> Prop) l l' :
  (forall a b, R a b -> p b = p a) ->
  Forall2 R l l' -> positions_where p l' = positions_where p l.
Proof.
  intros HR H. unfold positions_where. rewrite <- (Forall2_length _ _ _ H).
  apply List.filter_ext_in. intros i Hi.
  destruct (l !! i) as [a|] eqn:Ha.
  - destruct (Forall2_lookup_l _ _ _ _ _ H Ha) as (b & -> & Hab).
    apply HR, Hab.
  - apply lookup_ge_None in Ha.
    rewrite (proj2 (lookup_ge_None l' i)); [reflexivity|].
    rewrite <- (Forall2_length _ _ _ H). exact Ha.
Qed.

Lemma chars_at_app_l positions chars more :
  Forall (fun i => (i < length chars)%nat) positions ->
  chars_at positions (chars ++ more) = chars_at positions chars.
Proof.
  induction 1 as [|i positions Hi _ IH]; [reflexivity|].
  cbn [chars_at]. rewrite (lookup_app_l _ _ _ Hi), IH. reflexivity.
Qed.

Lemma chars_at_app positions positions' chars :
  chars_at (positions ++ positions') chars
  = chars_at positions chars ++ chars_at positions' chars.
Proof.
  induction positions as [|i positions IH]; [reflexivity|].
  cbn [chars_at app]. destruct (chars !! i); rewrite IH; reflexivity.
Qed.

Lemma chars_at_positions_where (p : Character -> bool) chars :
  chars_at (positions_where p chars) chars = List.filter p chars.
Proof.
  induction chars as [|c chars IH] using rev_ind; [reflexivity|].
  rewrite positions_where_snoc, List.filter_app, chars_at_app. f_equal.
  - rewrite <- IH. apply chars_at_app_l.
    apply List.Forall_forall. intros i Hi.
    apply (positions_where_bound _ _ _ Hi).
  - simpl. destruct (p c); [|reflexivity].
    cbn [chars_at]. rewrite list_lookup_middle by reflexivity. reflexivity.
Qed.

Lemma in_no_group_same groups c c' :
  same_but_names c c' -> in_no_group groups c' = in_no_group groups c.
Proof. intros (Hid & _). unfold in_no_group. rewrite Hid. reflexivity. Qed.

Lemma char_step_collected E inp s data s' :
  collected_ok inp s -> char_step E inp s data = Ok s' -> collected_ok inp s'.
Proof.
  intros (Hschool & Hclub) H.
  apply char_step_Ok in H
    as (dt & T' & trans & ev & sn & imgs & earlier & _ & _ & _ & _ & Hearlier & ->).
  apply earlier_same in Hearlier.
  unfold collected_ok; simpl. rewrite !positions_where_snoc.
  rewrite (positions_where_same _ _ _ _ (in_no_group_same (school_data inp)) Hearlier).
  rewrite (positions_where_same _ _ _ _ (in_no_group_same (club_data inp)) Hearlier).
  rewrite (Forall2_same_length _ _ Hearlier), <- Hschool, <- Hclub.
  unfold in_no_group; simpl.
  split.
  - destruct (length (groups_of (cd_id data) (school_data inp)) =? 0)%nat;
      [reflexivity | rewrite app_nil_r; reflexivity].
  - destruct (length (groups_of (cd_id data) (club_data inp)) =? 0)%nat;
      [reflexivity | rewrite app_nil_r; reflexivity].
Qed.

Lemma loop_collected E inp s :
  get_chars_loop E inp = Ok s -> collected_ok inp s.
Proof.
  unfold get_chars_loop.
  apply (for_each_invariant (char_step E inp) (collected_ok inp)).
  - intros s0 d s1 _. apply char_step_collected.
  - split; reflexivity.
Qed.

(** The two reports list the characters that no school, or no club,
    lists, as they stand in [result]. *)
Lemma loop_report_lists E inp s :
  get_chars_loop E inp = Ok s ->
  chars_at (chars_without_school s) (result_chars s)
  = List.filter (in_no_group (school_data inp)) (result_chars s)
  /\ chars_at (chars_without_club s) (result_chars s)
     = List.filter (in_no_group (club_data inp)) (result_chars s).
Proof.
  intros H. destruct (loop_collected _ _ _ H) as [-> ->].
  split; apply chars_at_positions_where.
Qed.

Lemma char_step_names E inp s data s' :
  names_ok E s -> char_step E inp s data = Ok s' -> names_ok E s'.
Proof.
  intros [Hchars Hholders] H.
  apply char_step_Ok in H
    as (dt & T' & trans & ev & sn & imgs & earlier
        & Hdt & Hmerge & Hshort & _ & Hearlier & ->).
  pose proof (earlier_same _ _ _ _ _ Hearlier) as Hsame.
  pose proof (Forall2_same_length _ _ Hsame) as Hlen.
  destruct (merge_translation_complete _ _ _ _ _ _ _ _ Hdt Hmerge Hshort)
    as [Hall Hja].
  pose proof (proj1 (merge_translation_Ok _ _ _ _ _ _ _ Hmerge)) as HT'.
  set (cid := cd_id data) in *.
  set (H0 := default [] (name_holders s !! cid)) in *.
  (* what the pass leaves of an earlier character *)
  assert (Hearly : forall j c, result_chars s !! j = Some c ->
            exists c', earlier !! j = Some c' /\ same_but_names c c'
              /\ ((ch_id c <> cid /\ c' = c)
                  \/ (ch_id c = cid /\ ch_names c' = cl_name trans
                      /\ replaced ev = false /\ j ∈ H0))).
  { intros j c Hc.
    destruct (Forall2_lookup_l _ _ _ _ _ Hsame Hc) as (c' & Hc' & Hcc').
    exists c'. split; [exact Hc'|]. split; [exact Hcc'|].
    destruct (Hchars j c Hc) as (Hj & t & Hget & Hnames & Hcomplete & _).
    destruct (decide (ch_id c = cid)) as [Hid|Hid].
    - right. split; [exact Hid|]. rewrite Hid in Hget, Hj. fold H0 in Hj.
      destruct (merge_translation_existing _ _ _ _ _ _ _ _ Hget Hcomplete Hmerge)
        as [[-> ->]|[-> Hover]]; simpl in Hearlier.
      + injection Hearlier as <-.
        assert (c' = c) as -> by congruence. auto.
      + destruct (proj2 (refresh_holders_Ok _ _ _ _ _ Hearlier) j c Hc)
          as (c2 & Hc2 & Hcase).
        assert (c2 = c') as -> by congruence.
        rewrite (bool_decide_eq_true_2 _ Hj) in Hcase.
        destruct Hcase as (name & Hname & ->). simpl.
        rewrite Hnames, Hover in Hname. injection Hname as <-. auto.
    - left. split; [exact Hid|].
      destruct (refreshed ev); [|injection Hearlier as <-; congruence].
      destruct (proj2 (refresh_holders_Ok _ _ _ _ _ Hearlier) j c Hc)
        as (c2 & Hc2 & Hcase).
      assert (c2 = c') as -> by congruence.
      rewrite bool_decide_eq_false_2 in Hcase; [exact Hcase|].
      intros Hin. destruct (Hholders cid j Hin) as (c3 & Hc3 & Hid3).
      congruence. }
  set (char := character_of inp cid trans sn (is_images imgs)).
  assert (Hnew : (earlier ++ [char]) !! length (result_chars s) = Some char).
  { apply list_lookup_middle. symmetry. exact Hlen. }
  split; simpl.
  - intros i c' Hi.
    destruct (decide (i < length (result_chars s))%nat) as [Hlt|Hge].
    + rewrite lookup_app_l in Hi by lia.
      destruct (Forall2_lookup_r _ _ _ _ _ Hsame Hi) as (c & Hc & _).
      destruct (Hearly i c Hc) as (c2 & Hc2 & Hcc' & Hcase).
      assert (c2 = c') as -> by congruence.
      destruct (Hchars i c Hc)
        as (Hj & t & Hget & Hnames & Hcomplete & Hjat & Hlast).
      destruct Hcase as [[Hid ->]|(Hid & Hnames' & Hrep & Hin)].
      * rewrite lookup_insert_ne by congruence. split; [exact Hj|].
        exists t. rewrite HT', odict_get_set_ne by congruence.
        repeat split; try assumption.
        intros Hlater. apply Hlast. intros j c2 Hij Hc2'.
        destruct (Hearly j c2 Hc2') as (c3 & Hc3 & (Hid3 & _) & _).
        rewrite <- Hid3. apply (Hlater j c3 Hij).
        rewrite lookup_app_l by (apply lookup_lt_Some in Hc3; exact Hc3).
        exact Hc3.
      * destruct Hcc' as (Hid' & _). rewrite Hid', Hid.
        rewrite lookup_insert_eq, Hrep. simpl. fold H0.
        split; [apply elem_of_app; left; exact Hin|].
        exists trans. rewrite HT', odict_get_set_eq.
        repeat split; try assumption.
        intros Hlater. exfalso.
        apply (Hlater (length (result_chars s)) char Hlt Hnew).
        simpl. congruence.
    + assert (i = length (result_chars s)) as ->.
      { apply lookup_lt_Some in Hi. rewrite length_app in Hi. simpl in Hi. lia. }
      rewrite Hnew in Hi. injection Hi as <-. simpl.
      rewrite lookup_insert_eq. simpl.
      split; [apply elem_of_app; right; apply list_elem_of_singleton; reflexivity|].
      exists trans. rewrite HT', odict_get_set_eq.
      repeat split; try assumption. intros _. exact Hshort.
  - intros k i Hi.
    destruct (decide (k = cid)) as [->|Hk].
    + rewrite lookup_insert_eq in Hi. simpl in Hi.
      apply elem_of_app in Hi as [Hi|Hi].
      * destruct (replaced ev); [apply elem_of_nil in Hi; destruct Hi|].
        destruct (Hholders cid i Hi) as (c & Hc & Hid).
        destruct (Hearly i c Hc) as (c' & Hc' & (Hid' & _) & _).
        exists c'. split; [|congruence].
        rewrite lookup_app_l by (apply lookup_lt_Some in Hc'; exact Hc').
        exact Hc'.
      * apply list_elem_of_singleton in Hi as ->. exists char. auto.
    + rewrite lookup_insert_ne in Hi by congruence.
      destruct (Hholders k i Hi) as (c & Hc & Hid).
      destruct (Hearly i c Hc) as (c' & Hc' & (Hid' & _) & _).
      exists c'. split; [|congruence].
      rewrite lookup_app_l by (apply lookup_lt_Some in Hc'; exact Hc').
      exact Hc'.
Qed.

Lemma loop_names E inp s : get_chars_loop E inp = Ok s -> names_ok E s.
Proof.
  unfold get_chars_loop.
  apply (for_each_invariant (char_step E inp) (names_ok E)).
  - intros s0 d s1 _. apply char_step_names.
  - split; simpl.
    + intros i c Hc. rewrite lookup_nil in Hc. discriminate.
    + intros k i Hi. rewrite lookup_empty in Hi. apply elem_of_nil in Hi.
      destruct Hi.
Qed.

Lemma elem_of_lookup_char (chars : list Character) c :
  In c chars -> exists i, chars !! i = Some c.
Proof. intros H. apply list_elem_of_In in H. apply list_elem_of_lookup_1, H. Qed.

(** ** The reports *)

Lemma write_report_spec chars :
  Forall (fun c => readable (ch_names c) LANG_JA) chars ->
  exists text,
    write_report chars
    = (text, if existsb (fun c => (length (ch_images c) =? 0)%nat) chars
             then Some IndexError else None).
Proof.
  induction 1 as [|c chars (ja & Hja & Hp) _ IH]; simpl; [eauto|].
  unfold report_entry. rewrite (conf_getitem_plain _ _ _ Hja Hp). simpl.
  destruct (ch_images c) as [|img imgs]; simpl; [eauto|].
  destruct IH as [text ->]. eauto.
Qed.



Lemma finish_IndexError E inp s c :
  In LANG_JA (all_langs E) ->
  collected_ok inp s -> names_ok E s ->
  In c (result_chars s) -> ch_images c = [] ->
  without_school_or_club inp (ch_id c) ->
  returned (finish E s) = Raise IndexError.
Proof.
  intros Hlang [Hschool Hclub] [Hnames _] Hc Himg Hgroups. unfold finish.
  assert (Hja : Forall (fun c => readable (ch_names c) LANG_JA) (result_chars s)).
  { apply List.Forall_forall. intros x Hx.
    apply elem_of_lookup_char in Hx as [i Hi].
    destruct (Hnames i x Hi) as (_ & t & _ & -> & _ & Hread & _).
    apply Hread, Hlang. }
  rewrite List.Forall_forall in Hja.
  rewrite Hschool, Hclub, !chars_at_positions_where.
  destruct (write_report_spec
              (List.filter (in_no_group (school_data inp)) (result_chars s)))
    as [text ->].
  { apply List.Forall_forall. intros x Hx.
    apply filter_In in Hx as [Hx _]. apply Hja, Hx. }
  destruct (existsb _ (List.filter (in_no_group (school_data inp)) _)) eqn:Hs;
    simpl; [reflexivity|].
  destruct (write_report_spec
              (List.filter (in_no_group (club_data inp)) (result_chars s)))
    as [text' ->].
  { apply List.Forall_forall. intros x Hx.
    apply filter_In in Hx as [Hx _]. apply Hja, Hx. }
  destruct (existsb _ (List.filter (in_no_group (club_data inp)) _)) eqn:Hcl;
    simpl; [reflexivity|].
  exfalso.
  assert (Hempty : (length (ch_images c) =? 0)%nat = true)
    by (rewrite Himg; reflexivity).
  destruct Hgroups as [Hg|Hg].
  - assert (existsb (fun c => (length (ch_images c) =? 0)%nat)
              (List.filter (in_no_group (school_data inp)) (result_chars s))
            = true); [|congruence].
    apply existsb_exists. exists c. split; [|exact Hempty].
    apply filter_In. split; [exact Hc|].
    unfold in_no_group. rewrite Hg. reflexivity.
  - assert (existsb (fun c => (length (ch_images c) =? 0)%nat)
              (List.filter (in_no_group (club_data inp)) (result_chars s))
            = true); [|congruence].
    apply existsb_exists. exists c. split; [|exact Hempty].
    apply filter_In. split; [exact Hc|].
    unfold in_no_group. rewrite Hg. reflexivity.
Qed.

Lemma image_loop_all_excluded E X M D imgs st :
  Forall (fun img => basename img ∈ X) imgs ->
  for_each (image_step E X M D) imgs st = Ok st.
Proof.
  induction 1 as [|img imgs Himg _ IH]; [reflexivity|].
  assert (image_step E X M D st img = Ok st) as Hstep.
  { unfold image_step. fold (basename img).
    rewrite (bool_decide_eq_true_2 _ Himg). reflexivity. }
  cbn [for_each]. rewrite Hstep. exact IH.
Qed.

(** A character that was collected stays, up to its name mapping. *)
Lemma loop_result_same E inp ds s s' c :
  for_each (char_step E inp) ds s = Ok s' ->
  In c (result_chars s) ->
  exists c', In c' (result_chars s') /\ same_but_names c c'.
Proof.
  intros Hrun Hc.
  apply (for_each_invariant (char_step E inp)
           (fun s => exists c', In c' (result_chars s) /\ same_but_names c c') ds)
    with (s := s); [| |exact Hrun].
  - intros s0 d s1 _ (c0 & Hc0 & H0) Hstep. apply char_step_Ok in Hstep
      as (dt & T' & trans & ev & sn & imgs & earlier & _ & _ & _ & _ & Hearlier & ->).
    apply earlier_same in Hearlier.
    apply elem_of_lookup_char in Hc0 as [i Hi].
    destruct (Forall2_lookup_l _ _ _ _ _ Hearlier Hi) as (c1 & Hc1 & H1).
    exists c1. simpl. split.
    + apply in_or_app. left. apply list_elem_of_In.
      apply (list_elem_of_lookup_2 _ _ _ Hc1).
    + destruct H0 as (a1 & a2 & a3 & a4 & a5).
      destruct H1 as (b1 & b2 & b3 & b4 & b5).
      repeat split; congruence.
  - exists c. split; [exact Hc | apply same_but_names_refl].
Qed.

(** The case that C10 names: a character all of whose image references
    are excluded, and that has no school or no club. *)
Lemma excluded_portraits_report_raises E inp s data :
  In LANG_JA (all_langs E) ->
  get_chars_loop E inp = Ok s ->
  In data (char_data inp) ->
  Forall (fun img => basename img ∈ excluded_portraits inp) (image_files data) ->
  without_school_or_club inp (cd_id data) ->
  returned (get_chars E inp) = Raise IndexError.
Proof.
  intros Hlang Hloop Hdata Hexcl Hgroups.
  pose proof (loop_collected _ _ _ Hloop) as Hcoll.
  pose proof (loop_names _ _ _ Hloop) as Hnames.
  unfold get_chars. rewrite Hloop. unfold get_chars_loop in Hloop.
  apply List.in_split in Hdata as (pre & post & Hsplit).
  rewrite Hsplit in Hloop.
  apply loop_reaches in Hloop as (s0 & s1 & _ & Hstep & Hrest).
  apply char_step_Ok in Hstep
    as (dt & T' & trans & ev & sn & imgs & earlier & _ & _ & _ & Himgs & _ & ->).
  rewrite (image_loop_all_excluded _ _ _ _ _ _ Hexcl) in Himgs.
  injection Himgs as <-.
  destruct (loop_result_same _ _ _ _ _
              (character_of inp (cd_id data) trans sn []) Hrest)
    as (c' & Hc' & Hid & _ & _ & _ & Himg).
  { simpl. apply in_or_app. right. left. reflexivity. }
  apply (finish_IndexError E inp s c'); try assumption.
  rewrite Hid. exact Hgroups.
Qed.




(** ** Writing the translation store *)







(** ** A second run *)

Lemma odict_keys_set {V} k (v : V) d :
  (In k (ODict.keys d) -> ODict.keys (ODict.set k v d) = ODict.keys d)
  /\ (~ In k (ODict.keys d) ->
      ODict.keys (ODict.set k v d) = ODict.keys d ++ [k]).
Proof.
  induction d as [|[k0 v0] d [IH1 IH2]]; simpl.
  - split; [intros [] | reflexivity].
  - destruct (decide (k = k0)) as [->|Hne]; simpl.
    + split; [reflexivity | intros H; exfalso; apply H; left; reflexivity].
    + split.
      * intros [?|Hin]; [congruence|]. f_equal. apply IH1, Hin.
      * intros Hin. f_equal. apply IH2. intros ?; apply Hin; right; assumption.
Qed.

Lemma odict_set_In {V} k (v : V) d kv :
  In kv (ODict.set k v d) -> kv = (k, v) \/ In kv d.
Proof.
  induction d as [|[k0 v0] d IH]; simpl.
  - intros [<-|[]]; left; reflexivity.
  - destruct (decide (k = k0)) as [->|Hne]; simpl.
    + intros [<-|H]; [left; reflexivity | right; right; exact H].
    + intros [<-|H]; [right; left; reflexivity|].
      destruct (IH H); [left | right; right]; assumption.
Qed.

Lemma table_wf_set T (v : CharLangData) :
  table_wf T -> table_wf (ODict.set (cl_id v) v T).
Proof.
  intros [Hnd Hall]. split.
  - destruct (odict_keys_set (cl_id v) v T) as [H1 H2].
    destruct (in_dec (fun a b : str => decide (a = b)) (cl_id v) (ODict.keys T))
      as [Hin|Hin].
    + rewrite (H1 Hin). exact Hnd.
    + rewrite (H2 Hin). apply List.NoDup_rev in Hnd.
      rewrite <- (rev_involutive (_ ++ _)).
      apply List.NoDup_rev. rewrite rev_app_distr. simpl.
      constructor; [rewrite <- in_rev; exact Hin | exact Hnd].
  - apply List.Forall_forall. intros kv Hkv.
    apply odict_set_In in Hkv as [->|Hkv]; [reflexivity|].
    revert kv Hkv. apply List.Forall_forall. exact Hall.
Qed.

Lemma table_wf_get T k v :
  table_wf T -> ODict.get k T = Some v <-> In v (ODict.values T) /\ cl_id v = k.
Proof.
  intros [Hnd Hall]. induction T as [|[k0 v0] T IH]; simpl.
  - split; [discriminate | intros [[] _]].
  - inversion Hnd as [|? ? Hk0 Hnd']; subst. clear Hnd. rename Hnd' into Hnd.
    inversion Hall as [|? ? Hid Hall']; subst. simpl in Hid.
    specialize (IH Hnd Hall').
    destruct (decide (k = k0)) as [->|Hne].
    + split.
      * intros [= ->]. auto.
      * intros [[->|Hin] Hv]; [reflexivity|]. exfalso. apply Hk0.
        unfold ODict.keys.
        apply in_map_iff. apply in_map_iff in Hin as ([k1 v1] & Hv1 & Hin).
        simpl in Hv1. subst v1. exists (k1, v). split; [|exact Hin].
        simpl. rewrite List.Forall_forall in Hall'.
        specialize (Hall' _ Hin). simpl in Hall'. congruence.
    + rewrite IH. split; [intros [? ?]; auto|].
      intros [[->|Hin] Hv]; [congruence | auto].
Qed.


Lemma translations_from_wf l T :
  table_wf T ->
  table_wf (List.fold_left (fun d t => ODict.set (cl_id t) t d) l T).
Proof.
  revert T; induction l as [|t l IH]; intros T HT; simpl; [exact HT|].
  apply IH, table_wf_set, HT.
Qed.

Lemma translations_of_wf l : table_wf (translations_of l).
Proof.
  apply translations_from_wf. split; constructor.
Qed.






(** A stored entry makes the pass read the derived Japanese name first. *)
Lemma merge_translation_unreadable E T cid default_trans trans e :
  ODict.get cid T = Some trans ->
  conf_getitem (cl_name default_trans) LANG_JA = Raise e ->
  merge_translation E T cid default_trans = Raise e.
Proof.
  intros Hget Hread. unfold merge_translation, refresh_names.
  rewrite Hget, Hread. reflexivity.
Qed.

Lemma char_step_table E inp s data s' :
  table_wf (translations s) ->
  char_step E inp s data = Ok s' ->
  table_wf (translations s')
  /\ (forall k, k <> cd_id data ->
        ODict.get k (translations s') = ODict.get k (translations s)).
Proof.
  intros Hwf H. apply char_step_Ok in H
    as (dt & T' & trans & ev & sn & imgs & earlier & Hdt & Hmerge & _ & _ & Hearlier & ->).
  simpl.
  destruct (default_trans_shape _ _ _ Hdt) as (Hid & _).
  apply merge_translation_Ok in Hmerge
    as (-> & [(_ & -> & _)|(old & t1 & r & b & Hget & Hr & Hb & _)]).
  - split; [rewrite <- Hid; apply table_wf_set, Hwf|].
    intros k Hk. apply odict_get_set_ne. congruence.
  - split.
    + apply refresh_names_Ok in Hr as (Hid1 & _).
      apply backfill_names_Ok in Hb as (Hid2 & _).
      apply (table_wf_get _ _ _ Hwf) in Hget as [_ Hold].
      replace (cd_id data) with (cl_id trans) by congruence.
      apply table_wf_set, Hwf.
    + intros k Hk. apply odict_get_set_ne. congruence.
Qed.


(** The passes for other characters leave an entry as it is. *)
Lemma loop_get_other E inp ds s s' cid :
  table_wf (translations s) ->
  ~ In cid (List.map cd_id ds) ->
  for_each (char_step E inp) ds s = Ok s' ->
  ODict.get cid (translations s') = ODict.get cid (translations s).
Proof.
  intros Hwf Hcid Hrun.
  assert (H : table_wf (translations s')
              /\ ODict.get cid (translations s') = ODict.get cid (translations s));
    [|apply H].
  apply (for_each_invariant (char_step E inp)
           (fun s1 => table_wf (translations s1)
                      /\ ODict.get cid (translations s1)
                         = ODict.get cid (translations s)) ds)
    with (s := s); [|auto | exact Hrun].
  intros s0 d s1 Hd [Hwf0 Hget] Hstep.
  destruct (char_step_table _ _ _ _ _ Hwf0 Hstep) as [Hwf1 Hother].
  split; [exact Hwf1|]. rewrite Hother; [exact Hget|].
  intros ->. apply Hcid. apply in_map. exact Hd.
Qed.










(** Why the last part of [second_run_writes_nothing] asks for "ja" among
    the required languages: without it the first run may store a Japanese
    name that it never read, and the second run stops at line 88, where
    it reads the derived one.  It writes nothing then either. *)
Lemma second_run_without_ja_stops :
  exists store,
    char_yaml_written (get_chars en_only_externals unnamed_character)
    = Some store
    /\ get_chars_loop en_only_externals (with_store unnamed_character store)
       = Raise MissingMandatoryValue
    /\ char_yaml_written
         (get_chars en_only_externals (with_store unnamed_character store))
       = None.
Proof.
  eexists. split; [vm_compute; reflexivity|].
  split; vm_compute; reflexivity.
Qed.

(** * Further properties *)

(** ** The legacy mapping *)

Lemma legacy_fold (items : list (str * str)) (m : gmap str str) (b : str) :
  List.fold_left
    (fun m kv =>
       if (0 <? length kv.2)%nat
       then <[PyStr.last_piece (PyStr.split SLASH kv.2) := kv.1]> m
       else m)
    items m !! b
  = match legacy_source b items with
    | Some k => Some k
    | None => m !! b
    end.
Proof.
  induction items as [|[k v] items IH] using rev_ind; [reflexivity|].
  rewrite fold_left_app. simpl. unfold legacy_source.
  rewrite rev_app_distr. simpl. fold (basename v).
  destruct (0 <? length v)%nat eqn:Hv; simpl.
  - destruct (decide (basename v = b)) as [Hb|Hb].
    + rewrite (bool_decide_eq_true_2 _ Hb). simpl.
      rewrite Hb. apply lookup_insert_eq.
    + rewrite (bool_decide_eq_false_2 _ Hb). simpl.
      rewrite lookup_insert_ne by exact Hb. exact IH.
  - exact IH.
Qed.

(** X1: the legacy name of a basename is the key of the last item of the
    file whose value is not empty and whose final path segment is that
    basename; a basename that no such item ends in has no legacy name. *)
Theorem legacy_mapping_last_item_wins (items : list (str * str)) (b : str) :
  get_legacy_image_mappings items !! b = legacy_source b items.
Proof.
  unfold get_legacy_image_mappings. rewrite legacy_fold.
  destruct (legacy_source b items); [reflexivity | apply lookup_empty].
Qed.

(** ** Default translations: when the derivation raises *)

Lemma capitalize_raises_on_empty E l :
  In [] l -> map_result (capitalize E) l = Raise IndexError.
Proof.
  induction l as [|s l IH]; intros Hin; [destruct Hin|].
  simpl. destruct s as [|c s]; [reflexivity|].
  destruct Hin as [?|Hin]; [discriminate|].
  simpl. rewrite (IH Hin). reflexivity.
Qed.

Lemma nil_in_dec (l : list str) : In [] l \/ Forall (fun s => s <> []) l.
Proof.
  induction l as [|s l [IH|IH]].
  - right; constructor.
  - left; right; exact IH.
  - destruct s as [|c s]; [left; left; reflexivity|].
    right. constructor; [discriminate | exact IH].
Qed.

(** X2: a record without family name whose id has an empty segment
    between underscores (an empty id, a leading, trailing or doubled
    underscore) makes line 33 raise [IndexError], and a run over inputs
    that hold such a record ends with an exception inside the loop, with
    no file written. *)
Theorem empty_id_segment_raises_IndexError (E : externals) (inp : inputs)
  (data : CharData) :
  In data (char_data inp) ->
  family_name data = [] ->
  In [] (PyStr.split UNDERSCORE (cd_id data)) ->
  get_default_lang_data E data = Raise IndexError
  /\ (forall s, char_step E inp s data = Raise IndexError)
  /\ aborted (get_chars E inp).
Proof.
  intros Hdata Hfam Hin.
  assert (Hraise : get_default_lang_data E data = Raise IndexError).
  { unfold get_default_lang_data. rewrite Hfam. simpl.
    rewrite capitalize_raises_on_empty; [reflexivity|].
    apply in_id_words. split; [exact Hin | discriminate]. }
  assert (Hstep : forall s, char_step E inp s data = Raise IndexError).
  { intros s. unfold char_step. rewrite Hraise. reflexivity. }
  split; [exact Hraise|]. split; [exact Hstep|].
  apply get_chars_aborted. unfold get_chars_loop.
  apply for_each_raises with (x := data); [exact Hdata|].
  intros s. exists IndexError. apply Hstep.
Qed.

Lemma empty_id_segment_raises_IndexError_witness :
  get_default_lang_data ascii_externals empty_segment = Raise IndexError
  /\ aborted (get_chars ascii_externals empty_segment_inputs).
Proof.
  destruct (empty_id_segment_raises_IndexError ascii_externals
              empty_segment_inputs empty_segment) as (H & _ & Hrun).
  - left; reflexivity.
  - reflexivity.
  - vm_compute. auto.
  - split; assumption.
Defined.

(** ** The canonical name *)

Lemma index_first sub s pre post :
  s = pre ++ sub ++ post ->
  (forall pre' post', s = pre' ++ sub ++ post' -> (length pre <= length pre')%nat) ->
  PyStr.index sub s = Some (length pre).
Proof.
  revert s; induction pre as [|c pre IH]; intros s Hs Hmin.
  - assert (Hst : PyStr.startswith sub s = true)
      by (apply startswith_spec; exists post; exact Hs).
    destruct s; simpl; rewrite Hst; reflexivity.
  - subst s. simpl.
    destruct (PyStr.startswith sub (c :: pre ++ sub ++ post)) eqn:Hst.
    + apply startswith_spec in Hst as [r Hr].
      specialize (Hmin [] r Hr). simpl in Hmin. lia.
    + rewrite (IH (pre ++ sub ++ post) eq_refl); [reflexivity|].
      intros pre' post' H. specialize (Hmin (c :: pre') post').
      simpl in Hmin. rewrite H in Hmin. specialize (Hmin eq_refl). lia.
Qed.

(** X3: a basename that the legacy mapping knows gets its legacy name,
    marker or not; any other basename gets what follows the first
    occurrence of "Portrait_" in it. *)
Theorem canonical_name_legacy_or_after_first_marker
  (mappings : gmap str str) (name : str) :
  (forall mapped, mappings !! name = Some mapped ->
                  canonical_name mappings name = Ok mapped)
  /\ (forall pre post,
        mappings !! name = None ->
        name = pre ++ PORTRAIT_ ++ post ->
        (forall pre' post', name = pre' ++ PORTRAIT_ ++ post' ->
                            (length pre <= length pre')%nat) ->
        canonical_name mappings name = Ok post).
Proof.
  unfold canonical_name. split.
  - intros mapped ->. reflexivity.
  - intros pre post -> Hname Hmin.
    rewrite (index_first _ _ _ _ Hname Hmin). subst name.
    rewrite <- length_app, app_assoc, drop_app_length. reflexivity.
Qed.

Lemma canonical_name_legacy_or_after_first_marker_witness :
  canonical_name (get_legacy_image_mappings legacy_items) (lit "Portrait_Aru")
  = Ok (lit "Aru_Newer")
  /\ canonical_name ∅ marker_twice = Ok (lit "Portrait_Aru").
Proof.
  split.
  - apply (canonical_name_legacy_or_after_first_marker
             (get_legacy_image_mappings legacy_items) (lit "Portrait_Aru")).
    reflexivity.
  - apply (proj2 (canonical_name_legacy_or_after_first_marker ∅ marker_twice)
             (lit "NPC_") (lit "Portrait_Aru")).
    + reflexivity.
    + reflexivity.
    + intros pre' post' H.
      destruct pre' as [|c0 [|c1 [|c2 [|c3 pre']]]]; simpl; try lia;
        discriminate H.
Defined.

(** ** Excluded portraits *)

Lemma image_loop_kept E X M D imgs st :
  for_each (image_step E X M D)
    (List.filter (fun img => negb (bool_decide (basename img ∈ X))) imgs) st
  = for_each (image_step E X M D) imgs st.
Proof.
  revert st; induction imgs as [|img imgs IH]; intros st; [reflexivity|].
  cbn [List.filter for_each].
  destruct (bool_decide (basename img ∈ X)) eqn:Hx; cbn [negb].
  - assert (image_step E X M D st img = Ok st) as ->.
    { unfold image_step. fold (basename img). rewrite Hx. reflexivity. }
    simpl. apply IH.
  - cbn [for_each]. destruct (image_step E X M D st img); simpl;
      [apply IH | reflexivity].
Qed.

Lemma for_each_map {A B S} (f : A -> B) (body : S -> B -> result S)
  (body' : S -> A -> result S) l s :
  (forall s x, body s (f x) = body' s x) ->
  for_each body (List.map f l) s = for_each body' l s.
Proof.
  intros Hbody. revert s; induction l as [|x l IH]; intros s; [reflexivity|].
  simpl. rewrite Hbody. destruct (body' s x); simpl; [apply IH | reflexivity].
Qed.

Lemma char_step_without_excluded E inp s data :
  char_step E (drop_excluded inp) s (without_excluded inp data)
  = char_step E inp s data.
Proof.
  unfold char_step.
  change (get_default_lang_data E (without_excluded inp data))
    with (get_default_lang_data E data).
  change (cd_id (without_excluded inp data)) with (cd_id data).
  change (image_files (without_excluded inp data))
    with (kept_images inp (image_files data)).
  change (excluded_portraits (drop_excluded inp)) with (excluded_portraits inp).
  change (image_mappings (drop_excluded inp)) with (image_mappings inp).
  change (disk (drop_excluded inp)) with (disk inp).
  change (club_data (drop_excluded inp)) with (club_data inp).
  change (school_data (drop_excluded inp)) with (school_data inp).
  unfold kept_images. rewrite image_loop_kept. reflexivity.
Qed.

(** X4: an excluded image reference is skipped before anything is looked
    at: taking the excluded references out of the character records
    changes neither what [get_chars] returns or raises nor what it writes,
    whether or not their files exist and whatever their names are. *)
Theorem excluded_references_are_transparent (E : externals) (inp : inputs) :
  get_chars E (drop_excluded inp) = get_chars E inp.
Proof.
  unfold get_chars, get_chars_loop.
  change (initial_state (drop_excluded inp)) with (initial_state inp).
  change (char_data (drop_excluded inp))
    with (List.map (without_excluded inp) (char_data inp)).
  rewrite (for_each_map (without_excluded inp)
             (char_step E (drop_excluded inp)) (char_step E inp));
    [reflexivity|].
  intros s x. apply char_step_without_excluded.
Qed.

(** ** What a successful loop has collected *)

Lemma image_step_kept E X M D st img st' :
  image_step E X M D st img = Ok st' ->
  basename img ∉ X ->
  exists n,
    canonical_name M (basename img) = Ok n
    /\ n <> []
    /\ is_avatar_files st !! n = None
    /\ D (img_file E img) = true
    /\ st' = {| is_images := is_images st ++ [n];
                is_avatar_files := <[n := img_file E img]> (is_avatar_files st);
                is_image_config :=
                  if PyStr.endswith COLLECTION (basename img)
                  then <[img_file E img := CROP_TOP]> (is_image_config st)
                  else is_image_config st |}.
Proof.
  unfold image_step. fold (basename img). intros H Hx.
  rewrite (bool_decide_eq_false_2 _ Hx) in H.
  inv_bind H. exists a. split; [exact Ha|].
  inv_bind H. apply assert_Ok in Ha0.
  inv_bind H. apply assert_Ok in Ha1.
  inv_bind H. apply assert_Ok in Ha2.
  injection H as <-.
  split; [destruct a; discriminate|].
  split; [|split; [exact Ha2 | reflexivity]].
  apply negb_true_iff, bool_decide_eq_false in Ha1.
  apply eq_None_not_Some. exact Ha1.
Qed.

Lemma image_loop_catalog E X M D imgs st st' :
  for_each (image_step E X M D) imgs st = Ok st' ->
  exists names,
    is_images st' = is_images st ++ names
    /\ Forall2 (fun img n => canonical_name M (basename img) = Ok n)
         (List.filter (fun img => negb (bool_decide (basename img ∈ X))) imgs)
         names
    /\ List.NoDup names
    /\ (forall n, In n names -> is_avatar_files st !! n = None)
    /\ (forall n, ~ In n names ->
          is_avatar_files st' !! n = is_avatar_files st !! n)
    /\ (forall n, In n names ->
          n <> []
          /\ exists img,
               In img imgs /\ (basename img ∉ X)
               /\ canonical_name M (basename img) = Ok n
               /\ D (img_file E img) = true
               /\ is_avatar_files st' !! n = Some (img_file E img))
    /\ (forall img, In img imgs -> basename img ∉ X ->
          exists n, canonical_name M (basename img) = Ok n /\ In n names
                    /\ is_avatar_files st' !! n = Some (img_file E img))
    /\ (forall p, is_image_config st !! p = Some CROP_TOP ->
                  is_image_config st' !! p = Some CROP_TOP)
    /\ (forall img, In img imgs -> basename img ∉ X ->
          PyStr.endswith COLLECTION (basename img) = true ->
          is_image_config st' !! img_file E img = Some CROP_TOP)
    /\ (forall p v, is_image_config st' !! p = Some v ->
          is_image_config st !! p = Some v
          \/ (v = CROP_TOP
              /\ exists img,
                   In img imgs /\ (basename img ∉ X)
                   /\ PyStr.endswith COLLECTION (basename img) = true
                   /\ p = img_file E img)).
Proof.
  revert st; induction imgs as [|img0 imgs IH]; intros st H.
  - injection H as <-. exists []. rewrite app_nil_r.
    split; [reflexivity|]. split; [constructor|]. split; [constructor|].
    split; [intros ? []|]. split; [reflexivity|]. split; [intros ? []|].
    split; [intros ? []|]. split; [auto|]. split; [intros ? []|].
    intros p v Hp. left. exact Hp.
  - cbn [for_each] in H. inv_bind H. rename a into st1.
    destruct (IH _ H) as (names & Himgs & Hcan & Hnd & Hfresh & Hout & Hin
                          & Hall & Hkeep & Hcoll & Hconf). clear IH.
    cbn [List.filter].
    destruct (decide (basename img0 ∈ X)) as [Hx|Hx].
    + assert (st1 = st) as ->.
      { unfold image_step in Ha. fold (basename img0) in Ha.
        rewrite (bool_decide_eq_true_2 _ Hx) in Ha. congruence. }
      rewrite (bool_decide_eq_true_2 _ Hx). cbn [negb].
      exists names. split; [exact Himgs|]. split; [exact Hcan|].
      split; [exact Hnd|]. split; [exact Hfresh|]. split; [exact Hout|].
      split.
      { intros n Hn. destruct (Hin n Hn) as (Hne & img & Himg & Hrest).
        split; [exact Hne|]. exists img. split; [right; exact Himg | exact Hrest]. }
      split.
      { intros img [<-|Himg] Hnx; [contradiction | apply Hall; assumption]. }
      split; [exact Hkeep|]. split.
      { intros img [<-|Himg] Hnx; [contradiction | apply Hcoll; assumption]. }
      intros p v Hp. destruct (Hconf p v Hp) as [?|(-> & img & Himg & Hrest)];
        [left; assumption|].
      right. split; [reflexivity|]. exists img.
      split; [right; exact Himg | exact Hrest].
    + rewrite (bool_decide_eq_false_2 _ Hx). cbn [negb].
      destruct (image_step_kept _ _ _ _ _ _ _ Ha Hx)
        as (n0 & Hn0 & Hne0 & Hfresh0 & Hdisk0 & ->).
      cbn [is_images is_avatar_files is_image_config] in *.
      assert (Hn0out : ~ In n0 names).
      { intros Hc. specialize (Hfresh n0 Hc).
        rewrite lookup_insert_eq in Hfresh. discriminate. }
      exists (n0 :: names).
      split; [rewrite Himgs, <- app_assoc; reflexivity|].
      split; [constructor; assumption|].
      split; [constructor; assumption|].
      split.
      { intros n [<-|Hn]; [exact Hfresh0|].
        specialize (Hfresh n Hn). rewrite lookup_insert in Hfresh.
        destruct (decide (n0 = n)); [discriminate | exact Hfresh]. }
      split.
      { intros n Hn. rewrite Hout by (intros ?; apply Hn; right; assumption).
        apply lookup_insert_ne. intros ->. apply Hn; left; reflexivity. }
      split.
      { intros n [<-|Hn].
        - split; [exact Hne0|]. exists img0.
          split; [left; reflexivity|]. split; [exact Hx|].
          split; [exact Hn0|]. split; [exact Hdisk0|].
          rewrite (Hout _ Hn0out). apply lookup_insert_eq.
        - destruct (Hin n Hn) as (Hne & img & Himg & Hrest).
          split; [exact Hne|]. exists img.
          split; [right; exact Himg | exact Hrest]. }
      split.
      { intros img [<-|Himg] Hnx.
        - exists n0. split; [exact Hn0|]. split; [left; reflexivity|].
          rewrite (Hout _ Hn0out). apply lookup_insert_eq.
        - destruct (Hall img Himg Hnx) as (n & Hn & Hnin & Hav).
          exists n. split; [exact Hn|]. split; [right; exact Hnin | exact Hav]. }
      split.
      { intros p Hp. apply Hkeep.
        destruct (PyStr.endswith COLLECTION (basename img0)); [|exact Hp].
        rewrite lookup_insert. destruct (decide (img_file E img0 = p));
          [reflexivity | exact Hp]. }
      split.
      { intros img [<-|Himg] Hnx Hend; [|apply Hcoll; assumption].
        apply Hkeep. rewrite Hend. apply lookup_insert_eq. }
      intros p v Hp. destruct (Hconf p v Hp) as [Hp1|(-> & img & Himg & Hrest)].
      * destruct (PyStr.endswith COLLECTION (basename img0)) eqn:Hend;
          [|left; exact Hp1].
        rewrite lookup_insert in Hp1.
        destruct (decide (img_file E img0 = p)) as [<-|Hne]; [|left; exact Hp1].
        injection Hp1 as <-. right. split; [reflexivity|].
        exists img0. split; [left; reflexivity|]. auto.
      * right. split; [reflexivity|]. exists img.
        split; [right; exact Himg | exact Hrest].
Qed.

(** A property of the records passed and the state that every successful
    pass extends holds of all the records after a successful loop. *)
Lemma for_each_prefix_invariant {A S} (body : S -> A -> result S)
  (P : list A -> S -> Prop) l s0 s' :
  P [] s0 ->
  (forall pre x s s1, P pre s -> body s x = Ok s1 -> P (pre ++ [x]) s1) ->
  for_each body l s0 = Ok s' -> P l s'.
Proof.
  intros H0 Hstep.
  assert (H : forall l pre s, P pre s -> for_each body l s = Ok s' ->
                              P (pre ++ l) s').
  { clear l H0. induction l as [|x l IH]; intros pre s Hs Hrun; simpl in Hrun.
    - injection Hrun as <-. rewrite app_nil_r. exact Hs.
    - inv_bind Hrun. replace (pre ++ x :: l) with ((pre ++ [x]) ++ l)
        by (rewrite <- app_assoc; reflexivity).
      eapply IH; [|exact Hrun]. eapply Hstep; eauto. }
  intros Hrun. apply (H l [] s0 H0 Hrun).
Qed.

Lemma all_images_snoc chars c :
  all_images (chars ++ [c]) = all_images chars ++ ch_images c.
Proof.
  unfold all_images. rewrite map_app, concat_app. simpl.
  rewrite app_nil_r. reflexivity.
Qed.

Lemma in_sorted (l : list str) n : In n (sorted l) <-> In n l.
Proof.
  unfold sorted. split; apply Permutation_in;
    [|symmetry]; apply sorted_by_Permutation.
Qed.

Lemma reference_of_snoc inp pre d img n :
  reference_of inp (pre ++ [d]) img n
  <-> reference_of inp pre img n
      \/ (In img (image_files d) /\ resolves_to inp img n).
Proof.
  unfold reference_of. split.
  - intros (d' & Hd' & Himg & Hres). apply in_app_or in Hd' as [Hd'|[<-|[]]].
    + left. eauto.
    + right. auto.
  - intros [(d' & Hd' & Himg & Hres)|[Himg Hres]].
    + exists d'. split; [apply in_or_app; left; exact Hd' | auto].
    + exists d. split; [apply in_or_app; right; left; reflexivity | auto].
Qed.

Lemma char_step_catalog E inp pre d s s' :
  catalog_ok E inp pre s -> char_step E inp s d = Ok s' ->
  catalog_ok E inp (pre ++ [d]) s'.
Proof.
  intros (Hnd & Hkeys & Hsound & Hcompl & Hconf & Hcoll) H.
  apply char_step_Ok in H
    as (dt & T' & trans & ev & sn & imgs & earlier & _ & _ & _ & Himgs & Hearlier & ->).
  apply image_loop_catalog in Himgs
    as (names & Hnames & _ & Hnd' & Hfresh & Hout & Hin & Hall
        & Hkeep & Hcoll' & Hconf').
  apply earlier_same in Hearlier.
  assert (Hsame : all_images earlier = all_images (result_chars s)).
  { unfold all_images. rewrite (Forall2_same_images _ _ Hearlier). reflexivity. }
  cbn [images_start is_images is_avatar_files is_image_config app] in *.
  unfold catalog_ok.
  cbn [result_chars avatar_files image_config].
  rewrite all_images_snoc, Hsame. cbn [character_of ch_images]. rewrite Hnames.
  split; [|split; [|split; [|split; [|split]]]].
  - apply List.NoDup_app; [exact Hnd| |].
    + apply (Permutation_NoDup (l := names)); [|exact Hnd'].
      symmetry. apply sorted_by_Permutation.
    + intros n Hold Hnew. apply (proj1 (in_sorted _ _)) in Hnew.
      apply Hkeys in Hold. rewrite (Hfresh n Hnew) in Hold.
      destruct Hold; discriminate.
  - intros n. rewrite in_app_iff, in_sorted.
    destruct (in_dec (fun a b : str => decide (a = b)) n names) as [Hn|Hn].
    + destruct (Hin n Hn) as (_ & img & _ & _ & _ & _ & ->).
      split; [auto | eauto].
    + rewrite (Hout n Hn), Hkeys. tauto.
  - intros n p Hp.
    destruct (in_dec (fun a b : str => decide (a = b)) n names) as [Hn|Hn].
    + destruct (Hin n Hn) as (Hne & img & Himg & Hx & Hcan & Hdisk & Hav).
      rewrite Hav in Hp. injection Hp as <-.
      split; [exact Hne|]. split; [exact Hdisk|]. exists img.
      split; [|reflexivity]. apply reference_of_snoc. right.
      split; [exact Himg | split; assumption].
    + rewrite (Hout n Hn) in Hp.
      destruct (Hsound n p Hp) as (Hne & Hdisk & img & Href & ->).
      split; [exact Hne|]. split; [exact Hdisk|]. exists img.
      split; [apply reference_of_snoc; left; exact Href | reflexivity].
  - intros img n Href. apply reference_of_snoc in Href as [Href|[Himg [Hx Hcan]]].
    + specialize (Hcompl img n Href).
      destruct (in_dec (fun a b : str => decide (a = b)) n names) as [Hn|Hn].
      * rewrite (Hfresh n Hn) in Hcompl. discriminate.
      * rewrite (Hout n Hn). exact Hcompl.
    + destruct (Hall img Himg Hx) as (n' & Hn' & _ & Hav).
      assert (n' = n) as -> by congruence. exact Hav.
  - intros p v Hp. destruct (Hconf' p v Hp) as [Hp0|(-> & img & Himg & Hx & Hend & ->)].
    + destruct (Hconf p v Hp0) as (-> & img & n & Href & Hend & ->).
      split; [reflexivity|]. exists img, n.
      split; [apply reference_of_snoc; left; exact Href | auto].
    + split; [reflexivity|].
      destruct (Hall img Himg Hx) as (n & Hn & _).
      exists img, n. split; [|auto].
      apply reference_of_snoc. right. split; [exact Himg | split; assumption].
  - intros img n Href Hend.
    apply reference_of_snoc in Href as [Href|[Himg [Hx Hcan]]].
    + apply Hkeep. apply (Hcoll img n Href Hend).
    + apply Hcoll'; assumption.
Qed.

Lemma loop_catalog E inp s :
  get_chars_loop E inp = Ok s -> catalog_ok E inp (char_data inp) s.
Proof.
  unfold get_chars_loop.
  apply (for_each_prefix_invariant (char_step E inp) (catalog_ok E inp)).
  - unfold catalog_ok, reference_of. simpl.
    split; [constructor|]. split.
    { intros n. rewrite lookup_empty. split; [intros [? ?]; discriminate | intros []]. }
    split; [intros n p Hp; rewrite lookup_empty in Hp; discriminate|].
    split; [intros img n (d & [] & _)|].
    split; [intros p v Hp; rewrite lookup_empty in Hp; discriminate|].
    intros img n (d & [] & _).
  - intros pre x s0 s1. apply char_step_catalog.
Qed.

Lemma Forall2_matches_same E inp ds chars chars' :
  Forall2 (character_matches E inp) ds chars ->
  Forall2 same_but_names chars chars' ->
  Forall2 (character_matches E inp) ds chars'.
Proof.
  intros H. revert chars'. induction H as [|d c ds chars Hdc _ IH];
    intros chars' Hsame; inversion Hsame as [|? c' ? rest Hcc' Hrest]; subst;
    constructor; [|apply IH, Hrest].
  destruct Hdc as (H1 & H2 & H3 & H4).
  destruct Hcc' as (S1 & S2 & S3 & S4 & S5).
  unfold character_matches. rewrite S1, S3, S4, S5. auto.
Qed.

Lemma char_step_matches E inp pre d s s' :
  Forall2 (character_matches E inp) pre (result_chars s) ->
  char_step E inp s d = Ok s' ->
  Forall2 (character_matches E inp) (pre ++ [d]) (result_chars s').
Proof.
  intros Hpre H.
  apply char_step_Ok in H
    as (dt & T' & trans & ev & sn & imgs & earlier & Hdt & Hmerge & Hshort & Himgs & Hearlier & ->).
  apply earlier_same in Hearlier.
  cbn [result_chars]. apply Forall2_app;
    [apply (Forall2_matches_same _ _ _ _ _ Hpre Hearlier)|].
  constructor; [|constructor].
  apply image_loop_catalog in Himgs as (names & Hnames & Hcan & _).
  cbn [images_start is_images app] in Hnames.
  unfold character_matches, character_of; cbn.
  split; [reflexivity|]. split; [reflexivity|]. split; [reflexivity|].
  exists names. rewrite Hnames. split; [reflexivity | exact Hcan].
Qed.

Lemma loop_matches E inp s :
  get_chars_loop E inp = Ok s ->
  Forall2 (character_matches E inp) (char_data inp) (result_chars s).
Proof.
  unfold get_chars_loop.
  apply (for_each_prefix_invariant (char_step E inp)
           (fun pre s => Forall2 (character_matches E inp) pre (result_chars s))).
  - constructor.
  - intros pre x s0 s1. apply char_step_matches.
Qed.

(** What is returned is what the loop collected. *)
Lemma get_chars_returned E inp chars avatar config :
  returned (get_chars E inp) = Ok (chars, avatar, config) ->
  exists s,
    get_chars_loop E inp = Ok s
    /\ chars = result_chars s /\ avatar = avatar_files s
    /\ config = image_config s
    /\ get_chars E inp = finish E s.
Proof.
  unfold get_chars. destruct (get_chars_loop E inp) as [s|e]; [|discriminate].
  intros H. exists s. split; [reflexivity|].
  unfold finish in H.
  destruct (write_report (chars_at (chars_without_school s) (result_chars s)))
    as [text [e|]]; [discriminate|].
  destruct (write_report (chars_at (chars_without_club s) (result_chars s)))
    as [text' [e|]]; [discriminate|].
  simpl in H. injection H as <- <- <-. auto.
Qed.

Lemma Forall2_In_l {A B} (R : A -> B -> Prop) l l' x :
  Forall2 R l l' -> In x l -> exists y, In y l' /\ R x y.
Proof.
  induction 1 as [|a b l l' Hab _ IH]; intros Hx; [destruct Hx|].
  destruct Hx as [<-|Hx].
  - exists b. split; [left; reflexivity | exact Hab].
  - destruct (IH Hx) as (y & Hy & Hxy). exists y. split; [right|]; assumption.
Qed.

Lemma Forall2_In_r {A B} (R : A -> B -> Prop) l l' y :
  Forall2 R l l' -> In y l' -> exists x, In x l /\ R x y.
Proof.
  induction 1 as [|a b l l' Hab _ IH]; intros Hy; [destruct Hy|].
  destruct Hy as [<-|Hy].
  - exists a. split; [left; reflexivity | exact Hab].
  - destruct (IH Hy) as (x & Hx & Hxy). exists x. split; [right|]; assumption.
Qed.

Lemma Forall2_map_eq {A B C} (f : A -> C) (g : B -> C) (R : A -> B -> Prop) l l' :
  (forall a b, R a b -> g b = f a) ->
  Forall2 R l l' -> List.map g l' = List.map f l.
Proof.
  intros HR. induction 1 as [|a b l l' Hab _ IH]; simpl; [reflexivity|].
  rewrite (HR _ _ Hab), IH. reflexivity.
Qed.

(** X5: in what [get_chars] returns, no image name occurs twice, within a
    character or across characters; the keys of [avatar_files] are the
    image names of the characters; and every entry of [avatar_files] has
    a name that is not empty and the path, found on disk, of an image
    reference of a character record that is not excluded and has that
    canonical name. *)
Theorem returned_image_names_unique_and_registered (E : externals)
  (inp : inputs) chars avatar config :
  returned (get_chars E inp) = Ok (chars, avatar, config) ->
  List.NoDup (all_images chars)
  /\ (forall n, is_Some (avatar !! n) <-> In n (all_images chars))
  /\ (forall n p, avatar !! n = Some p ->
        n <> [] /\ disk inp p = true
        /\ exists img, reference_of inp (char_data inp) img n
                       /\ p = img_file E img).
Proof.
  intros H. apply get_chars_returned in H as (s & Hloop & -> & -> & -> & _).
  destruct (loop_catalog _ _ _ Hloop) as (Hnd & Hkeys & Hsound & _).
  auto.
Qed.

Lemma returned_image_names_unique_and_registered_witness :
  all_images (returned_characters (get_chars ascii_externals with_excluded_portrait))
  = [lit "Hina"; lit "Hina_Collection"]
  /\ List.NoDup
       (all_images
          (returned_characters (get_chars ascii_externals with_excluded_portrait)))
  /\ (forall n,
        is_Some (returned_avatar_files
                   (get_chars ascii_externals with_excluded_portrait) !! n)
        <-> In n (all_images
                    (returned_characters
                       (get_chars ascii_externals with_excluded_portrait)))).
Proof.
  assert (Hok : succeeded (returned (get_chars ascii_externals
                                       with_excluded_portrait)) = true)
    by (vm_compute; reflexivity).
  split; [vm_compute; reflexivity|].
  unfold returned_characters, returned_avatar_files.
  destruct (returned (get_chars ascii_externals with_excluded_portrait))
    as [[[chars avatar] config]|e] eqn:H; [|discriminate Hok].
  destruct (returned_image_names_unique_and_registered _ _ _ _ _ H)
    as (Hnd & Hkeys & _).
  split; [exact Hnd | exact Hkeys].
Defined.

(** X6: when [get_chars] returns, every image reference of every character
    record that is not excluded has a canonical name, [avatar_files] maps
    that name to the path of the reference, and a character with the id of
    the record has the name among its images. *)
Theorem every_kept_reference_is_registered (E : externals) (inp : inputs)
  chars avatar config (d : CharData) (img : str) :
  returned (get_chars E inp) = Ok (chars, avatar, config) ->
  In d (char_data inp) -> In img (image_files d) ->
  basename img ∉ excluded_portraits inp ->
  exists n,
    resolves_to inp img n
    /\ avatar !! n = Some (img_file E img)
    /\ exists c, In c chars /\ ch_id c = cd_id d /\ In n (ch_images c).
Proof.
  intros H Hd Himg Hx.
  apply get_chars_returned in H as (s & Hloop & -> & -> & -> & _).
  destruct (loop_catalog _ _ _ Hloop) as (_ & _ & _ & Hcompl & _).
  destruct (Forall2_In_l _ _ _ _ (loop_matches _ _ _ Hloop) Hd)
    as (c & Hc & Hid & _ & _ & (names & Himgs & Hcan)).
  assert (Hkept : In img (kept_images inp (image_files d))).
  { apply filter_In. split; [exact Himg|].
    rewrite (bool_decide_eq_false_2 _ Hx). reflexivity. }
  destruct (Forall2_In_l _ _ _ _ Hcan Hkept) as (n & Hn & Hcn).
  exists n. split; [split; assumption|]. split.
  - apply Hcompl. exists d. split; [exact Hd|]. split; [exact Himg|].
    split; assumption.
  - exists c. split; [exact Hc|]. split; [exact Hid|].
    rewrite Himgs. apply in_sorted. exact Hn.
Qed.

Lemma every_kept_reference_is_registered_witness :
  exists n,
    resolves_to with_excluded_portrait
      (lit "Student/Hina/Portrait_Hina_Collection") n
    /\ returned_avatar_files (get_chars ascii_externals with_excluded_portrait)
         !! n
       = Some (lit "assets/Student/Hina/Portrait_Hina_Collection.png").
Proof.
  assert (Hok : succeeded (returned (get_chars ascii_externals
                                       with_excluded_portrait)) = true)
    by (vm_compute; reflexivity).
  unfold returned_avatar_files.
  destruct (returned (get_chars ascii_externals with_excluded_portrait))
    as [[[chars avatar] config]|e] eqn:H; [|discriminate Hok].
  destruct (every_kept_reference_is_registered ascii_externals
              with_excluded_portrait chars avatar config
              (char_of "hina" "" "Hina" "" ""
                 ["Student/Hina/Portrait_Hina"%string;
                  "Student/Hina/Portrait_Bad"%string;
                  "Student/Hina/Portrait_Hina_Collection"%string])
              (lit "Student/Hina/Portrait_Hina_Collection") H)
    as (n & Hres & Hav & _).
  - left; reflexivity.
  - right; right; left; reflexivity.
  - apply (bool_decide_eq_false_1 _). vm_compute. reflexivity.
  - exists n. split; [exact Hres | exact Hav].
Defined.

(** X7: when [get_chars] returns, [image_config] has an entry for a path
    exactly when the path is that of an image reference that is not
    excluded and whose basename ends in "_Collection", and every entry is
    the mapping of "h_crop" to "top". *)
Theorem image_config_marks_collections (E : externals) (inp : inputs)
  chars avatar config :
  returned (get_chars E inp) = Ok (chars, avatar, config) ->
  (forall p v, config !! p = Some v ->
     v = CROP_TOP
     /\ exists img n, reference_of inp (char_data inp) img n
                      /\ PyStr.endswith COLLECTION (basename img) = true
                      /\ p = img_file E img)
  /\ (forall img n, reference_of inp (char_data inp) img n ->
        PyStr.endswith COLLECTION (basename img) = true ->
        config !! img_file E img = Some CROP_TOP).
Proof.
  intros H. apply get_chars_returned in H as (s & Hloop & -> & -> & -> & _).
  destruct (loop_catalog _ _ _ Hloop) as (_ & _ & _ & _ & Hconf & Hcoll).
  auto.
Qed.

Lemma image_config_marks_collections_witness :
  returned_image_config (get_chars ascii_externals with_excluded_portrait)
    !! lit "assets/Student/Hina/Portrait_Hina_Collection.png"
  = Some CROP_TOP
  /\ returned_image_config (get_chars ascii_externals with_excluded_portrait)
       !! lit "assets/Student/Hina/Portrait_Hina.png"
     = None.
Proof.
  assert (Hok : succeeded (returned (get_chars ascii_externals
                                       with_excluded_portrait)) = true)
    by (vm_compute; reflexivity).
  split; [|vm_compute; reflexivity].
  unfold returned_image_config.
  destruct (returned (get_chars ascii_externals with_excluded_portrait))
    as [[[chars avatar] config]|e] eqn:H; [|discriminate Hok].
  destruct (image_config_marks_collections _ _ _ _ _ H) as (_ & Hcoll).
  apply (Hcoll (lit "Student/Hina/Portrait_Hina_Collection")
           (lit "Hina_Collection")); [|reflexivity].
  exists (char_of "hina" "" "Hina" "" ""
            ["Student/Hina/Portrait_Hina"%string;
             "Student/Hina/Portrait_Bad"%string;
             "Student/Hina/Portrait_Hina_Collection"%string]).
  split; [left; reflexivity|]. split; [right; right; left; reflexivity|].
  split; [|reflexivity].
  apply (bool_decide_eq_false_1 _). vm_compute. reflexivity.
Defined.

Lemma in_groups_of cid groups g :
  In g (groups_of cid groups)
  <-> exists gp, In gp groups /\ gd_id gp = g /\ cid ∈ members gp.
Proof.
  unfold groups_of. rewrite in_map_iff. split.
  - intros (gp & Hg & Hin). apply filter_In in Hin as [Hin Hm].
    apply bool_decide_eq_true in Hm. eauto.
  - intros (gp & Hin & Hg & Hm). exists gp. split; [exact Hg|].
    apply filter_In. split; [exact Hin | apply bool_decide_eq_true; exact Hm].
Qed.

(** X8: [get_chars] returns one character for every character record, in
    the order of the records and with their ids; each has no relations,
    the ids of exactly the clubs and schools that list its id, in
    ascending order, and its image names in ascending order. *)
Theorem returned_characters_follow_records (E : externals) (inp : inputs)
  chars avatar config :
  returned (get_chars E inp) = Ok (chars, avatar, config) ->
  List.map ch_id chars = List.map cd_id (char_data inp)
  /\ Forall (character_shape_ok inp) chars.
Proof.
  intros H. apply get_chars_returned in H as (s & Hloop & -> & -> & -> & _).
  pose proof (loop_matches _ _ _ Hloop) as Hm. split.
  - apply (Forall2_map_eq cd_id ch_id _ _ _ (fun a b H => proj1 H) Hm).
  - apply List.Forall_forall. intros c Hc.
    destruct (Forall2_In_r _ _ _ _ Hm Hc)
      as (d & _ & Hid & Hrel & Hgroups & (names & Himgs & _)).
    unfold character_shape_ok. split; [exact Hrel|].
    rewrite Hgroups, Himgs, Hid. unfold sorted.
    split; [apply sorted_by_Sorted|]. split; [|apply sorted_by_Sorted].
    intros g. rewrite <- in_groups_of. fold (sorted (groups_of (cd_id d)
      (club_data inp ++ school_data inp))). apply in_sorted.
Qed.

Lemma returned_characters_follow_records_witness :
  List.map ch_id (returned_characters (get_chars ascii_externals one_without_school))
  = [lit "hina"; lit "sora"]
  /\ List.map ch_groups
       (returned_characters (get_chars ascii_externals one_without_school))
     = [[lit "gehenna"; lit "prefect"]; [lit "angels24"; lit "prefect"]]
  /\ Forall (character_shape_ok one_without_school)
       (returned_characters (get_chars ascii_externals one_without_school)).
Proof.
  assert (Hok : succeeded (returned (get_chars ascii_externals
                                       one_without_school)) = true)
    by (vm_compute; reflexivity).
  split; [|split; [vm_compute; reflexivity|]];
    unfold returned_characters;
    (destruct (returned (get_chars ascii_externals one_without_school))
       as [[[chars avatar] config]|e] eqn:H; [|discriminate Hok]);
    destruct (returned_characters_follow_records _ _ _ _ _ H) as (Hids & Hshape).
  - exact Hids.
  - exact Hshape.
Defined.

(** X9: every returned character has the name mapping of the entry that
    the table has for its id when the loop ends, so that characters of one
    id have the same names: also a character that was built before a
    later record of its id made lines 92-93 assign to the mapping.  That
    mapping has every required language and, when "ja" is required, a
    Japanese name that can be read.  The short names of the last character
    of an id are, for every required language, the explicit short name of
    the entry where there is one that is not empty, and else the last
    piece of the display name between spaces; the explicit short names
    can be read as they stand. *)
Theorem returned_characters_have_names (E : externals) (inp : inputs)
  chars avatar config :
  returned (get_chars E inp) = Ok (chars, avatar, config) ->
  exists s,
    get_chars_loop E inp = Ok s
    /\ forall pre c post,
         chars = pre ++ c :: post ->
         exists t,
           ODict.get (ch_id c) (translations s) = Some t
           /\ ch_names c = cl_name t
           /\ (forall l, In l (all_langs E) -> is_Some (ch_names c !! l))
           /\ (In LANG_JA (all_langs E) -> readable (ch_names c) LANG_JA)
           /\ (~ In (ch_id c) (List.map ch_id post) ->
               all_plain (default ∅ (cl_short_name t))
               /\ forall l, In l (all_langs E) ->
                    ch_short_names c !! l
                    = resolved_short_name (ch_names c)
                        (default ∅ (cl_short_name t)) l).
Proof.
  intros H. apply get_chars_returned in H as (s & Hloop & -> & -> & -> & _).
  exists s. split; [exact Hloop|].
  intros pre c post Hsplit.
  destruct (loop_names _ _ _ Hloop) as [Hnames _].
  assert (Hc : result_chars s !! length pre = Some c).
  { rewrite Hsplit. apply list_lookup_middle. reflexivity. }
  destruct (Hnames _ _ Hc) as (_ & t & Hget & Hn & Hall & Hja & Hlast).
  exists t. rewrite Hn.
  split; [exact Hget|]. split; [reflexivity|]. split; [exact Hall|].
  split; [exact Hja|].
  intros Hnone.
  assert (Hshort : resolve_short_names E t = Ok (ch_short_names c)).
  { apply Hlast. intros j c' Hj Hc' Hid. apply Hnone. rewrite <- Hid.
    apply in_map. rewrite Hsplit in Hc'.
    rewrite lookup_app_r in Hc' by lia.
    destruct (j - length pre)%nat as [|k] eqn:Hk; [lia|].
    simpl in Hc'. apply list_elem_of_In.
    apply (list_elem_of_lookup_2 _ _ _ Hc'). }
  apply resolve_short_names_Ok in Hshort as [Hp Hrun].
  split; [exact Hp|]. intros l Hl.
  destruct (short_name_loop_total (cl_name t) (all_langs E)
              (default ∅ (cl_short_name t))) as (sn & Hrun' & Hin & _).
  { apply (short_name_loop_Ok _ _ _ _ Hrun). }
  assert (sn = ch_short_names c) as -> by congruence.
  apply Hin, Hl.
Qed.

Lemma returned_characters_have_names_witness :
  List.map (fun c => (ch_id c, ch_names c !! LANG_JA, ch_short_names c !! LANG_JA))
    (returned_characters (get_chars ascii_externals same_id_twice))
  = [(lit "hina", Some (lit "Hina2"), Some (lit "Hina"));
     (lit "hina", Some (lit "Hina2"), Some (lit "Hina2"))]
  /\ Forall (fun c => forall l, In l FIVE_LANGS -> is_Some (ch_names c !! l))
       (returned_characters (get_chars ascii_externals same_id_twice)).
Proof.
  assert (Hok : succeeded (returned (get_chars ascii_externals
                                       same_id_twice)) = true)
    by (vm_compute; reflexivity).
  split; [vm_compute; reflexivity|].
  unfold returned_characters.
  destruct (returned (get_chars ascii_externals same_id_twice))
    as [[[chars avatar] config]|e] eqn:H; [|discriminate Hok].
  destruct (returned_characters_have_names _ _ _ _ _ H) as (s & _ & Hall).
  apply List.Forall_forall. intros c Hc.
  apply List.in_split in Hc as (pre & post & Hsplit).
  destruct (Hall pre c post Hsplit) as (t & _ & _ & Hlangs & _).
  exact Hlangs.
Defined.

(** ** The reports *)

Lemma write_report_text chars text :
  write_report chars = (text, None) ->
  text = flat_map report_text chars
  /\ Forall (fun c => ch_images c <> []) chars.
Proof.
  revert text; induction chars as [|c chars IH]; intros text H; simpl in H.
  - injection H as <-. split; [reflexivity | constructor].
  - destruct (report_entry c) as [entry|e] eqn:Hentry; [|discriminate].
    unfold report_entry in Hentry. inv_bind Hentry. rename a into ja.
    apply conf_getitem_Ok in Ha as [Hja _].
    destruct (ch_images c) as [|img imgs] eqn:Himg; [discriminate|].
    simpl in Hentry. injection Hentry as <-.
    destruct (write_report chars) as [more [e|]]; [discriminate|].
    injection H as <-. destruct (IH more eq_refl) as [-> Hall].
    split.
    + cbn [flat_map]. f_equal. unfold report_text. rewrite Hja, Himg.
      reflexivity.
    + constructor; [rewrite Himg; discriminate | exact Hall].
Qed.

Lemma Sorted_hd_least (l : list str) n :
  Sorted (key_le (fun s => s)) l -> In n l ->
  PyStr.leb (hd [] l) n = true.
Proof.
  intros Hs Hn. apply Sorted_StronglySorted in Hs;
    [|intros x y z; unfold key_le; apply leb_trans].
  destruct l as [|a l]; [destruct Hn|]. simpl.
  destruct Hn as [<-|Hn]; [apply leb_refl|].
  apply StronglySorted_inv in Hs as [_ Hall].
  rewrite List.Forall_forall in Hall. apply (Hall n Hn).
Qed.

(** X10: when [get_chars] returns, the "no school" report holds one entry
    for every returned character that no school lists, in the order of the
    characters, and the "no club" report likewise for clubs; an entry shows
    the id, the Japanese name and the first image name, and that image
    name is the least of the character's image names. *)
Theorem reports_list_characters_without_group (E : externals) (inp : inputs)
  chars avatar config :
  returned (get_chars E inp) = Ok (chars, avatar, config) ->
  noschool_written (get_chars E inp)
  = Some (flat_map report_text
            (List.filter (in_no_group (school_data inp)) chars))
  /\ noclub_written (get_chars E inp)
     = Some (flat_map report_text
               (List.filter (in_no_group (club_data inp)) chars))
  /\ forall c n,
       In c chars ->
       in_no_group (school_data inp) c = true
       \/ in_no_group (club_data inp) c = true ->
       ch_images c <> []
       /\ (In n (ch_images c) -> PyStr.leb (hd [] (ch_images c)) n = true).
Proof.
  intros H. unfold get_chars in *.
  destruct (get_chars_loop E inp) as [s|e] eqn:Hloop; [|discriminate].
  destruct (loop_report_lists _ _ _ Hloop) as (Hschool & Hclub).
  pose proof (loop_matches _ _ _ Hloop) as Hm.
  unfold finish in *. rewrite Hschool, Hclub in *.
  destruct (write_report (List.filter (in_no_group (school_data inp))
                            (result_chars s))) as [text [e|]] eqn:Hs;
    [discriminate|].
  destruct (write_report (List.filter (in_no_group (club_data inp))
                            (result_chars s))) as [text' [e|]] eqn:Hc;
    [discriminate|].
  simpl in H. injection H as <- <- <-. simpl.
  apply write_report_text in Hs as [-> Hs'].
  apply write_report_text in Hc as [-> Hc'].
  split; [reflexivity|]. split; [reflexivity|].
  intros c n Hin Hgroup. split.
  - rewrite !List.Forall_forall in *.
    destruct Hgroup as [Hg|Hg]; [apply Hs' | apply Hc'];
      apply filter_In; auto.
  - apply Sorted_hd_least.
    destruct (Forall2_In_r _ _ _ _ Hm Hin)
      as (d & _ & _ & _ & _ & (names & -> & _)).
    apply sorted_by_Sorted.
Qed.

Lemma reports_list_characters_without_group_witness :
  noschool_written (get_chars ascii_externals one_without_school)
  = Some (flat_map report_text
            (List.filter (in_no_group (school_data one_without_school))
               (returned_characters
                  (get_chars ascii_externals one_without_school))))
  /\ noschool_written (get_chars ascii_externals one_without_school)
     = Some (lit "sora" ++ [NL] ++ lit "  Sora" ++ [NL] ++ lit "  Sora"
               ++ [NL; NL])
  /\ noclub_written (get_chars ascii_externals one_without_school) = Some [].
Proof.
  assert (Hok : succeeded (returned (get_chars ascii_externals
                                       one_without_school)) = true)
    by (vm_compute; reflexivity).
  split; [|split; vm_compute; reflexivity].
  unfold returned_characters.
  destruct (returned (get_chars ascii_externals one_without_school))
    as [[[chars avatar] config]|e] eqn:H; [|discriminate Hok].
  apply (reports_list_characters_without_group _ _ _ _ _ H).
Defined.

(** ** The written store *)














(** ** A stored entry without Japanese name *)

Lemma first_with_id (ds : list CharData) k :
  In k (List.map cd_id ds) ->
  exists pre d post,
    ds = pre ++ d :: post /\ cd_id d = k /\ ~ In k (List.map cd_id pre).
Proof.
  induction ds as [|d ds IH]; intros Hk; [destruct Hk|].
  destruct (decide (cd_id d = k)) as [Heq|Hne].
  - exists [], d, ds. auto.
  - destruct Hk as [?|Hk]; [contradiction|].
    destruct (IH Hk) as (pre & d' & post & -> & Hid & Hpre).
    exists (d :: pre), d', post. split; [reflexivity|]. split; [exact Hid|].
    intros [?|?]; contradiction.
Qed.

(** X13: a stored entry without "ja" stops the run.  The pass for a
    character that has such an entry reads the derived Japanese name
    first (line 88): when that name can be read the pass raises
    [KeyError] for "ja" (line 90), and when it cannot the pass raises
    what reading it raises.  A run whose store has such an entry for the
    id of a character record ends with an exception inside the loop, with
    no file written. *)
Theorem stored_entry_without_ja_aborts (E : externals) (inp : inputs)
  (data : CharData) (old : CharLangData) :
  In data (char_data inp) ->
  ODict.get (cd_id data) (translations_of (char_yaml inp)) = Some old ->
  cl_name old !! LANG_JA = None ->
  aborted (get_chars E inp)
  /\ forall s default_trans,
       get_default_lang_data E data = Ok default_trans ->
       ODict.get (cd_id data) (translations s) = Some old ->
       (readable (cl_name default_trans) LANG_JA ->
        char_step E inp s data = Raise (KeyError LANG_JA))
       /\ (forall e,
             conf_getitem (cl_name default_trans) LANG_JA = Raise e ->
             char_step E inp s data = Raise e).
Proof.
  intros Hdata Hold Hja. split.
  - apply get_chars_aborted.
    destruct (Ok_or_raises (get_chars_loop E inp)) as [[sF Hrun]|Hr];
      [|exact Hr].
    exfalso. unfold get_chars_loop in Hrun.
    destruct (first_with_id (char_data inp) (cd_id data))
      as (pre & d & post & Hsplit & Hid & Hpre); [apply in_map; exact Hdata|].
    rewrite Hsplit in Hrun.
    apply loop_reaches in Hrun as (s0 & s1 & Hrun0 & Hstep & _).
    pose proof (loop_get_other E inp pre (initial_state inp) s0 _
                  (translations_of_wf _) Hpre Hrun0) as Hsame.
    cbn [initial_state translations] in Hsame. rewrite Hold in Hsame.
    apply char_step_Ok in Hstep
      as (dt & T' & trans & ev & sn & imgs & earlier & _ & Hmerge & _).
    rewrite Hid in Hmerge.
    apply merge_translation_Ok in Hmerge
      as (_ & [(Hnone & _)|(old' & t1 & r & b & Hold' & Hr & _)]);
      [congruence|].
    assert (old' = old) as -> by congruence.
    apply refresh_names_Ok in Hr as (_ & _ & ja & dja & Hja' & _).
    congruence.
  - intros s dt Hdt Hget. split.
    + intros (dja & Hdja & Hp). unfold char_step. rewrite Hdt. simpl.
      unfold merge_translation. rewrite Hget. unfold refresh_names.
      rewrite (conf_getitem_plain _ _ _ Hdja Hp). simpl.
      rewrite (conf_getitem_None _ _ Hja). reflexivity.
    + intros e He. unfold char_step. rewrite Hdt. simpl.
      rewrite (merge_translation_unreadable _ _ _ _ _ _ Hget He). reflexivity.
Qed.

Lemma stored_entry_without_ja_aborts_witness :
  aborted (get_chars ascii_externals store_without_ja)
  /\ returned (get_chars ascii_externals store_without_ja)
     = Raise (KeyError LANG_JA).
Proof.
  split; [|reflexivity].
  eapply (stored_entry_without_ja_aborts ascii_externals store_without_ja).
  - left; reflexivity.
  - reflexivity.
  - reflexivity.
Defined.

(** ** Short names: when the resolution goes through *)




(** ** The order of the written store *)









(** ** [get_filters]: when it returns, and on what it depends *)












(** ** [get_filters] and the order of the records *)

Lemma NoDup_map_inj {A} (key : A -> str) (l : list A) x y :
  List.NoDup (List.map key l) -> In x l -> In y l -> key x = key y -> x = y.
Proof.
  induction l as [|a l IH]; intros Hnd Hx Hy Heq; [destruct Hx|].
  simpl in Hnd. inversion Hnd as [|? ? Ha Hnd']; subst.
  destruct Hx as [<-|Hx], Hy as [<-|Hy].
  - reflexivity.
  - exfalso. apply Ha. rewrite Heq. apply in_map. exact Hy.
  - exfalso. apply Ha. rewrite <- Heq. apply in_map. exact Hx.
  - apply IH; assumption.
Qed.

Lemma strongly_sorted_unique {A} (key : A -> str) (l1 l2 : list A) :
  StronglySorted (key_le key) l1 -> StronglySorted (key_le key) l2 ->
  Permutation l1 l2 ->
  (forall x y, In x l1 -> In y l1 -> key x = key y -> x = y) ->
  l1 = l2.
Proof.
  revert l2; induction l1 as [|a t1 IH]; intros l2 H1 H2 Hperm Hinj.
  - apply Permutation_nil in Hperm. congruence.
  - destruct l2 as [|b t2];
      [symmetry in Hperm; apply Permutation_nil in Hperm; discriminate|].
    apply StronglySorted_inv in H1 as [Ht1 Ha].
    apply StronglySorted_inv in H2 as [Ht2 Hb].
    rewrite List.Forall_forall in Ha, Hb.
    assert (a = b) as <-.
    { assert (Hin1 : In a (b :: t2))
        by (eapply Permutation_in; [exact Hperm | left; reflexivity]).
      assert (Hin2 : In b (a :: t1))
        by (eapply Permutation_in; [symmetry; exact Hperm | left; reflexivity]).
      destruct Hin1 as [->|Hin1]; [reflexivity|].
      destruct Hin2 as [->|Hin2]; [reflexivity|].
      apply Hinj; [left; reflexivity | right; exact Hin2|].
      apply leb_antisym; [apply (Ha b Hin2) | apply (Hb a Hin1)]. }
    f_equal. apply IH; try assumption.
    + apply (Permutation_cons_inv Hperm).
    + intros x y Hx Hy. apply Hinj; right; assumption.
Qed.

Lemma sorted_by_unique {A} (key : A -> str) (l l' : list A) :
  Permutation l l' -> List.NoDup (List.map key l) ->
  sorted_by key l = sorted_by key l'.
Proof.
  intros Hperm Hnd. apply (strongly_sorted_unique key).
  - apply sorted_by_StronglySorted.
  - apply sorted_by_StronglySorted.
  - rewrite (sorted_by_Permutation key l), Hperm.
    symmetry. apply sorted_by_Permutation.
  - intros x y Hx Hy.
    apply (NoDup_map_inj key l); [exact Hnd| |].
    + eapply Permutation_in; [apply sorted_by_Permutation | exact Hx].
    + eapply Permutation_in; [apply sorted_by_Permutation | exact Hy].
Qed.

(** X17: when the ids of the records of each file are pairwise distinct,
    what [get_filters] returns or raises does not depend on the order of
    the records in the two files. *)
Theorem get_filters_ignores_record_order (E : externals)
  (fi fi' : filter_inputs) :
  group_types fi = group_types fi' ->
  (forall key, In key [SCHOOLS; CLUBS] ->
     Permutation (lang_groups fi key) (lang_groups fi' key)
     /\ List.NoDup (List.map gl_id (lang_groups fi key))) ->
  get_filters E fi = get_filters E fi'.
Proof.
  intros Htypes Hgroups.
  assert (Hstep : forall key res, In key [SCHOOLS; CLUBS] ->
            filter_step E fi res key = filter_step E fi' res key).
  { intros key res Hkey. unfold filter_step.
    destruct (Hgroups key Hkey) as [Hperm Hnd].
    rewrite (sorted_by_unique gl_id _ _ Hperm Hnd), Htypes. reflexivity. }
  unfold get_filters. cbn [for_each].
  rewrite (Hstep SCHOOLS [] (in_eq _ _)).
  destruct (filter_step E fi' [] SCHOOLS) as [r1|e1]; simpl; [|reflexivity].
  rewrite (Hstep CLUBS r1 (in_cons _ _ _ (in_eq _ _))). reflexivity.
Qed.

Lemma get_filters_ignores_record_order_witness :
  get_filters ascii_externals demo_filter_inputs
  = get_filters ascii_externals demo_filter_inputs_reordered.
Proof.
  apply get_filters_ignores_record_order.
  - reflexivity.
  - intros key [<-|[<-|[]]]; simpl.
    + split; [apply perm_swap|].
      repeat constructor; simpl; intuition discriminate.
    + split; [reflexivity|].
      repeat constructor; simpl; intuition discriminate.
Defined.

(** ** [get_stamps] *)

Lemma insert_by_int_Permutation {A} (key : A -> Z) x l :
  Permutation (insert_by_int key x l) (x :: l).
Proof.
  induction l as [|y l IH]; simpl; [reflexivity|].
  destruct (key x <=? key y)%Z; [reflexivity|].
  rewrite IH. apply perm_swap.
Qed.

Lemma sorted_by_int_Permutation {A} (key : A -> Z) l :
  Permutation (sorted_by_int key l) l.
Proof.
  induction l as [|x l IH]; simpl; [reflexivity|].
  rewrite insert_by_int_Permutation. constructor. exact IH.
Qed.

Lemma insert_by_int_Sorted {A} (key : A -> Z) x l :
  Sorted (fun a b => (key a <= key b)%Z) l ->
  Sorted (fun a b => (key a <= key b)%Z) (insert_by_int key x l).
Proof.
  induction 1 as [|y l Hl IH Hy]; simpl; [repeat constructor|].
  destruct (Z.leb_spec (key x) (key y)) as [Hxy|Hxy].
  - constructor; [constructor; assumption | constructor; exact Hxy].
  - constructor; [exact IH|].
    destruct l as [|z l]; simpl; [constructor; lia|].
    destruct (key x <=? key z)%Z; constructor; [lia|].
    inversion Hy; assumption.
Qed.

Lemma sorted_by_int_Sorted {A} (key : A -> Z) l :
  Sorted (fun a b => (key a <= key b)%Z) (sorted_by_int key l).
Proof.
  induction l as [|x l IH]; simpl; [constructor|].
  apply insert_by_int_Sorted; exact IH.
Qed.

Lemma Sorted_keyed py_int (l : list (Z * str)) :
  Sorted (fun a b => (a.1 <= b.1)%Z) l ->
  Forall (fun p => stamp_key py_int p.2 = Ok p.1) l ->
  Sorted (stamp_le py_int) (List.map snd l).
Proof.
  induction 1 as [|p l Hl IH Hp]; intros Hall; simpl; [constructor|].
  inversion Hall as [|? ? Hkp Hall']; subst.
  constructor; [apply IH; exact Hall'|].
  destruct Hp as [|q l Hpq]; simpl; constructor.
  inversion Hall' as [|? ? Hkq _]; subst.
  exists p.1, q.1. auto.
Qed.

Lemma in_glob_jp in_root listing p :
  In p (glob_jp in_root listing)
  <-> exists name,
        In name listing /\ p = in_root ++ [SLASH] ++ name
        /\ PyStr.endswith JP_PNG name = true
        /\ PyStr.startswith [DOT] name = false.
Proof.
  unfold glob_jp. rewrite in_map_iff. split.
  - intros (name & <- & Hin). apply filter_In in Hin as [Hin Hp].
    apply andb_true_iff in Hp as [He Hd]. apply negb_true_iff in Hd.
    exists name. auto.
  - intros (name & Hin & -> & He & Hd). exists name. split; [reflexivity|].
    apply filter_In. split; [exact Hin|]. rewrite He, Hd. reflexivity.
Qed.

(** X18: when every file that the pattern matches has a third piece
    between underscores that is an integer, [get_stamps] returns the
    matched files, each once per entry of the directory, in ascending
    order of that integer; what it returns are entries of the stamp
    directory whose name ends in "_Jp.png" and does not begin with a
    dot. *)
Theorem get_stamps_sorted_by_number (E : externals)
  (py_int : str -> option Z) (listing : list str) :
  (forall f, In f (glob_jp (stamps_root E) listing) ->
             exists z, stamp_key py_int f = Ok z) ->
  exists files,
    get_stamps E py_int listing = Ok files
    /\ Permutation files (glob_jp (stamps_root E) listing)
    /\ Sorted (stamp_le py_int) files
    /\ forall p, In p files ->
         exists name,
           In name listing /\ p = stamps_root E ++ [SLASH] ++ name
           /\ PyStr.endswith JP_PNG name = true
           /\ PyStr.startswith [DOT] name = false.
Proof.
  intros Hkeys. unfold get_stamps.
  destruct (map_result_Forall2
              (fun s => k ← stamp_key py_int s; Ok (k, s))
              (fun s p => p.2 = s /\ stamp_key py_int s = Ok p.1)
              (glob_jp (stamps_root E) listing)) as (keyed & Hk & Hall).
  { intros f Hf. destruct (Hkeys f Hf) as [z Hz]. rewrite Hz. simpl.
    exists (z, f). auto. }
  cbn zeta. rewrite Hk. simpl.
  assert (Hsnd : List.map snd keyed = glob_jp (stamps_root E) listing).
  { clear -Hall. induction Hall as [|s p l l' [Hp _] _ IH]; simpl;
      [reflexivity|]. rewrite Hp, IH. reflexivity. }
  assert (Hperm : Permutation (List.map snd (sorted_by_int fst keyed))
                    (glob_jp (stamps_root E) listing)).
  { rewrite <- Hsnd. apply Permutation_map, sorted_by_int_Permutation. }
  eexists. split; [reflexivity|]. split; [exact Hperm|]. split.
  - apply Sorted_keyed; [apply sorted_by_int_Sorted|].
    apply List.Forall_forall. intros p Hp.
    apply (Permutation_in _ (sorted_by_int_Permutation fst keyed)) in Hp.
    destruct (Forall2_In_r _ _ _ _ Hall Hp) as (s & _ & <- & Hs). exact Hs.
  - intros p Hp. apply in_glob_jp.
    eapply Permutation_in; [exact Hperm | exact Hp].
Qed.

Lemma get_stamps_sorted_by_number_witness :
  get_stamps ascii_externals digits_value emoji_listing
  = Ok [lit "assets/UIs/01_Common/31_ClanEmoji/ClanChat_Emoji_9_Jp.png";
        lit "assets/UIs/01_Common/31_ClanEmoji/ClanChat_Emoji_20_Jp.png";
        lit "assets/UIs/01_Common/31_ClanEmoji/ClanChat_Emoji_100_Jp.png"]
  /\ exists files,
       get_stamps ascii_externals digits_value emoji_listing = Ok files
       /\ Sorted (stamp_le digits_value) files.
Proof.
  split; [vm_compute; reflexivity|].
  destruct (get_stamps_sorted_by_number ascii_externals digits_value
              emoji_listing) as (files & Hfiles & _ & Hsorted & _).
  - intros f Hf. vm_compute in Hf.
    destruct Hf as [<-|[<-|[<-|[]]]]; vm_compute; eauto.
  - exists files. split; [exact Hfiles | exact Hsorted].
Defined.

Lemma map_result_Raise_iff {A B} (f : A -> result B) l e :
  map_result f l = Raise e
  <-> exists pre x post,
        l = pre ++ x :: post
        /\ (forall y, In y pre -> exists z, f y = Ok z)
        /\ f x = Raise e.
Proof.
  split.
  - induction l as [|a l IH]; simpl; [discriminate|].
    destruct (f a) as [y|e1] eqn:Ha; simpl.
    + destruct (map_result f l) as [ys|e2]; simpl; [discriminate|].
      intros [= <-]. destruct (IH eq_refl) as (pre & x & post & -> & Hpre & Hx).
      exists (a :: pre), x, post. split; [reflexivity|].
      split; [|exact Hx]. intros y0 [<-|Hy0]; [eauto | apply Hpre, Hy0].
    + intros [= <-]. exists [], a, l. split; [reflexivity|].
      split; [intros ? []| exact Ha].
  - intros (pre & x & post & -> & Hpre & Hx).
    induction pre as [|a pre IH]; simpl.
    + rewrite Hx. reflexivity.
    + destruct (Hpre a (in_eq _ _)) as [z ->]. simpl.
      rewrite IH; [reflexivity|]. intros y Hy. apply Hpre. right. exact Hy.
Qed.

(** X19: [get_stamps] raises exactly when the key of some matched file
    cannot be computed, and what it raises is what the first such file,
    in the order of the directory, raises: [IndexError] when the name of
    the file has fewer than three pieces between underscores,
    [ValueError] when the third piece is not an integer. *)
Theorem get_stamps_raises_at_first_bad_name (E : externals)
  (py_int : str -> option Z) (listing : list str) (e : exn) :
  (get_stamps E py_int listing = Raise e
   <-> exists pre f post,
         glob_jp (stamps_root E) listing = pre ++ f :: post
         /\ (forall g, In g pre -> exists z, stamp_key py_int g = Ok z)
         /\ stamp_key py_int f = Raise e)
  /\ (forall f,
        stamp_key py_int f = Raise e ->
        let pieces := PyStr.split UNDERSCORE (basename f) in
        (e = IndexError /\ (length pieces < 3)%nat)
        \/ (e = ValueError
            /\ exists piece, nth_error pieces 2 = Some piece
                             /\ py_int piece = None)).
Proof.
  split.
  - unfold get_stamps. cbn zeta.
    destruct (map_result (fun s => k ← stamp_key py_int s; Ok (k, s))
                (glob_jp (stamps_root E) listing)) as [keyed|e1] eqn:Hk; simpl.
    + split; [discriminate|]. intros (pre & f & post & Hsplit & Hpre & Hf).
      assert (@Ok (list (Z * str)) keyed = Raise e); [|discriminate].
      rewrite <- Hk. apply map_result_Raise_iff.
      exists pre, f, post. split; [exact Hsplit|]. split.
      * intros g Hg. destruct (Hpre g Hg) as [z Hz]. rewrite Hz. simpl. eauto.
      * rewrite Hf. reflexivity.
    + apply map_result_Raise_iff in Hk
        as (pre & f & post & Hsplit & Hpre & Hf).
      assert (Hf' : stamp_key py_int f = Raise e1).
      { destruct (stamp_key py_int f); [discriminate | simpl in Hf; congruence]. }
      assert (Hpre' : forall g, In g pre -> exists z, stamp_key py_int g = Ok z).
      { intros g Hg. destruct (Hpre g Hg) as [z Hz].
        destruct (stamp_key py_int g) as [k|]; [eauto | discriminate]. }
      split.
      * intros [= <-]. exists pre, f, post. auto.
      * intros (pre2 & f2 & post2 & Hsplit2 & Hpre2 & Hf2).
        f_equal.
        assert (map_result (fun s => k ← stamp_key py_int s; Ok (k, s))
                  (glob_jp (stamps_root E) listing) = Raise e) as H2.
        { apply map_result_Raise_iff. exists pre2, f2, post2.
          split; [exact Hsplit2|]. split.
          - intros g Hg. destruct (Hpre2 g Hg) as [z Hz]. rewrite Hz.
            simpl. eauto.
          - rewrite Hf2. reflexivity. }
        assert (map_result (fun s => k ← stamp_key py_int s; Ok (k, s))
                  (glob_jp (stamps_root E) listing) = Raise e1) as H1.
        { apply map_result_Raise_iff. exists pre, f, post.
          split; [exact Hsplit|]. split; [exact Hpre | exact Hf]. }
        congruence.
  - intros f. unfold stamp_key, basename. intros H. cbn zeta.
    destruct (nth_error
                (PyStr.split UNDERSCORE (PyStr.last_piece (PyStr.split SLASH f)))
                2) as [piece|] eqn:Hn.
    + destruct (py_int piece) eqn:Hp; [discriminate|].
      injection H as <-. right. split; [reflexivity|]. eauto.
    + injection H as <-. left. split; [reflexivity|].
      apply nth_error_None in Hn. lia.
Qed.

Lemma get_stamps_raises_at_first_bad_name_witness :
  get_stamps ascii_externals digits_value short_name_listing = Raise IndexError.
Proof.
  apply (proj1 (get_stamps_raises_at_first_bad_name ascii_externals
                  digits_value short_name_listing IndexError)).
  exists [lit "assets/UIs/01_Common/31_ClanEmoji/ClanChat_Emoji_3_Jp.png"],
    (lit "assets/UIs/01_Common/31_ClanEmoji/Emoji_Jp.png"),
    [lit "assets/UIs/01_Common/31_ClanEmoji/ClanChat_Emoji_x_Jp.png"].
  split; [vm_compute; reflexivity|]. split; [|vm_compute; reflexivity].
  intros g [<-|[]]. vm_compute. eauto.
Defined.
